(** * Fixed-width two's-complement integers of the Universal library

    A shallow embedding of [universal/integer/integer.hpp]: the packed byte
    storage of [integer<nbits>], its arithmetic operators, the long division
    [idiv], the scratch decimal digit engine, and the text codec
    ([convert_to_decimal_string] and [parse]).

    Conventions of the embedding:
    - [uint8_t b[nrBytes]] is a [list Z] of bytes, least significant first;
      each store into a byte goes through [u8], the truncation to 8 bits;
    - the template parameter [nbits] is an explicit argument of type [Z];
    - C++ exceptions are the [Throw] alternative of [result];
    - loop counters and shift amounts are [Z]: widths are taken to fit the
      [int] and [unsigned] counters of the source, and an [unsigned]
      parameter that receives a negative [int] becomes a huge index, hence
      out of range. *)

From Stdlib Require Import ZArith List Bool Lia Ascii String.
Import ListNotations.
Local Open Scope list_scope.
Local Open Scope Z_scope.

(* ================================================================== *)
(** ** Exceptions *)

Inductive exn : Type :=
| bit_index_out_of_bounds            (* throw "... bit index out of bounds" *)
| integer_byte_index_out_of_bounds   (* integer_byte_index_out_of_bounds{} *)
| integer_divide_by_zero             (* integer_divide_by_zero{} *)
| out_of_range.                      (* std::map::at on a missing key *)

Inductive result (A : Type) : Type :=
| Ok (a : A)
| Throw (e : exn).

Arguments Ok {A} a.
Arguments Throw {A} e.

Definition bind {A B : Type} (m : result A) (k : A -> result B) : result B :=
  match m with
  | Ok a => k a
  | Throw e => Throw e
  end.

Notation "x <- m ;; k" := (bind m (fun x => k))
  (at level 61, m at next level, right associativity).
Notation "' pat <- m ;; k" := (bind m (fun x => match x with pat => k end))
  (at level 61, pat pattern, m at next level, right associativity).

(** A [for] loop whose body may throw, over the list of its counter values. *)
Fixpoint for_each {I S : Type} (idx : list I) (body : S -> I -> result S) (s : S)
  : result S :=
  match idx with
  | [] => Ok s
  | i :: rest => s' <- body s i ;; for_each rest body s'
  end.

(** [lo, lo+1, ..., hi-1], the values of [for (i = lo; i < hi; ++i)]. *)
Definition range (lo hi : Z) : list Z :=
  map (fun k => lo + Z.of_nat k) (seq 0 (Z.to_nat (hi - lo))).

(** [hi, hi-1, ..., lo], the values of [for (i = hi; i >= lo; --i)]. *)
Definition down_range (hi lo : Z) : list Z := rev (range lo (hi + 1)).

(* ================================================================== *)
(** ** Bit storage *)

Definition bytes := list Z.

(** Conversion to [uint8_t]. *)
Definition u8 (z : Z) : Z := z mod 256.

Definition get (b : bytes) (i : Z) : Z := nth (Z.to_nat i) b 0.

Fixpoint put_nat (b : bytes) (i : nat) (v : Z) : bytes :=
  match b, i with
  | [], _ => []
  | _ :: t, O => v :: t
  | x :: t, S j => x :: put_nat t j v
  end.

Definition put (b : bytes) (i : Z) (v : Z) : bytes := put_nat b (Z.to_nat i) v.

Definition nrBytes (nbits : Z) : Z := 1 + (nbits - 1) / 8.
Definition MS_BYTE (nbits : Z) : Z := nrBytes nbits - 1.
Definition MS_BYTE_MASK (nbits : Z) : Z :=
  u8 (Z.shiftr 255 (nrBytes nbits * 8 - nbits)).

(** [b[MS_BYTE] = MS_BYTE_MASK & b[MS_BYTE]], the statement that nulls the
    bits outside of [nbits]. *)
Definition mask_ms_byte (nbits : Z) (b : bytes) : bytes :=
  put b (MS_BYTE nbits) (Z.land (MS_BYTE_MASK nbits) (get b (MS_BYTE nbits))).

Definition clear (nbits : Z) : bytes := repeat 0 (Z.to_nat (nrBytes nbits)).
Definition setzero (nbits : Z) : bytes := clear nbits.

(** [set(unsigned i)] *)
Definition set (nbits : Z) (b : bytes) (i : Z) : result bytes :=
  if (0 <=? i) && (i <? nbits) then
    let byte := get b (i / 8) in
    let mask := u8 (Z.shiftl 1 (i mod 8)) in
    Ok (put b (i / 8) (Z.lor byte mask))
  else Throw bit_index_out_of_bounds.

(** [reset(unsigned i)] *)
Definition reset (nbits : Z) (b : bytes) (i : Z) : result bytes :=
  if (0 <=? i) && (i <? nbits) then
    let byte := get b (i / 8) in
    let mask := u8 (Z.lnot (Z.shiftl 1 (i mod 8))) in
    Ok (put b (i / 8) (Z.land byte mask))
  else Throw bit_index_out_of_bounds.

(** [set(unsigned i, bool v)] *)
Definition set_to (nbits : Z) (b : bytes) (i : Z) (v : bool) : result bytes :=
  if (0 <=? i) && (i <? nbits) then
    let byte := get b (i / 8) in
    let null := u8 (Z.lnot (Z.shiftl 1 (i mod 8))) in
    let bit := if v then 1 else 0 in
    let mask := u8 (Z.shiftl bit (i mod 8)) in
    Ok (put b (i / 8) (Z.lor (Z.land byte null) mask))
  else Throw bit_index_out_of_bounds.

(** [at(unsigned i)] *)
Definition at_ (nbits : Z) (b : bytes) (i : Z) : result bool :=
  if (0 <=? i) && (i <? nbits) then
    let byte := get b (i / 8) in
    let mask := u8 (Z.shiftl 1 (i mod 8)) in
    Ok (negb (Z.land byte mask =? 0))
  else Throw bit_index_out_of_bounds.

(** [setbyte(unsigned i, uint8_t value)] *)
Definition setbyte (nbits : Z) (b : bytes) (i : Z) (value : Z) : result bytes :=
  if (0 <=? i) && (i <? nrBytes nbits) then Ok (put b i value)
  else Throw integer_byte_index_out_of_bounds.

(** [byte(unsigned i)] *)
Definition byte (nbits : Z) (b : bytes) (i : Z) : result Z :=
  if (0 <=? i) && (i <? nrBytes nbits) then Ok (get b i)
  else Throw integer_byte_index_out_of_bounds.

Definition sign (nbits : Z) (b : bytes) : result bool := at_ nbits b (nbits - 1).

Definition iszero (b : bytes) : bool := forallb (fun x => x =? 0) b.

(** [set_raw_bits(unsigned long long value)] *)
Fixpoint raw_bytes (n : nat) (value : Z) : bytes :=
  match n with
  | O => []
  | S n' => u8 (Z.land value 255) :: raw_bytes n' (Z.shiftr value 8)
  end.

Definition set_raw_bits (nbits : Z) (value : Z) : bytes :=
  mask_ms_byte nbits (raw_bytes (Z.to_nat (nrBytes nbits)) value).

(** [flip()], the in-place one's complement. *)
Definition flip (nbits : Z) (b : bytes) : bytes :=
  mask_ms_byte nbits (map (fun x => u8 (Z.lnot x)) b).

(** [max_int()]: two's complement max is 01111111. *)
Definition max_int (nbits : Z) : result bytes :=
  mx <- set_to nbits (setzero nbits) (nbits - 1) true ;;
  Ok (flip nbits mx).

(** [min_int()]: two's complement min is 10000000. *)
Definition min_int (nbits : Z) : result bytes :=
  set_to nbits (setzero nbits) (nbits - 1) true.

(* ================================================================== *)
(** ** Construction from native integers *)

(** The loop of [convert(int64_t v, integer<nbits>& result)]:
    [for (i = 0; i < upper && v != 0; ++i) { if (v & 1) result.set(i); v >>= 1; }] *)
Fixpoint convert_loop (nbits : Z) (idx : list Z) (v : Z) (r : bytes)
  : result bytes :=
  match idx with
  | [] => Ok r
  | i :: rest =>
      if v =? 0 then Ok r
      else
        r' <- (if negb (Z.land v 1 =? 0) then set nbits r i else Ok r) ;;
        convert_loop nbits rest (Z.shiftr v 1) r'
  end.

Definition convert (nbits : Z) (v : Z) : result bytes :=
  let negative := v <? 0 in
  let upper := if nbits <=? 64 then nbits else 64 in
  r <- convert_loop nbits (range 0 upper) v (clear nbits) ;;
  if (64 <? nbits) && negative then
    (* sign extend *)
    for_each (range upper nbits) (fun r i => set nbits r i) r
  else Ok r.

(** [integer(const int)], through [operator=(const int rhs)]. *)
Definition of_int (nbits : Z) (rhs : Z) : result bytes :=
  if 0 =? rhs then Ok (setzero nbits) else convert nbits rhs.

(* ================================================================== *)
(** ** Arithmetic operators *)

(** The byte loop of [operator+=]; the sum [s] is a [uint16_t]. *)
Fixpoint add_bytes (l r : bytes) (carry : bool) : bytes :=
  match l, r with
  | x :: l', y :: r' =>
      let s := x + y + (if carry then 1 else 0) in
      u8 (Z.land s 255) :: add_bytes l' r' (255 <? s)
  | _, _ => []
  end.

(** [operator+=(const integer& rhs)] *)
Definition add_assign (nbits : Z) (this rhs : bytes) : bytes :=
  mask_ms_byte nbits (add_bytes this rhs false).

(** Prefix [operator++()] *)
Definition increment (nbits : Z) (this : bytes) : result bytes :=
  one <- of_int nbits 1 ;;
  Ok (mask_ms_byte nbits (add_assign nbits this one)).

(** [operator~()] *)
Definition complement (nbits : Z) (this : bytes) : bytes := flip nbits this.

(** [twos_complement(value)]: [complement = ~value; ++complement]. *)
Definition twos_complement (nbits : Z) (value : bytes) : result bytes :=
  increment nbits (complement nbits value).

(** Unary [operator-()]: [negated.flip(); negated += 1]. *)
Definition neg (nbits : Z) (this : bytes) : result bytes :=
  let negated := flip nbits this in
  one <- of_int nbits 1 ;;
  Ok (add_assign nbits negated one).

(** [operator-=(const integer& rhs)] *)
Definition sub_assign (nbits : Z) (this rhs : bytes) : result bytes :=
  c <- twos_complement nbits rhs ;;
  Ok (add_assign nbits this c).

(** Prefix [operator--()] *)
Definition decrement (nbits : Z) (this : bytes) : result bytes :=
  one <- of_int nbits 1 ;;
  d <- sub_assign nbits this one ;;
  Ok (mask_ms_byte nbits d).

(** The part of [operator<<=] after its guards on [shift == 0] and
    [shift < 0]. *)
Definition shl_body (nbits : Z) (this : bytes) (shift : Z) : result bytes :=
  if nbits <=? shift then Ok (clear nbits)
  else
    for_each (range shift nbits)
      (fun target i => v <- at_ nbits this (i - shift) ;; set_to nbits target i v)
      (clear nbits).

(** The part of [operator>>=] after its guards on [shift == 0] and
    [shift < 0]. *)
Definition shr_body (nbits : Z) (this : bytes) (shift : Z) : result bytes :=
  if nbits <=? shift then Ok (clear nbits)
  else
    for_each (down_range (nbits - 1) shift)
      (fun target i => v <- at_ nbits this i ;; set_to nbits target (i - shift) v)
      (clear nbits).

(** [operator<<=(const signed shift)].  A negative amount is handed to
    [operator>>=(-shift)]; since [-shift] is positive there, that call runs
    the body of [>>=] and the two operators never call each other twice.
    ([-shift] is the negation of an [int]: it is exact for every amount but
    [INT_MIN], where the source has undefined behaviour.) *)
Definition shl_assign (nbits : Z) (this : bytes) (shift : Z) : result bytes :=
  if shift =? 0 then Ok this
  else if shift <? 0 then shr_body nbits this (- shift)
  else shl_body nbits this shift.

(** [operator>>=(const signed shift)] *)
Definition shr_assign (nbits : Z) (this : bytes) (shift : Z) : result bytes :=
  if shift =? 0 then Ok this
  else if shift <? 0 then shl_body nbits this (- shift)
  else shr_body nbits this shift.

(** [operator*=(const integer& rhs)] *)
Definition mul_assign (nbits : Z) (this rhs : bytes) : result bytes :=
  let base := this in
  '(acc, _) <-
    for_each (range 0 nbits)
      (fun '(acc, multiplicant) i =>
         bit <- at_ nbits base i ;;
         let acc' := if bit then add_assign nbits acc multiplicant else acc in
         m' <- shl_assign nbits multiplicant 1 ;;
         Ok (acc', m'))
      (clear nbits, rhs) ;;
  Ok acc.

(** Binary [operator+], [operator-], [operator*]. *)
Definition add (nbits : Z) (lhs rhs : bytes) : bytes := add_assign nbits lhs rhs.
Definition sub (nbits : Z) (lhs rhs : bytes) : result bytes := sub_assign nbits lhs rhs.
Definition mul (nbits : Z) (lhs rhs : bytes) : result bytes := mul_assign nbits lhs rhs.

(* ================================================================== *)
(** ** Comparisons *)

(** [operator==]: the storage bytes are compared directly. *)
Fixpoint eq_bytes (l r : bytes) : bool :=
  match l, r with
  | x :: l', y :: r' => if negb (x =? y) then false else eq_bytes l' r'
  | _, _ => true
  end.

Definition operator_eq (lhs rhs : bytes) : bool := eq_bytes lhs rhs.

(** The bit loop of [operator<], from bit [nbits-1] down to 0. *)
Fixpoint lt_loop (nbits : Z) (lhs rhs : bytes) (idx : list Z) : result bool :=
  match idx with
  | [] => Ok false
  | i :: rest =>
      a <- at_ nbits lhs i ;;
      b <- at_ nbits rhs i ;;
      if xorb a b then Ok (Bool.eqb a false) else lt_loop nbits lhs rhs rest
  end.

(** [operator<] *)
Definition operator_lt (nbits : Z) (lhs rhs : bytes) : result bool :=
  lhs_is_negative <- sign nbits lhs ;;
  rhs_is_negative <- sign nbits rhs ;;
  if lhs_is_negative && negb rhs_is_negative then Ok true
  else if rhs_is_negative && negb lhs_is_negative then Ok false
  else lt_loop nbits lhs rhs (down_range (nbits - 1) 0).

(** [operator<=] *)
Definition operator_le (nbits : Z) (lhs rhs : bytes) : result bool :=
  l <- operator_lt nbits lhs rhs ;;
  Ok (l || operator_eq lhs rhs).

(* ================================================================== *)
(** ** Most significant bit *)

(** The inner loop of [findMsb]: [for (j = 7; j >= 0; --j)] with
    [mask = 0x80] shifted right once per round. *)
Fixpoint findMsb_byte (x : Z) (js : list Z) (mask : Z) : option Z :=
  match js with
  | [] => None
  | j :: rest =>
      if negb (Z.land x mask =? 0) then Some j
      else findMsb_byte x rest (u8 (Z.shiftr mask 1))
  end.

Fixpoint findMsb_loop (b : bytes) (idx : list Z) : Z :=
  match idx with
  | [] => -1
  | i :: rest =>
      if negb (get b i =? 0) then
        match findMsb_byte (get b i) (down_range 7 0) 128 with
        | Some j => i * 8 + j
        | None => findMsb_loop b rest
        end
      else findMsb_loop b rest
  end.

Definition findMsb (nbits : Z) (v : bytes) : Z :=
  findMsb_loop v (down_range (nrBytes nbits - 1) 0).

(* ================================================================== *)
(** ** Copies between widths *)

(** [bitcopy(const integer<src_nbits>& src)] on an [integer<nbits>]. *)
Definition bitcopy (nbits src_nbits : Z) (src : bytes) : result bytes :=
  let lastByte :=
    if nrBytes nbits <? nrBytes src_nbits then nrBytes nbits
    else nrBytes src_nbits in
  b <- for_each (range 0 lastByte)
         (fun b i => v <- byte src_nbits src i ;; Ok (put b i v))
         (clear nbits) ;;
  Ok (mask_ms_byte nbits b).

(** The converting constructor [integer(const integer<srcbits>& a)]
    (its [static_assert] accepts [srcbits > nbits] only, the use [idiv]
    makes of it). *)
Definition of_integer (nbits srcbits : Z) (a : bytes) : result bytes :=
  b <- bitcopy nbits srcbits a ;;
  s <- sign srcbits a ;;
  if s then for_each (range srcbits nbits) (fun b i => set nbits b i) b
  else Ok b.

(* ================================================================== *)
(** ** Long division *)

Record idiv_t : Type := mk_idiv_t { quot : bytes; rem : bytes }.

(** The zero-divisor check shared by [idiv], [divide] and [remainder];
    [throw_arith] is the build switch [INTEGER_THROW_ARITHMETIC_EXCEPTION]
    (otherwise a message goes to [std::cerr] and execution continues). *)
Definition check_divisor (throw_arith : bool) (nbits : Z) (b : bytes)
  : result unit :=
  zero <- of_int nbits 0 ;;
  if operator_eq b zero then
    if throw_arith then Throw integer_divide_by_zero else Ok tt
  else Ok tt.

(** One round of the long division loop of [idiv]. *)
Definition idiv_step (nbits : Z) (st : bytes * bytes * bytes) (i : Z)
  : result (bytes * bytes * bytes) :=
  let '(accumulator, subtractand, q) := st in
  c <- operator_le (nbits + 1) subtractand accumulator ;;
  '(accumulator', q') <-
    (if c then
       acc <- sub_assign (nbits + 1) accumulator subtractand ;;
       q1 <- set nbits q i ;;
       Ok (acc, q1)
     else
       q1 <- reset nbits q i ;;
       Ok (accumulator, q1)) ;;
  subtractand' <- shr_assign (nbits + 1) subtractand 1 ;;
  Ok (accumulator', subtractand', q').

(** [idiv(const integer<nbits>& _a, const integer<nbits>& _b)] *)
Definition idiv (throw_arith : bool) (nbits : Z) (_a _b : bytes)
  : result idiv_t :=
  _ <- check_divisor throw_arith nbits _b ;;
  a_negative <- sign nbits _a ;;
  b_negative <- sign nbits _b ;;
  let result_negative := xorb a_negative b_negative in
  abs_a <- (if a_negative then neg nbits _a else Ok _a) ;;
  a <- bitcopy (nbits + 1) nbits abs_a ;;
  abs_b <- (if b_negative then neg nbits _b else Ok _b) ;;
  b <- bitcopy (nbits + 1) nbits abs_b ;;
  let divresult := mk_idiv_t (setzero nbits) (setzero nbits) in
  a_lt_b <- operator_lt (nbits + 1) a b ;;
  if a_lt_b then Ok (mk_idiv_t (quot divresult) _a)
  else
    let accumulator := a in
    let subtractand := b in
    let msb_b := findMsb (nbits + 1) b in
    let msb_a := findMsb (nbits + 1) a in
    let shift := msb_a - msb_b in
    subtractand <- shl_assign (nbits + 1) subtractand shift ;;
    '(accumulator, _, q) <-
      for_each (down_range shift 0) (idiv_step nbits)
        (accumulator, subtractand, quot divresult) ;;
    q <- (if result_negative then
            one <- of_int nbits 1 ;;
            Ok (add_assign nbits (flip nbits q) one)
          else Ok q) ;;
    zero <- of_int nbits 0 ;;
    a_below_zero <- operator_lt nbits _a zero ;;
    r <- (if a_below_zero then
            n <- neg (nbits + 1) accumulator ;;
            of_integer nbits (nbits + 1) n
          else of_integer nbits (nbits + 1) accumulator) ;;
    Ok (mk_idiv_t q r).

(** [divide(a, b, quotient)] *)
Definition divide (throw_arith : bool) (nbits : Z) (a b : bytes) : result bytes :=
  _ <- check_divisor throw_arith nbits b ;;
  divresult <- idiv throw_arith nbits a b ;;
  Ok (quot divresult).

(** [remainder(a, b, remainder)] *)
Definition remainder (throw_arith : bool) (nbits : Z) (a b : bytes) : result bytes :=
  _ <- check_divisor throw_arith nbits b ;;
  divresult <- idiv throw_arith nbits a b ;;
  Ok (rem divresult).

(** Binary [operator/] and [operator%], through [operator/=] and
    [operator%=]. *)
Definition div (throw_arith : bool) (nbits : Z) (lhs rhs : bytes) : result bytes :=
  divresult <- idiv throw_arith nbits lhs rhs ;;
  Ok (quot divresult).

Definition modulo (throw_arith : bool) (nbits : Z) (lhs rhs : bytes) : result bytes :=
  divresult <- idiv throw_arith nbits lhs rhs ;;
  Ok (rem divresult).

(* ================================================================== *)
(** ** The decimal digit engine (namespace [impl]) *)

Module impl.

(** [class decimal : public std::vector<uint8_t>] with its [sign] member;
    the digits are stored least significant first. *)
Record decimal : Type := mk_decimal { digits : list Z; sign : bool }.

(** The loop of [unpad()]: [for (i = n - 1; i > 0; --i)
    if (operator[](i) == 0) pop_back();] *)
Fixpoint unpad_loop (idx : list Z) (d : list Z) : list Z :=
  match idx with
  | [] => d
  | i :: rest => unpad_loop rest (if get d i =? 0 then removelast d else d)
  end.

Definition unpad_digits (d : list Z) : list Z :=
  let n := Z.of_nat (List.length d) in
  unpad_loop (down_range (n - 1) 1) d.

Definition unpad (d : decimal) : decimal :=
  mk_decimal (unpad_digits (digits d)) (sign d).

(** The digit loop of [less], most significant digit first. *)
Fixpoint less_loop (l r : list Z) : bool :=
  match l, r with
  | x :: l', y :: r' =>
      if x <? y then true else if y <? x then false else less_loop l' r'
  | _, _ => false
  end.

Definition less (lhs rhs : decimal) : bool :=
  let l := List.length (digits lhs) in
  let r := List.length (digits rhs) in
  if (l <? r)%nat then true
  else if (r <? l)%nat then false
  else less_loop (rev (digits lhs)) (rev (digits rhs)).

(** [v.insert(v.end(), n, 0)] *)
Definition pad (v : list Z) (n : nat) : list Z := v ++ repeat 0 n.

(** The digit loop of [add]; returns the digits and the final carry. *)
Fixpoint add_digits (l r : list Z) (carry : Z) : list Z * Z :=
  match l, r with
  | x :: l', y :: r' =>
      let s := u8 (x + y + carry) in
      if 9 <? s then
        let (t, c) := add_digits l' r' 1 in (u8 (s - 10) :: t, c)
      else
        let (t, c) := add_digits l' r' 0 in (s :: t, c)
  | _, _ => ([], carry)
  end.

(** [add] once the signs are known to agree.  The loop reads the copy
    [_rhs], never [rhs] itself, so the call [add(multiplier, multiplier)] of
    the renderer, whose two arguments are one object, behaves like a call
    on two equal values. *)
Definition add_magnitudes (lhs _rhs : decimal) : decimal :=
  let l := List.length (digits lhs) in
  let r := List.length (digits _rhs) in
  let lhs_d := if (l <? r)%nat then pad (digits lhs) (r - l) else digits lhs in
  let rhs_d := if (l <? r)%nat then digits _rhs else pad (digits _rhs) (l - r) in
  let (d, carry) := add_digits lhs_d rhs_d 0 in
  mk_decimal (if negb (carry =? 0) then d ++ [1] else d) (sign lhs).

(** The digit loop of [sub]. *)
Fixpoint sub_digits (l r : list Z) (borrow : Z) : list Z :=
  match l, r with
  | x :: l', y :: r' =>
      if x - borrow <? y then u8 (10 + x - borrow - y) :: sub_digits l' r' 1
      else u8 (x - borrow - y) :: sub_digits l' r' 0
  | _, _ => []
  end.

(** [sub] once the signs are known to agree. *)
Definition sub_magnitudes (lhs _rhs : decimal) : decimal :=
  let sgn := sign lhs in
  let l := List.length (digits lhs) in
  let r := List.length (digits _rhs) in
  let '(lhs', rhs', sgn') :=
    if (l <? r)%nat then
      (_rhs, mk_decimal (pad (digits lhs) (r - l)) (sign lhs), negb sgn)
    else if (r <? l)%nat then
      (lhs, mk_decimal (pad (digits _rhs) (l - r)) (sign _rhs), sgn)
    else if less lhs _rhs then (_rhs, lhs, negb sgn)
    else (lhs, _rhs, sgn) in
  let d := sub_digits (digits lhs') (digits rhs') 0 in
  mk_decimal (unpad_digits d) sgn'.

(** [add(decimal& lhs, const decimal& rhs)].  With differing signs the work
    goes to [sub] on the sign-flipped copy [_rhs], whose sign then equals
    that of [lhs], so [sub] does not call back. *)
Definition add (lhs rhs : decimal) : decimal :=
  if negb (Bool.eqb (sign lhs) (sign rhs)) then
    sub_magnitudes lhs (mk_decimal (digits rhs) (negb (sign rhs)))
  else add_magnitudes lhs rhs.

(** [sub(decimal& lhs, const decimal& rhs)] *)
Definition sub (lhs rhs : decimal) : decimal :=
  if negb (Bool.eqb (sign lhs) (sign rhs)) then
    add_magnitudes lhs (mk_decimal (digits rhs) (negb (sign rhs)))
  else sub_magnitudes lhs rhs.

End impl.

(* ================================================================== *)
(** ** Text codec: rendering *)

Definition digit_char (d : Z) : ascii := ascii_of_nat (Z.to_nat (48 + d)).

(** [ss << (int)x] for a [uint8_t x]. *)
Definition show_int (x : Z) : list ascii :=
  if x <? 10 then [digit_char x]
  else if x <? 100 then [digit_char (x / 10); digit_char (x mod 10)]
  else [digit_char (x / 100); digit_char (x / 10 mod 10); digit_char (x mod 10)].

(** One round of the double-and-add loop of [convert_to_decimal_string]. *)
Definition render_step (nbits : Z) (number : bytes)
    (st : impl.decimal * impl.decimal) (i : Z)
  : result (impl.decimal * impl.decimal) :=
  let '(partial, multiplier) := st in
  bit <- at_ nbits number i ;;
  let partial' := if bit then impl.add partial multiplier else partial in
  Ok (partial', impl.add multiplier multiplier).

(** [convert_to_decimal_string(const integer<nbits>& value)] *)
Definition convert_to_decimal_string (nbits : Z) (value : bytes) : result string :=
  if iszero value then Ok "0"%string
  else
    negative <- sign nbits value ;;
    number <- (if negative then twos_complement nbits value else Ok value) ;;
    let partial := impl.mk_decimal [0] false in
    let multiplier := impl.mk_decimal [1] false in
    '(partial, _) <-
      for_each (range 0 nbits) (render_step nbits number) (partial, multiplier) ;;
    negative <- sign nbits value ;;
    let ss := if negative then ["-"%char] else [] in
    Ok (string_of_list_ascii
          (ss ++ flat_map show_int (rev (impl.digits partial)))).

(* ================================================================== *)
(** ** Text codec: parsing *)

Definition code (c : ascii) : Z := Z.of_N (N_of_ascii c).

Definition in_class (lo hi c : ascii) : bool :=
  (code lo <=? code c) && (code c <=? code hi).

(** [std::regex_match(number, std::regex("[0-9]+"))] *)
Definition decimal_regex (number : list ascii) : bool :=
  match number with
  | [] => false
  | _ => forallb (in_class "0" "9") number
  end.

(** [std::regex_match(number, std::regex("^0[1-7][0-7]*$"))] *)
Definition octal_regex (number : list ascii) : bool :=
  match number with
  | c0 :: c1 :: rest =>
      Ascii.eqb c0 "0" && in_class "1" "7" c1 && forallb (in_class "0" "7") rest
  | _ => false
  end.

Definition hex_class (c : ascii) : bool :=
  in_class "0" "9" c || in_class "a" "f" c || in_class "A" "F" c
  || Ascii.eqb c "'".

(** [std::regex_match(number, std::regex("0[xX][0-9a-fA-F']+"))] *)
Definition hex_regex (number : list ascii) : bool :=
  match number with
  | c0 :: c1 :: (_ :: _) as rest =>
      Ascii.eqb c0 "0" && (Ascii.eqb c1 "x" || Ascii.eqb c1 "X")
      && forallb hex_class rest
  | _ => false
  end.

(** The associative array [charLookup] that maps chars to nibbles. *)
Definition charLookup : list (ascii * Z) :=
  [ ("0", 0); ("1", 1); ("2", 2); ("3", 3); ("4", 4); ("5", 5); ("6", 6);
    ("7", 7); ("8", 8); ("9", 9);
    ("a", 10); ("b", 11); ("c", 12); ("d", 13); ("e", 14); ("f", 15);
    ("A", 10); ("B", 11); ("C", 12); ("D", 13); ("E", 14); ("F", 15) ]%char.

(** [charLookup.at(c)] *)
Definition charLookup_at (c : ascii) : result Z :=
  match find (fun p => Ascii.eqb (fst p) c) charLookup with
  | Some p => Ok (snd p)
  | None => Throw out_of_range
  end.

(** The state of the hexadecimal loop of [parse]. *)
Record hex_state : Type := mk_hex_state {
  hs_byte : Z;          (* int byte, not read before it is assigned *)
  hs_byteIndex : Z;
  hs_odd : bool;
  hs_value : bytes;
  hs_bSuccess : bool
}.

(** One character of the hexadecimal loop, read right to left. *)
Definition hex_step (nbits : Z) (st : hex_state) (r : ascii) : result hex_state :=
  let '(mk_hex_state byte byteIndex odd value bSuccess) := st in
  if Ascii.eqb r "'" then Ok st
  else if Ascii.eqb r "x" || Ascii.eqb r "X" then
    value' <- (if odd then setbyte nbits value byteIndex (u8 byte) else Ok value) ;;
    Ok (mk_hex_state byte byteIndex odd value' true)
  else if odd then
    n <- charLookup_at r ;;
    let byte' := byte + Z.shiftl n 4 in
    value' <- setbyte nbits value byteIndex (u8 byte') ;;
    Ok (mk_hex_state byte' (byteIndex + 1) (negb odd) value' bSuccess)
  else
    n <- charLookup_at r ;;
    Ok (mk_hex_state n byteIndex (negb odd) value bSuccess).

(** One character of the decimal loop, read right to left:
    the digit is looked up in [charLookup], then
    [value += scale * digit; scale *= 10]. *)
Definition decimal_step (nbits : Z) (st : bytes * bytes) (r : ascii)
  : result (bytes * bytes) :=
  let '(value, scale) := st in
  n <- charLookup_at r ;;
  digit <- of_int nbits n ;;
  p <- mul nbits scale digit ;;
  let value' := add_assign nbits value p in
  ten <- of_int nbits 10 ;;
  scale' <- mul_assign nbits scale ten ;;
  Ok (value', scale').

(** [parse(const std::string& number, integer<nbits>& value)]: the returned
    pair is [bSuccess] and the final content of [value]. *)
Definition parse (nbits : Z) (number : string) (value : bytes)
  : result (bool * bytes) :=
  let bSuccess := false in
  let value := clear nbits in
  let chars := list_ascii_of_string number in
  if octal_regex chars then Ok (false, value)
  else if hex_regex chars then
    st <- for_each (rev chars) (hex_step nbits)
            (mk_hex_state 0 0 false value bSuccess) ;;
    Ok (hs_bSuccess st, hs_value st)
  else if decimal_regex chars then
    scale <- of_int nbits 1 ;;
    '(value, _) <- for_each (rev chars) (decimal_step nbits) (value, scale) ;;
    Ok (true, value)
  else Ok (bSuccess, value).

(* ================================================================== *)
(** ** Further operations of [integer<nbits>] *)

(** The loop of [convert_unsigned(uint64_t v, integer<nbits>& result)]:
    [for (i = 0; i < upper; ++i) { if (v & 1) result.set(i); v >>= 1; }] *)
Definition convert_unsigned_step (nbits : Z) (st : Z * bytes) (i : Z)
  : result (Z * bytes) :=
  let '(v, r) := st in
  r' <- (if negb (Z.land v 1 =? 0) then set nbits r i else Ok r) ;;
  Ok (Z.shiftr v 1, r').

Definition convert_unsigned (nbits : Z) (v : Z) : result bytes :=
  let upper := if nbits <=? 64 then nbits else 64 in
  '(_, r) <- for_each (range 0 upper) (convert_unsigned_step nbits)
               (v, clear nbits) ;;
  Ok r.

(** [integer(const unsigned long long)], through
    [operator=(const unsigned long long rhs)]. *)
Definition of_uint (nbits : Z) (rhs : Z) : result bytes :=
  if 0 =? rhs then Ok (setzero nbits) else convert_unsigned nbits rhs.

(** Postfix [operator++(int)] and [operator--(int)]: the pair is the value
    returned (the old one) and the new content of the object. *)
Definition post_increment (nbits : Z) (this : bytes) : result (bytes * bytes) :=
  let tmp := this in
  this' <- increment nbits this ;;
  Ok (tmp, this').

Definition post_decrement (nbits : Z) (this : bytes) : result (bytes * bytes) :=
  let tmp := this in
  this' <- decrement nbits this ;;
  Ok (tmp, this').

(** [operator!=], [operator>], [operator>=] on two integers. *)
Definition operator_ne (lhs rhs : bytes) : bool := negb (operator_eq lhs rhs).

Definition operator_gt (nbits : Z) (lhs rhs : bytes) : result bool :=
  operator_lt nbits rhs lhs.

Definition operator_ge (nbits : Z) (lhs rhs : bytes) : result bool :=
  l <- operator_lt nbits lhs rhs ;;
  Ok (negb l).

(** The comparisons of an integer with a [long long] literal: the literal
    is first converted with [integer<nbits>(rhs)]. *)
Definition operator_eq_literal (nbits : Z) (lhs : bytes) (rhs : Z) : result bool :=
  r <- of_int nbits rhs ;;
  Ok (operator_eq lhs r).

Definition operator_ne_literal (nbits : Z) (lhs : bytes) (rhs : Z) : result bool :=
  e <- operator_eq_literal nbits lhs rhs ;;
  Ok (negb e).

Definition operator_lt_literal (nbits : Z) (lhs : bytes) (rhs : Z) : result bool :=
  r <- of_int nbits rhs ;;
  operator_lt nbits lhs r.

Definition operator_gt_literal (nbits : Z) (lhs : bytes) (rhs : Z) : result bool :=
  r <- of_int nbits rhs ;;
  operator_lt nbits r lhs.

Definition operator_le_literal (nbits : Z) (lhs : bytes) (rhs : Z) : result bool :=
  l <- operator_lt_literal nbits lhs rhs ;;
  if l then Ok true else operator_eq_literal nbits lhs rhs.

Definition operator_ge_literal (nbits : Z) (lhs : bytes) (rhs : Z) : result bool :=
  l <- operator_lt_literal nbits lhs rhs ;;
  Ok (negb l).

(** [scale(const integer<nbits>& i)].  The [while (v > 1)] loop runs on
    fuel; [None] means the fuel ran out.  [v > 1] is the comparison with a
    literal, [operator<(integer<nbits>(1), v)]. *)
Fixpoint scale_loop (fuel : nat) (nbits : Z) (v : bytes) (scale : Z)
  : result (option Z) :=
  match fuel with
  | O => Ok None
  | S fuel' =>
      c <- operator_gt_literal nbits v 1 ;;
      if c then
        v' <- shr_assign nbits v 1 ;;
        scale_loop fuel' nbits v' (scale + 1)
      else Ok (Some scale)
  end.

Definition scale (fuel : nat) (nbits : Z) (i : bytes) : result (option Z) :=
  let v := i in
  negative <- sign nbits i ;;
  if negative then
    v <- twos_complement nbits v ;;
    if operator_eq v i then Ok (Some (nbits - 1))
    else scale_loop fuel nbits v 0
  else scale_loop fuel nbits v 0.

(** Conversion to a signed native type.  [to_short], [to_int] and
    [to_long_long] are the same code for the widths 16, 32 and 64 of the
    result type.  [wrap w] is the conversion of a shifted mask back to the
    [w]-bit signed type, the two's-complement wrap that C++20 defines for
    [mask <<= 1] (only the last shift, of a mask that is not read again,
    leaves the range). *)
Definition wrap (w z : Z) : Z := (z + 2 ^ (w - 1)) mod 2 ^ w - 2 ^ (w - 1).

Definition to_native_step (w nbits : Z) (this : bytes) (st : Z * Z) (i : Z)
  : result (Z * Z) :=
  let '(value, mask) := st in
  bit <- at_ nbits this i ;;
  Ok (Z.lor value (if bit then mask else 0), wrap w (Z.shiftl mask 1)).

Definition sign_extend_step (w : Z) (st : Z * Z) (i : Z) : result (Z * Z) :=
  let '(value, mask) := st in
  Ok (Z.lor value mask, wrap w (Z.shiftl mask 1)).

Definition to_native (w nbits : Z) (this : bytes) : result Z :=
  let upper := if nbits <? w then nbits else w in
  '(value, mask) <- for_each (range 0 upper) (to_native_step w nbits this) (0, 1) ;;
  negative <- sign nbits this ;;
  if negative && (upper <? w) then
    (* sign extend *)
    '(value, _) <- for_each (range upper w) (sign_extend_step w) (value, mask) ;;
    Ok value
  else Ok value.

Definition to_short : Z -> bytes -> result Z := to_native 16.
Definition to_int : Z -> bytes -> result Z := to_native 32.
Definition to_long_long : Z -> bytes -> result Z := to_native 64.

(** [assign(const std::string& txt)]: [parse], a message on [std::cerr]
    when it fails, then the mask of the most significant byte. *)
Definition assign (nbits : Z) (txt : string) (this : bytes) : result bytes :=
  '(_, this') <- parse nbits txt this ;;
  Ok (mask_ms_byte nbits this').

(** [to_binary(const integer<nbits>& number)] *)
Definition to_binary (nbits : Z) (number : bytes) : result string :=
  ss <- for_each (down_range (nbits - 1) 0)
          (fun ss i =>
             bit <- at_ nbits number i ;;
             Ok (ss ++ [if bit then "1"%char else "0"%char]))
          [] ;;
  Ok (string_of_list_ascii ss).

(** ** The shift operators with their [int] amount *)



(* ================================================================== *)
(** * Specification *)

(** ** The abstraction: storage bytes as an unsigned number *)

(** Little-endian value of the storage bytes. *)
Fixpoint val (b : bytes) : Z :=
  match b with
  | [] => 0
  | x :: t => x + 256 * val t
  end.

Definition byte_range (b : bytes) : Prop := Forall (fun x => 0 <= x < 256) b.

(** What the type [integer<nbits>] guarantees of its storage: [nrBytes]
    bytes, each a [uint8_t]. *)
Definition wf (nbits : Z) (b : bytes) : Prop :=
  Z.of_nat (List.length b) = nrBytes nbits /\ byte_range b.

(** The bit at position [i] of the storage. *)
Definition storage_bit (b : bytes) (i : Z) : bool :=
  Z.testbit (get b (i / 8)) (i mod 8).

(** Invariant I1: no storage bit at a position [>= nbits] is set. *)
Definition masked (nbits : Z) (b : bytes) : Prop :=
  forall i, nbits <= i -> storage_bit b i = false.

(** The executable check that [b] is a value of [integer<nbits>] that
    satisfies invariant I1: [nrBytes] bytes, each a [uint8_t], and no bit
    set in the unused part of the most significant byte. *)
Definition valid (nbits : Z) (b : bytes) : bool :=
  (Z.of_nat (List.length b) =? nrBytes nbits)
  && forallb (fun x => (0 <=? x) && (x <? 256)) b
  && forallb (fun i => negb (storage_bit b i)) (range nbits (8 * nrBytes nbits)).

(** [b] is a well-formed, masked [integer<nbits>] whose bits read as the
    unsigned number [v]. *)
Definition rep (nbits : Z) (b : bytes) (v : Z) : Prop :=
  wf nbits b /\ val b = v /\ 0 <= v < 2 ^ nbits.

(** The two's-complement reading of an unsigned [nbits]-bit number. *)
Definition signed (nbits : Z) (v : Z) : Z :=
  if v <? 2 ^ (nbits - 1) then v else v - 2 ^ nbits.

(** Value of a decimal digit sequence, least significant digit first. *)
Fixpoint dval (d : list Z) : Z :=
  match d with
  | [] => 0
  | x :: t => x + 10 * dval t
  end.

Definition digit_range (d : list Z) : Prop := Forall (fun x => 0 <= x <= 9) d.

(** Case analysis on every integer comparison of the goal. *)
Ltac cases_cmp :=
  repeat match goal with
    | |- context [?a =? ?b] => destruct (Z.eqb_spec a b)
    | |- context [?a <? ?b] => destruct (Z.ltb_spec a b)
    | |- context [?a <=? ?b] => destruct (Z.leb_spec a b)
    end;
  simpl;
  try reflexivity; try lia; try (Z.div_mod_to_equations; lia).

(** The bits of [z] from position [m] upwards. *)
Definition high_part (z m : Z) : Z := (z / 2 ^ m) * 2 ^ m.

(** The state of the long division before the round with counter [k - 1]:
    the quotient bits at positions [>= k] are known. *)
Definition idiv_inv (nbits A B k : Z) (st : bytes * bytes * bytes) : Prop :=
  let '(acc, sub, q) := st in
  exists R Qt,
    rep (nbits + 1) acc R /\
    rep (nbits + 1) sub ((B * 2 ^ k) / 2) /\
    rep nbits q (Qt * 2 ^ k) /\
    A = Qt * (B * 2 ^ k) + R /\ 0 <= R < B * 2 ^ k /\ 0 <= Qt.

(** A digit sequence without a zero at its high end: its value has exactly
    as many decimal digits as the sequence is long. *)
Definition normal (d : list Z) : Prop :=
  digit_range d /\ d <> [] /\ 10 ^ (Z.of_nat (List.length d) - 1) <= dval d.

(** The state of the double-and-add loop before the round for bit [k]. *)
Definition render_inv (x k : Z) (st : impl.decimal * impl.decimal) : Prop :=
  let '(partial, multiplier) := st in
  impl.sign partial = false /\ impl.sign multiplier = false /\
  normal (impl.digits multiplier) /\ dval (impl.digits multiplier) = 2 ^ k /\
  digit_range (impl.digits partial) /\
  dval (impl.digits partial) = x mod 2 ^ k /\
  (impl.digits partial = [0] \/ normal (impl.digits partial)).

(** Case analysis on a decimal digit. *)
Ltac each_digit d H :=
  let C := fresh "C" in
  assert (C : d = 0 \/ d = 1 \/ d = 2 \/ d = 3 \/ d = 4 \/ d = 5 \/ d = 6
              \/ d = 7 \/ d = 8 \/ d = 9) by lia;
  destruct C as [?|[?|[?|[?|[?|[?|[?|[?|[?|?]]]]]]]]]; subst d.

(** The integer denoted by a storage, read in two's complement. *)
Definition to_Z (nbits : Z) (b : bytes) : Z := signed nbits (val b).

(** [m] returns, and what it returns satisfies invariant I1. *)
Definition keeps_masking (nbits : Z) (m : result bytes) : Prop :=
  exists r, m = Ok r /\ valid nbits r = true.

(** The marker character that ends the hexadecimal loop. *)
Definition hex_marker (c : ascii) : bool := Ascii.eqb c "x" || Ascii.eqb c "X".

(** A hexadecimal digit character. *)
Definition hex_digit (c : ascii) : bool :=
  in_class "0" "9" c || in_class "a" "f" c || in_class "A" "F" c.

(** The value a [long long] literal has after [integer<nbits>(rhs)]. *)
Definition literal (nbits rhs : Z) : Z := signed nbits (rhs mod 2 ^ nbits).

(** The state of the loops of [to_native] before round [i]: the mask is
    the [w]-bit value with only bit [i] set, and the accumulated value is
    [u], read as a [w]-bit signed number once the sign bit has been
    written. *)
Definition native_mask (w i : Z) : Z :=
  if i <? w - 1 then 2 ^ i else if i =? w - 1 then - 2 ^ (w - 1) else 0.

Definition native_inv (w x : Z) (i : Z) (st : Z * Z) : Prop :=
  snd st = native_mask w i /\
  fst st = (if i <? w then x mod 2 ^ i else signed w (x mod 2 ^ w)).

(** The same for the sign-extension loop of a negative [nbits]-bit value
    [x]. *)
Definition extend_inv (w nbits x : Z) (i : Z) (st : Z * Z) : Prop :=
  snd st = native_mask w i /\
  fst st = (if i <? w then x + 2 ^ i - 2 ^ nbits else x - 2 ^ nbits).

(** The number of zero digits of a sequence. *)
Definition zeros (d : list Z) : nat := List.length (filter (fun x => x =? 0) d).

(** The digit sequences the renderer works with: a single [0], or digits
    without a zero at the high end. *)
Definition canonical (d : list Z) : Prop := d = [0] \/ normal d.

(** The number a string of binary digits denotes, most significant digit
    first. *)
Definition binary_value (s : list ascii) : Z :=
  fold_left (fun acc c => 2 * acc + (if Ascii.eqb c "1" then 1 else 0)) s 0.

Definition binary_digit (c : ascii) : bool := Ascii.eqb c "0" || Ascii.eqb c "1".

(** The number a string of decimal digits denotes, most significant digit
    first. *)
Definition decimal_value (s : list ascii) : Z :=
  fold_left (fun acc c => 10 * acc + (code c - 48)) s 0.

(** The nibble [charLookup] gives for a hexadecimal digit. *)
Definition nibble (c : ascii) : Z :=
  match charLookup_at c with Ok n => n | Throw _ => 0 end.

Definition is_quote (c : ascii) : bool := Ascii.eqb c "'".

(** The number a string of hexadecimal digits and digit separators
    denotes, most significant digit first, and the number of its
    digits. *)
Definition hex_value (s : list ascii) : Z :=
  fold_left (fun acc c => if is_quote c then acc else 16 * acc + nibble c) s 0.

Definition hex_length (s : list ascii) : Z :=
  Z.of_nat (List.length (filter (fun c => negb (is_quote c)) s)).

(** The same number, read from the least significant digit, as the loop
    of [parse] does. *)
Definition hex_low_first (s : list ascii) : Z :=
  fold_right (fun c acc => if is_quote c then acc else 16 * acc + nibble c) 0 s.

(** What the hexadecimal loop has read so far. *)
Definition hex_count (st : hex_state) : Z :=
  2 * hs_byteIndex st + Z.b2z (hs_odd st).

Definition hex_acc (st : hex_state) : Z :=
  val (hs_value st)
  + (if hs_odd st then hs_byte st * 2 ^ (8 * hs_byteIndex st) else 0).

Definition hex_inv (nbits : Z) (st : hex_state) : Prop :=
  wf nbits (hs_value st) /\ 0 <= hs_byteIndex st /\
  (forall j, hs_byteIndex st <= j -> get (hs_value st) j = 0) /\
  (hs_odd st = true -> 0 <= hs_byte st < 16).

(** The state of the long division by zero before the round with counter
    [k - 1]: the accumulator still holds the dividend [A], the
    subtractand is zero, and the quotient bits [k .. top] are set. *)
Definition zero_div_inv (nbits A top k : Z) (st : bytes * bytes * bytes) : Prop :=
  let '(acc, sub, q) := st in
  rep (nbits + 1) acc A /\ rep (nbits + 1) sub 0 /\
  rep nbits q (2 ^ (top + 1) - 2 ^ k).

(* ================================================================== *)
(** * Verification *)

Lemma val_cons x t : val (x :: t) = x + 256 * val t.
Proof. reflexivity. Qed.

Lemma dval_cons x t : dval (x :: t) = x + 10 * dval t.
Proof. reflexivity. Qed.

(* ------------------------------------------------------------------ *)
(** ** Loops *)

Lemma range_nil lo hi : hi <= lo -> range lo hi = [].
Proof.
  intros H. unfold range. replace (Z.to_nat (hi - lo)) with O by lia. reflexivity.
Qed.

Lemma range_cons lo hi : lo < hi -> range lo hi = lo :: range (lo + 1) hi.
Proof.
  intros H. unfold range.
  replace (Z.to_nat (hi - lo)) with (S (Z.to_nat (hi - (lo + 1)))) by lia.
  simpl. f_equal; [lia|].
  rewrite <- seq_shift, map_map. apply map_ext. intros; lia.
Qed.

Lemma range_snoc lo hi : lo < hi -> range lo hi = range lo (hi - 1) ++ [hi - 1].
Proof.
  intros H. unfold range.
  replace (Z.to_nat (hi - lo)) with (Z.to_nat (hi - 1 - lo) + 1)%nat by lia.
  rewrite seq_app, map_app. simpl. do 2 f_equal. lia.
Qed.

Lemma down_range_nil hi lo : hi < lo -> down_range hi lo = [].
Proof. intros. unfold down_range. rewrite range_nil by lia. reflexivity. Qed.

Lemma down_range_cons hi lo :
  lo <= hi -> down_range hi lo = hi :: down_range (hi - 1) lo.
Proof.
  intros. unfold down_range. rewrite range_snoc by lia.
  rewrite rev_app_distr. simpl. do 3 f_equal; lia.
Qed.

Lemma In_range lo hi i : In i (range lo hi) <-> lo <= i < hi.
Proof.
  unfold range. rewrite in_map_iff. split.
  - intros [k [<- Hk]]. apply in_seq in Hk. lia.
  - intros H. exists (Z.to_nat (i - lo)). split; [lia|]. apply in_seq. lia.
Qed.

(** Invariant rule for an ascending loop. *)
Lemma for_each_range {S : Type} (P : Z -> S -> Prop) body lo hi (s : S) :
  lo <= hi ->
  P lo s ->
  (forall i st, lo <= i < hi -> P i st ->
     exists st', body st i = Ok st' /\ P (i + 1) st') ->
  exists s', for_each (range lo hi) body s = Ok s' /\ P hi s'.
Proof.
  intros Hle. remember (Z.to_nat (hi - lo)) as n eqn:Hn.
  revert lo s Hle Hn. induction n as [|n IH]; intros lo s Hle Hn H0 Hstep.
  - assert (lo = hi) by lia. subst. rewrite range_nil by lia. simpl. eauto.
  - rewrite range_cons by lia. simpl.
    destruct (Hstep lo s) as [st' [-> Hst']]; [lia|assumption|]. simpl.
    apply IH; [lia|lia|assumption|]. intros i st Hi. apply Hstep. lia.
Qed.

(** Invariant rule for a descending loop: [P i] holds before the round
    with counter [i - 1]. *)
Lemma for_each_down_range {S : Type} (P : Z -> S -> Prop) body hi lo (s : S) :
  lo <= hi + 1 ->
  P (hi + 1) s ->
  (forall i st, lo <= i <= hi -> P (i + 1) st ->
     exists st', body st i = Ok st' /\ P i st') ->
  exists s', for_each (down_range hi lo) body s = Ok s' /\ P lo s'.
Proof.
  intros Hle. remember (Z.to_nat (hi + 1 - lo)) as n eqn:Hn.
  revert hi s Hle Hn. induction n as [|n IH]; intros hi s Hle Hn H0 Hstep.
  - assert (lo = hi + 1) by lia. subst. rewrite down_range_nil by lia. simpl. eauto.
  - rewrite down_range_cons by lia. simpl.
    destruct (Hstep hi s) as [st' [-> Hst']]; [lia|assumption|]. simpl.
    apply IH; [lia|lia| |].
    + replace (hi - 1 + 1) with hi by lia. assumption.
    + intros i st Hi. apply Hstep. lia.
Qed.

(* ------------------------------------------------------------------ *)
(** ** Byte arrays *)

Lemma nrBytes_bounds nbits :
  0 < nbits -> 8 * (nrBytes nbits - 1) < nbits <= 8 * nrBytes nbits.
Proof. unfold nrBytes. intros. Z.div_mod_to_equations. lia. Qed.

Lemma get_nil i : get [] i = 0.
Proof. unfold get. destruct (Z.to_nat i); reflexivity. Qed.

Lemma get_cons_0 x t : get (x :: t) 0 = x.
Proof. reflexivity. Qed.

Lemma get_cons_pos x t i : 0 < i -> get (x :: t) i = get t (i - 1).
Proof.
  intros. unfold get. replace (Z.to_nat i) with (S (Z.to_nat (i - 1))) by lia.
  reflexivity.
Qed.

Lemma get_overflow b i : Z.of_nat (List.length b) <= i -> get b i = 0.
Proof. intros. unfold get. apply nth_overflow. lia. Qed.

Lemma get_range b i : byte_range b -> 0 <= get b i < 256.
Proof.
  intros H. unfold get.
  destruct (Nat.lt_ge_cases (Z.to_nat i) (List.length b)) as [Hlt|Hge].
  - unfold byte_range in H. rewrite Forall_forall in H. apply H. now apply nth_In.
  - rewrite nth_overflow by assumption. lia.
Qed.

Lemma put_nat_length b i v : List.length (put_nat b i v) = List.length b.
Proof.
  revert i. induction b as [|x t IH]; intros [|i]; simpl; auto.
Qed.

Lemma put_length b i v : List.length (put b i v) = List.length b.
Proof. apply put_nat_length. Qed.

Lemma nth_put_nat b i j v :
  (i < List.length b)%nat ->
  nth j (put_nat b i v) 0 = if Nat.eqb j i then v else nth j b 0.
Proof.
  revert i j. induction b as [|x t IH]; intros i j Hi; simpl in Hi; [lia|].
  destruct i, j; simpl; auto. apply IH. lia.
Qed.

Lemma get_put b i j v :
  0 <= i < Z.of_nat (List.length b) -> 0 <= j ->
  get (put b i v) j = if j =? i then v else get b j.
Proof.
  intros Hi Hj. unfold get, put. rewrite nth_put_nat by lia.
  destruct (Nat.eqb_spec (Z.to_nat j) (Z.to_nat i)), (Z.eqb_spec j i);
    try reflexivity; lia.
Qed.

Lemma put_nat_range b i v :
  byte_range b -> 0 <= v < 256 -> byte_range (put_nat b i v).
Proof.
  unfold byte_range. intros Hb Hv. revert i.
  induction Hb as [|x t Hx Ht IH]; intros [|i]; simpl; constructor; auto.
Qed.

Lemma put_range b i v : byte_range b -> 0 <= v < 256 -> byte_range (put b i v).
Proof. apply put_nat_range. Qed.

Lemma wf_put nbits b i v : wf nbits b -> 0 <= v < 256 -> wf nbits (put b i v).
Proof.
  intros [Hl Hr] Hv. split; [now rewrite put_length | now apply put_range].
Qed.

Lemma val_bounds b :
  byte_range b -> 0 <= val b < 2 ^ (8 * Z.of_nat (List.length b)).
Proof.
  induction 1 as [|x t Hx Ht IH]; [simpl; lia|]. cbv beta in Hx.
  rewrite val_cons.
  replace (8 * Z.of_nat (List.length (x :: t)))
    with (8 + 8 * Z.of_nat (List.length t)) by (simpl List.length; lia).
  rewrite Z.pow_add_r by lia. change (2 ^ 8) with 256.
  set (p := 2 ^ (8 * Z.of_nat (List.length t))) in *. lia.
Qed.

Lemma val_inj a b :
  byte_range a -> byte_range b -> List.length a = List.length b ->
  val a = val b -> a = b.
Proof.
  intros Ha. revert b. induction Ha as [|x t Hx Ht IH]; intros b Hb Hl Hv.
  - destruct b; [reflexivity|discriminate].
  - destruct b as [|y u]; [discriminate|]. inversion Hb; subst. cbv beta in *.
    rewrite !val_cons in Hv. simpl List.length in Hl.
    assert (x = y /\ val t = val u) as [-> Hv'] by lia.
    f_equal. apply IH; auto.
Qed.

Lemma storage_bit_nil i : storage_bit [] i = false.
Proof. unfold storage_bit. rewrite get_nil. apply Z.testbit_0_l. Qed.

(** The bits of [val b] are the storage bits. *)
Lemma val_testbit b i :
  byte_range b -> 0 <= i -> Z.testbit (val b) i = storage_bit b i.
Proof.
  intros Hb. revert i. induction Hb as [|x t Hx Ht IH]; intros i Hi.
  - rewrite storage_bit_nil. apply Z.testbit_0_l.
  - cbv beta in Hx. rewrite val_cons. unfold storage_bit.
    destruct (Z.lt_ge_cases i 8) as [Hlt|Hge].
    + replace (i / 8) with 0 by (Z.div_mod_to_equations; lia).
      replace (i mod 8) with i by (Z.div_mod_to_equations; lia).
      rewrite get_cons_0.
      rewrite <- (Z.mod_pow2_bits_low (x + 256 * val t) 8 i) by lia.
      f_equal. change (2 ^ 8) with 256.
      replace (x + 256 * val t) with (x + val t * 256) by lia.
      rewrite Z.mod_add by lia. apply Z.mod_small; lia.
    + rewrite get_cons_pos by (Z.div_mod_to_equations; lia).
      replace i with (i - 8 + 8) at 1 by lia.
      rewrite <- Z.div_pow2_bits by lia. change (2 ^ 8) with 256.
      replace ((x + 256 * val t) / 256) with (val t).
      2:{ replace (x + 256 * val t) with (x + val t * 256) by lia.
          rewrite Z.div_add by lia. rewrite (Z.div_small x) by lia. lia. }
      rewrite IH by lia. unfold storage_bit. f_equal.
      * f_equal. Z.div_mod_to_equations; lia.
      * Z.div_mod_to_equations; lia.
Qed.

Lemma storage_bit_put b k x j :
  0 <= k < Z.of_nat (List.length b) -> 0 <= j ->
  storage_bit (put b k x) j =
  if j / 8 =? k then Z.testbit x (j mod 8) else storage_bit b j.
Proof.
  intros Hk Hj. unfold storage_bit.
  rewrite get_put by (try assumption; Z.div_mod_to_equations; lia).
  destruct (j / 8 =? k); reflexivity.
Qed.

Lemma storage_bit_overflow b j :
  8 * Z.of_nat (List.length b) <= j -> storage_bit b j = false.
Proof.
  intros. unfold storage_bit. rewrite get_overflow.
  - apply Z.testbit_0_l.
  - Z.div_mod_to_equations; lia.
Qed.

Lemma lt_pow2_bits v n :
  0 <= v -> 0 <= n ->
  (v < 2 ^ n <-> forall j, n <= j -> Z.testbit v j = false).
Proof.
  intros Hv Hn. split.
  - intros Hlt j Hj. rewrite <- (Z.mod_small v (2 ^ n)) by lia.
    apply Z.mod_pow2_bits_high. lia.
  - intros H. assert (v = v mod 2 ^ n) as ->.
    { apply Z.bits_inj'. intros j Hj. rewrite Z.testbit_mod_pow2 by lia.
      destruct (Z.ltb_spec j n); simpl; auto. }
    apply Z.mod_pos_bound. lia.
Qed.

(** A well-formed storage whose bits are those of [v] represents [v]. *)
Lemma rep_of_bits nbits b v :
  wf nbits b -> 0 <= v < 2 ^ nbits ->
  (forall j, 0 <= j -> storage_bit b j = Z.testbit v j) ->
  rep nbits b v.
Proof.
  intros Hwf Hv Hbits. split; [assumption|]. split; [|assumption].
  apply Z.bits_inj'. intros j Hj. rewrite val_testbit by (apply Hwf || lia).
  now apply Hbits.
Qed.

Lemma rep_bit nbits b v j :
  rep nbits b v -> 0 <= j -> storage_bit b j = Z.testbit v j.
Proof.
  intros [[_ Hr] [<- _]] Hj. symmetry. now apply val_testbit.
Qed.

Lemma rep_inj nbits a b v : rep nbits a v -> rep nbits b v -> a = b.
Proof.
  intros [[La Ra] [Va _]] [[Lb Rb] [Vb _]]. apply val_inj; auto; lia.
Qed.

Lemma rep_masked nbits b v : 0 < nbits -> rep nbits b v -> masked nbits b.
Proof.
  intros Hn H i Hi. rewrite (rep_bit _ _ _ _ H) by lia.
  destruct H as [_ [_ Hv]]. apply (lt_pow2_bits v nbits); lia.
Qed.

Lemma masked_rep nbits b :
  0 < nbits -> wf nbits b -> masked nbits b -> rep nbits b (val b).
Proof.
  intros Hn Hwf Hm. split; [assumption|]. split; [reflexivity|].
  pose proof (val_bounds b (proj2 Hwf)) as Hb. split; [lia|].
  apply lt_pow2_bits; try lia. intros j Hj.
  rewrite val_testbit by (apply Hwf || lia). now apply Hm.
Qed.

Lemma valid_wf nbits b : valid nbits b = true -> wf nbits b.
Proof.
  unfold valid. intros H. apply andb_prop in H. destruct H as [H _].
  apply andb_prop in H. destruct H as [Hl Hb]. split; [now apply Z.eqb_eq|].
  unfold byte_range. apply Forall_forall. intros x Hx.
  rewrite forallb_forall in Hb. specialize (Hb x Hx). lia.
Qed.

Lemma valid_masked nbits b : valid nbits b = true -> masked nbits b.
Proof.
  intros H. pose proof (valid_wf nbits b H) as [Hl _].
  unfold valid in H. apply andb_prop in H. destruct H as [_ Hm].
  rewrite forallb_forall in Hm. intros i Hi.
  destruct (Z.lt_ge_cases i (8 * nrBytes nbits)).
  - specialize (Hm i ltac:(apply In_range; lia)). now destruct (storage_bit b i).
  - apply storage_bit_overflow. lia.
Qed.

Lemma valid_rep nbits b : 0 < nbits -> valid nbits b = true -> rep nbits b (val b).
Proof.
  intros Hn H. apply masked_rep; [assumption|now apply valid_wf|now apply valid_masked].
Qed.

Lemma rep_valid nbits b v : 0 < nbits -> rep nbits b v -> valid nbits b = true.
Proof.
  intros Hn Hr. pose proof (rep_masked nbits b v Hn Hr) as Hm.
  destruct Hr as [[Hl Hb] _]. unfold valid.
  apply andb_true_intro. split; [apply andb_true_intro; split|].
  - now apply Z.eqb_eq.
  - apply forallb_forall. intros x Hx. unfold byte_range in Hb.
    rewrite Forall_forall in Hb. specialize (Hb x Hx). cbv beta in Hb. lia.
  - apply forallb_forall. intros i Hi. apply In_range in Hi.
    now rewrite Hm by lia.
Qed.

(* ------------------------------------------------------------------ *)
(** ** Bit-level facts about bytes *)

Lemma u8_range z : 0 <= u8 z < 256.
Proof. unfold u8. apply Z.mod_pos_bound. lia. Qed.

Lemma u8_small z : 0 <= z < 256 -> u8 z = z.
Proof. intros. unfold u8. now apply Z.mod_small. Qed.

Lemma u8_testbit z m : Z.testbit (u8 z) m = (m <? 8) && Z.testbit z m.
Proof. unfold u8. change 256 with (2 ^ 8). apply Z.testbit_mod_pow2. lia. Qed.

Lemma testbit_1 m : Z.testbit 1 m = (m =? 0).
Proof.
  change 1 with (2 ^ 0). rewrite Z.pow2_bits_eqb by lia.
  rewrite Z.eqb_sym. reflexivity.
Qed.

Lemma byte_of_bits x :
  0 <= x -> (forall j, 8 <= j -> Z.testbit x j = false) -> 0 <= x < 256.
Proof.
  intros Hx H. split; [assumption|]. change 256 with (2 ^ 8).
  apply (proj2 (lt_pow2_bits x 8 Hx ltac:(lia))). assumption.
Qed.

Lemma byte_bits_high x j : 0 <= x < 256 -> 8 <= j -> Z.testbit x j = false.
Proof.
  intros Hx Hj.
  apply (proj1 (lt_pow2_bits x 8 ltac:(lia) ltac:(lia))); [|assumption].
  change (2 ^ 8) with 256. lia.
Qed.

Lemma mod8_range j : 0 <= j mod 8 < 8.
Proof. apply Z.mod_pos_bound. lia. Qed.

Lemma storage_bit_byte b j :
  byte_range b -> forall m, 8 <= m -> Z.testbit (get b j) m = false.
Proof. intros Hb m Hm. apply byte_bits_high; auto. now apply get_range. Qed.

(** [(byte & mask)] read as a [bool], for [mask = 1 << k]. *)
Lemma land_mask_test x k :
  0 <= k < 8 -> negb (Z.land x (u8 (Z.shiftl 1 k)) =? 0) = Z.testbit x k.
Proof.
  intros Hk.
  assert (Hm : Z.land x (u8 (Z.shiftl 1 k)) = if Z.testbit x k then 2 ^ k else 0).
  { apply Z.bits_inj'. intros m Hm.
    rewrite Z.land_spec, u8_testbit, Z.shiftl_spec, testbit_1 by lia.
    destruct (Z.eqb_spec (m - k) 0) as [E|E].
    - assert (m = k) by lia. subst m.
      destruct (Z.testbit x k); simpl.
      + rewrite Z.pow2_bits_true by lia. cases_cmp.
      + now rewrite Z.testbit_0_l.
    - rewrite andb_false_r, andb_false_r.
      destruct (Z.testbit x k); [|now rewrite Z.testbit_0_l].
      rewrite Z.pow2_bits_false by lia. reflexivity. }
  rewrite Hm. destruct (Z.testbit x k); [|reflexivity].
  assert (0 < 2 ^ k) by (apply Z.pow_pos_nonneg; lia).
  destruct (Z.eqb_spec (2 ^ k) 0); [lia|reflexivity].
Qed.

(* ------------------------------------------------------------------ *)
(** ** Bit accessors and mutators *)

Lemma in_bounds i n : 0 <= i < n -> (0 <=? i) && (i <? n) = true.
Proof. intros. apply andb_true_intro. split; [apply Z.leb_le|apply Z.ltb_lt]; lia. Qed.

Lemma clear_length nbits : 0 < nbits -> Z.of_nat (List.length (clear nbits)) = nrBytes nbits.
Proof.
  intros. unfold clear. rewrite repeat_length.
  pose proof (nrBytes_bounds nbits H). lia.
Qed.

Lemma val_repeat_0 n : val (repeat 0 n) = 0.
Proof. induction n; simpl repeat; [reflexivity|]. rewrite val_cons, IHn. lia. Qed.

Lemma wf_clear nbits : 0 < nbits -> wf nbits (clear nbits).
Proof.
  intros. split; [now apply clear_length|].
  unfold clear, byte_range. apply Forall_forall. intros x Hx.
  apply repeat_spec in Hx. subst. lia.
Qed.

Lemma rep_clear nbits : 0 < nbits -> rep nbits (clear nbits) 0.
Proof.
  intros. split; [now apply wf_clear|]. split; [apply val_repeat_0|].
  split; [lia|]. apply Z.pow_pos_nonneg; lia.
Qed.

Lemma at_storage nbits b i :
  0 <= i < nbits -> at_ nbits b i = Ok (storage_bit b i).
Proof.
  intros Hi. unfold at_. rewrite in_bounds by assumption.
  rewrite land_mask_test by apply mod8_range. reflexivity.
Qed.

Lemma at_rep nbits b v i :
  rep nbits b v -> 0 <= i < nbits -> at_ nbits b i = Ok (Z.testbit v i).
Proof.
  intros Hr Hi. rewrite at_storage by assumption.
  now rewrite (rep_bit _ _ _ _ Hr) by lia.
Qed.

Lemma at_throws nbits b i : nbits <= i -> at_ nbits b i = Throw bit_index_out_of_bounds.
Proof.
  intros. unfold at_. destruct (Z.ltb_spec i nbits); [lia|].
  now rewrite andb_false_r.
Qed.

(** Replacing byte [k] by [x] yields a representation of [v'] as soon as the
    bits agree. *)
Lemma put_rep nbits b k x v' :
  0 < nbits -> wf nbits b -> 0 <= k < nrBytes nbits ->
  0 <= x < 256 -> 0 <= v' < 2 ^ nbits ->
  (forall j, 0 <= j ->
     (if j / 8 =? k then Z.testbit x (j mod 8) else storage_bit b j)
     = Z.testbit v' j) ->
  rep nbits (put b k x) v'.
Proof.
  intros Hn Hwf Hk Hx Hv' Hbits.
  apply rep_of_bits; [now apply wf_put|assumption|].
  intros j Hj. rewrite storage_bit_put by (destruct Hwf; lia). now apply Hbits.
Qed.

Lemma byte_index_bound nbits i :
  0 < nbits -> 0 <= i < nbits -> 0 <= i / 8 < nrBytes nbits.
Proof. intros Hn Hi. unfold nrBytes. Z.div_mod_to_equations. lia. Qed.

Lemma setbit_bounds v i n :
  0 <= v < 2 ^ n -> 0 <= i < n -> 0 <= Z.setbit v i < 2 ^ n.
Proof.
  intros Hv Hi. assert (H0 : 0 <= Z.setbit v i).
  { rewrite Z.setbit_spec'. apply Z.lor_nonneg. split; [lia|].
    apply Z.pow_nonneg; lia. }
  split; [assumption|]. apply lt_pow2_bits; try lia. intros j Hj.
  rewrite Z.setbit_eqb by lia.
  rewrite (proj1 (lt_pow2_bits v n ltac:(lia) ltac:(lia))) by lia.
  cases_cmp.
Qed.

Lemma clearbit_bounds v i n :
  0 <= v < 2 ^ n -> 0 <= i < n -> 0 <= Z.clearbit v i < 2 ^ n.
Proof.
  intros Hv Hi. assert (H0 : 0 <= Z.clearbit v i).
  { rewrite Z.clearbit_spec'. apply Z.ldiff_nonneg. left; lia. }
  split; [assumption|]. apply lt_pow2_bits; try lia. intros j Hj.
  rewrite Z.clearbit_eqb.
  rewrite (proj1 (lt_pow2_bits v n ltac:(lia) ltac:(lia))) by lia.
  reflexivity.
Qed.

(** The new byte written by [set(i, v)], bit by bit. *)
Lemma set_to_byte_bits x k (v : bool) m :
  0 <= k < 8 -> 0 <= m ->
  Z.testbit
    (Z.lor (Z.land x (u8 (Z.lnot (Z.shiftl 1 k))))
           (u8 (Z.shiftl (if v then 1 else 0) k))) m
  = if m =? k then (m <? 8) && v else Z.testbit x m && (m <? 8).
Proof.
  intros Hk Hm.
  rewrite Z.lor_spec, Z.land_spec, !u8_testbit, Z.lnot_spec, !Z.shiftl_spec by lia.
  rewrite testbit_1.
  destruct v; [rewrite testbit_1|rewrite Z.testbit_0_l];
    destruct (Z.testbit x m); cases_cmp.
Qed.

Lemma set_byte_bits x k m :
  0 <= k < 8 -> 0 <= m ->
  Z.testbit (Z.lor x (u8 (Z.shiftl 1 k))) m
  = if m =? k then true else Z.testbit x m.
Proof.
  intros Hk Hm. rewrite Z.lor_spec, u8_testbit, Z.shiftl_spec, testbit_1 by lia.
  destruct (Z.testbit x m); cases_cmp.
Qed.

Lemma reset_byte_bits x k m :
  0 <= k < 8 -> 0 <= m -> 0 <= x < 256 ->
  Z.testbit (Z.land x (u8 (Z.lnot (Z.shiftl 1 k)))) m
  = if m =? k then false else Z.testbit x m.
Proof.
  intros Hk Hm Hx.
  rewrite Z.land_spec, u8_testbit, Z.lnot_spec, Z.shiftl_spec, testbit_1 by lia.
  destruct (Z.ltb_spec m 8).
  - destruct (Z.testbit x m); cases_cmp.
  - rewrite byte_bits_high by lia. cases_cmp.
Qed.

Lemma set_rep nbits b v i :
  0 < nbits -> rep nbits b v -> 0 <= i < nbits ->
  exists b', set nbits b i = Ok b' /\ rep nbits b' (Z.setbit v i).
Proof.
  intros Hn Hr Hi. unfold set. rewrite in_bounds by assumption.
  eexists. split; [reflexivity|].
  pose proof (mod8_range i) as Hk.
  assert (Hwf : wf nbits b) by apply Hr.
  pose proof (get_range b (i / 8) (proj2 Hwf)) as Hg.
  apply put_rep; auto.
  - now apply byte_index_bound.
  - apply byte_of_bits.
    + apply Z.lor_nonneg. split; [lia|]. apply u8_range.
    + intros j Hj. rewrite set_byte_bits by lia.
      rewrite byte_bits_high by lia. cases_cmp.
  - apply setbit_bounds; [apply Hr|assumption].
  - intros j Hj. rewrite Z.setbit_eqb by lia.
    rewrite <- (rep_bit _ _ _ _ Hr) by lia.
    destruct (Z.eqb_spec (j / 8) (i / 8)) as [E|E].
    + rewrite set_byte_bits by (try apply mod8_range; lia).
      unfold storage_bit. rewrite E.
      destruct (Z.testbit (get b (i / 8)) (j mod 8)); cases_cmp.
    + destruct (storage_bit b j); cases_cmp; subst; contradiction.
Qed.

Lemma reset_rep nbits b v i :
  0 < nbits -> rep nbits b v -> 0 <= i < nbits ->
  exists b', reset nbits b i = Ok b' /\ rep nbits b' (Z.clearbit v i).
Proof.
  intros Hn Hr Hi. unfold reset. rewrite in_bounds by assumption.
  eexists. split; [reflexivity|].
  pose proof (mod8_range i) as Hk.
  assert (Hwf : wf nbits b) by apply Hr.
  pose proof (get_range b (i / 8) (proj2 Hwf)) as Hg.
  apply put_rep; auto.
  - now apply byte_index_bound.
  - apply byte_of_bits.
    + apply Z.land_nonneg. left; lia.
    + intros j Hj. rewrite reset_byte_bits by lia.
      rewrite byte_bits_high by lia. cases_cmp.
  - apply clearbit_bounds; [apply Hr|assumption].
  - intros j Hj. rewrite Z.clearbit_eqb.
    rewrite <- (rep_bit _ _ _ _ Hr) by lia.
    destruct (Z.eqb_spec (j / 8) (i / 8)) as [E|E].
    + rewrite reset_byte_bits by (try apply mod8_range; lia).
      unfold storage_bit. rewrite E.
      destruct (Z.testbit (get b (i / 8)) (j mod 8)); cases_cmp.
    + destruct (storage_bit b j); cases_cmp; subst; contradiction.
Qed.

Lemma set_to_rep nbits b v i (x : bool) :
  0 < nbits -> rep nbits b v -> 0 <= i < nbits ->
  exists b', set_to nbits b i x = Ok b' /\
             rep nbits b' (if x then Z.setbit v i else Z.clearbit v i).
Proof.
  intros Hn Hr Hi. unfold set_to. rewrite in_bounds by assumption.
  eexists. split; [reflexivity|].
  pose proof (mod8_range i) as Hk.
  assert (Hwf : wf nbits b) by apply Hr.
  pose proof (get_range b (i / 8) (proj2 Hwf)) as Hg.
  apply put_rep; auto.
  - now apply byte_index_bound.
  - apply byte_of_bits.
    + apply Z.lor_nonneg. split; [|apply u8_range].
      apply Z.land_nonneg. left; lia.
    + intros j Hj. rewrite set_to_byte_bits by lia.
      rewrite byte_bits_high by lia. cases_cmp.
  - destruct x; [apply setbit_bounds|apply clearbit_bounds];
      (apply Hr || assumption).
  - intros j Hj.
    assert (Hjk := mod8_range j).
    assert (Hgoal : Z.testbit (if x then Z.setbit v i else Z.clearbit v i) j
                    = if j =? i then x else Z.testbit v j).
    { destruct x; [rewrite Z.setbit_eqb by lia|rewrite Z.clearbit_eqb];
        destruct (Z.testbit v j); cases_cmp. }
    rewrite Hgoal. rewrite <- (rep_bit _ _ _ _ Hr) by lia.
    destruct (Z.eqb_spec (j / 8) (i / 8)) as [E|E].
    + rewrite set_to_byte_bits by lia.
      unfold storage_bit. rewrite E.
      destruct (Z.testbit (get b (i / 8)) (j mod 8)), x; cases_cmp.
    + destruct (storage_bit b j); cases_cmp; subst; contradiction.
Qed.

(* ------------------------------------------------------------------ *)
(** ** Masking the most significant byte *)

Lemma mod_mod_pow2 z n m : 0 <= n <= m -> (z mod 2 ^ m) mod 2 ^ n = z mod 2 ^ n.
Proof.
  intros H. apply Z.bits_inj'. intros j Hj.
  rewrite !Z.testbit_mod_pow2 by lia. destruct (Z.testbit z j); cases_cmp.
Qed.

Lemma MS_BYTE_MASK_bits nbits m :
  0 < nbits -> 0 <= m ->
  Z.testbit (MS_BYTE_MASK nbits) m = (m + 8 * MS_BYTE nbits <? nbits).
Proof.
  intros Hn Hm. unfold MS_BYTE_MASK, MS_BYTE.
  pose proof (nrBytes_bounds nbits Hn).
  rewrite u8_testbit, Z.shiftr_spec by lia. change 255 with (Z.ones 8).
  rewrite Z.testbit_ones_nonneg by lia. cases_cmp.
Qed.

(** [b[MS_BYTE] = MS_BYTE_MASK & b[MS_BYTE]] reduces the value modulo
    [2 ^ nbits] and establishes invariant I1. *)
Lemma mask_ms_byte_rep nbits b :
  0 < nbits -> wf nbits b ->
  rep nbits (mask_ms_byte nbits b) (val b mod 2 ^ nbits).
Proof.
  intros Hn Hwf. unfold mask_ms_byte.
  pose proof (nrBytes_bounds nbits Hn) as Hnb.
  pose proof (get_range b (MS_BYTE nbits) (proj2 Hwf)) as Hg.
  assert (Hland : 0 <= Z.land (MS_BYTE_MASK nbits) (get b (MS_BYTE nbits))).
  { apply Z.land_nonneg. right; lia. }
  apply put_rep; auto.
  - unfold MS_BYTE. lia.
  - apply byte_of_bits; [assumption|]. intros j Hj.
    rewrite Z.land_spec, (byte_bits_high (get b _)) by lia. apply andb_false_r.
  - apply Z.mod_pos_bound. apply Z.pow_pos_nonneg; lia.
  - intros j Hj. rewrite Z.testbit_mod_pow2 by lia.
    rewrite val_testbit by (apply Hwf || lia).
    pose proof (mod8_range j) as Hjk.
    destruct (Z.eqb_spec (j / 8) (MS_BYTE nbits)) as [E|E].
    + rewrite Z.land_spec, MS_BYTE_MASK_bits by lia.
      unfold storage_bit. rewrite E. f_equal.
      rewrite <- E. cases_cmp.
    + unfold MS_BYTE in E. destruct (Z.ltb_spec j nbits); simpl; [reflexivity|].
      apply storage_bit_overflow. destruct Hwf as [Hl _]. rewrite Hl.
      Z.div_mod_to_equations. lia.
Qed.

Lemma mask_ms_byte_id nbits b v :
  0 < nbits -> rep nbits b v -> mask_ms_byte nbits b = b.
Proof.
  intros Hn Hr. apply (rep_inj nbits _ _ v); [|assumption].
  pose proof (mask_ms_byte_rep nbits b Hn (proj1 Hr)) as H.
  destruct Hr as [_ [Hv Hb]]. rewrite Hv in H.
  now rewrite Z.mod_small in H by lia.
Qed.

(* ------------------------------------------------------------------ *)
(** ** One's complement *)

Lemma get_map f b i :
  0 <= i -> get (map f b) i = if i <? Z.of_nat (List.length b) then f (get b i) else 0.
Proof.
  intros Hi. unfold get. destruct (Z.ltb_spec i (Z.of_nat (List.length b))).
  - rewrite (nth_indep _ 0 (f 0)) by (rewrite length_map; lia).
    apply map_nth.
  - apply nth_overflow. rewrite length_map. lia.
Qed.

(** [flip] on any storage, masked or not. *)
Lemma flip_wf nbits b :
  0 < nbits -> wf nbits b ->
  rep nbits (flip nbits b) (Z.lnot (val b) mod 2 ^ nbits).
Proof.
  intros Hn [Hl Hb]. unfold flip.
  assert (Hwf : wf nbits (map (fun x => u8 (Z.lnot x)) b)).
  { split; [now rewrite length_map|].
    unfold byte_range. apply Forall_forall. intros x Hx.
    apply in_map_iff in Hx. destruct Hx as [y [<- _]]. apply u8_range. }
  pose proof (mask_ms_byte_rep nbits _ Hn Hwf) as H.
  replace (Z.lnot (val b) mod 2 ^ nbits)
    with (val (map (fun x => u8 (Z.lnot x)) b) mod 2 ^ nbits); [assumption|].
  pose proof (nrBytes_bounds nbits Hn) as Hnb.
  apply Z.bits_inj'. intros j Hj. rewrite !Z.testbit_mod_pow2 by lia.
  destruct (Z.ltb_spec j nbits); simpl; [|reflexivity].
  rewrite val_testbit by (apply Hwf || lia). unfold storage_bit.
  rewrite get_map by (Z.div_mod_to_equations; lia).
  destruct (Z.ltb_spec (j / 8) (Z.of_nat (List.length b)));
    [|Z.div_mod_to_equations; lia].
  pose proof (mod8_range j).
  rewrite u8_testbit, !Z.lnot_spec by lia.
  rewrite val_testbit by (assumption || lia). unfold storage_bit.
  cases_cmp.
Qed.

Lemma flip_rep nbits b v :
  0 < nbits -> rep nbits b v -> rep nbits (flip nbits b) (2 ^ nbits - 1 - v).
Proof.
  intros Hn [Hwf [Hv Hb]]. pose proof (flip_wf nbits b Hn Hwf) as H.
  rewrite Hv in H. replace (2 ^ nbits - 1 - v) with (Z.lnot v mod 2 ^ nbits);
    [assumption|].
  rewrite Z.lnot_eq_pred_opp. symmetry.
  apply (Z.mod_unique _ _ (-1)); [left; lia|lia].
Qed.

(* ------------------------------------------------------------------ *)
(** ** Addition *)

Lemma mod_mul_256 d z p :
  0 <= d < 256 -> 0 < p -> (d + 256 * z) mod (256 * p) = d + 256 * (z mod p).
Proof.
  intros Hd Hp. symmetry. apply (Z.mod_unique _ _ (z / p)).
  - left. pose proof (Z.mod_pos_bound z p Hp). lia.
  - pose proof (Z.div_mod z p ltac:(lia)). lia.
Qed.

Lemma add_bytes_spec l r c :
  byte_range l -> byte_range r -> List.length l = List.length r ->
  byte_range (add_bytes l r c) /\
  List.length (add_bytes l r c) = List.length l /\
  val (add_bytes l r c)
  = (val l + val r + Z.b2z c) mod 2 ^ (8 * Z.of_nat (List.length l)).
Proof.
  intros Hl. revert r c. induction Hl as [|x t Hx Ht IH]; intros r c Hr Hlen.
  - destruct r; [|discriminate]. simpl add_bytes.
    split; [constructor|]. split; [reflexivity|].
    simpl. now rewrite Z.mod_1_r.
  - destruct r as [|y u]; [discriminate|]. inversion Hr as [|? ? Hy Hu]; subst.
    cbv beta in Hx, Hy. injection Hlen as Hlen.
    simpl add_bytes.
    destruct (IH u (255 <? x + y + (if c then 1 else 0)) Hu Hlen) as [Hb [Hlen' Hv]].
    set (s := x + y + (if c then 1 else 0)) in *.
    assert (Hdig : u8 (Z.land s 255) = s mod 256).
    { change 255 with (Z.ones 8). rewrite Z.land_ones by lia.
      change (2 ^ 8) with 256. apply u8_small. apply Z.mod_pos_bound. lia. }
    assert (Hs : s = s mod 256 + 256 * Z.b2z (255 <? s)).
    { assert (0 <= s < 512) by (subst s; destruct c; lia).
      destruct (Z.ltb_spec 255 s); simpl Z.b2z; Z.div_mod_to_equations; lia. }
    split; [|split].
    + constructor; [rewrite Hdig; apply Z.mod_pos_bound; lia|assumption].
    + simpl. now rewrite Hlen'.
    + rewrite !val_cons, Hv, Hdig.
      replace (8 * Z.of_nat (List.length (x :: t)))
        with (8 + 8 * Z.of_nat (List.length t)) by (simpl List.length; lia).
      rewrite Z.pow_add_r by lia. change (2 ^ 8) with 256.
      rewrite <- mod_mul_256.
      * f_equal. assert (Z.b2z c = if c then 1 else 0) by (destruct c; reflexivity).
        lia.
      * apply Z.mod_pos_bound. lia.
      * apply Z.pow_pos_nonneg; lia.
Qed.

(** [operator+=] on any storage, masked or not. *)
Lemma add_assign_wf nbits a b :
  0 < nbits -> wf nbits a -> wf nbits b ->
  rep nbits (add_assign nbits a b) ((val a + val b) mod 2 ^ nbits).
Proof.
  intros Hn [La Ra] [Lb Rb]. unfold add_assign.
  destruct (add_bytes_spec a b false Ra Rb ltac:(lia)) as [Hr [Hl Hv]].
  pose proof (nrBytes_bounds nbits Hn) as Hnb.
  assert (Hwf : wf nbits (add_bytes a b false)) by (split; [lia|assumption]).
  pose proof (mask_ms_byte_rep nbits _ Hn Hwf) as H.
  rewrite Hv, La, mod_mod_pow2 in H by lia. simpl Z.b2z in H.
  now rewrite Z.add_0_r in H.
Qed.

Lemma add_assign_rep nbits a b x y :
  0 < nbits -> rep nbits a x -> rep nbits b y ->
  rep nbits (add_assign nbits a b) ((x + y) mod 2 ^ nbits).
Proof.
  intros Hn [Ha [Va _]] [Hb [Vb _]]. subst x y. now apply add_assign_wf.
Qed.

(* ------------------------------------------------------------------ *)
(** ** Construction from native integers *)

Lemma setbit_add w i : 0 <= i -> 0 <= w < 2 ^ i -> Z.setbit w i = w + 2 ^ i.
Proof.
  intros Hi Hw. rewrite Z.setbit_spec'.
  assert (Hl : Z.land w (2 ^ i) = 0).
  { apply Z.bits_inj'. intros j Hj.
    rewrite Z.land_spec, Z.pow2_bits_eqb, Z.testbit_0_l by lia.
    destruct (Z.eqb_spec i j); [subst|apply andb_false_r].
    rewrite (proj1 (lt_pow2_bits w j ltac:(lia) ltac:(lia))) by lia. reflexivity. }
  rewrite <- Z.lxor_lor by assumption. symmetry. now apply Z.add_nocarry_lxor.
Qed.

Lemma mod_pow2_split v k :
  0 < k -> v mod 2 ^ k = v mod 2 + 2 * ((v / 2) mod 2 ^ (k - 1)).
Proof.
  intros Hk. replace (2 ^ k) with (2 * 2 ^ (k - 1)).
  - apply Z.rem_mul_r; [lia|]. apply Z.pow_pos_nonneg; lia.
  - rewrite <- Z.pow_succ_r by lia. f_equal. lia.
Qed.

Lemma convert_loop_rep nbits upper :
  0 < nbits -> upper <= nbits ->
  forall n i v r w,
    n = Z.to_nat (upper - i) -> 0 <= i <= upper -> 0 <= v ->
    rep nbits r w -> w < 2 ^ i ->
    exists r', convert_loop nbits (range i upper) v r = Ok r' /\
               rep nbits r' (w + (v mod 2 ^ (upper - i)) * 2 ^ i).
Proof.
  intros Hn Hup. induction n as [|n IH]; intros i v r w Hlen Hi Hv Hr Hw.
  - assert (i = upper) by lia. subst i. rewrite range_nil by lia. simpl.
    exists r. split; [reflexivity|]. rewrite Z.sub_diag, Z.pow_0_r, Z.mod_1_r.
    now rewrite Z.mul_0_l, Z.add_0_r.
  - rewrite range_cons by lia. simpl convert_loop.
    destruct (Z.eqb_spec v 0) as [E|E].
    + subst v. exists r. split; [reflexivity|].
      now rewrite Z.mod_0_l, Z.mul_0_l, Z.add_0_r by (apply Z.pow_nonzero; lia).
    + assert (Hland : Z.land v 1 = v mod 2).
      { change 1 with (Z.ones 1). now rewrite Z.land_ones by lia. }
      rewrite Hland.
      assert (Hw0 : 0 <= w) by apply Hr.
      assert (Hpos : 0 < 2 ^ i) by (apply Z.pow_pos_nonneg; lia).
      assert (Hstep : exists r1,
                 (if negb (v mod 2 =? 0) then set nbits r i else Ok r) = Ok r1
                 /\ rep nbits r1 (w + (v mod 2) * 2 ^ i)).
      { destruct (Z.eqb_spec (v mod 2) 0) as [E2|E2]; simpl negb; cbv iota.
        - exists r. split; [reflexivity|]. rewrite E2. now rewrite Z.mul_0_l, Z.add_0_r.
        - destruct (set_rep nbits r w i Hn Hr ltac:(lia)) as [r1 [-> Hr1]].
          exists r1. split; [reflexivity|].
          rewrite setbit_add in Hr1 by lia.
          replace (v mod 2) with 1 by (Z.div_mod_to_equations; lia).
          now rewrite Z.mul_1_l. }
      destruct Hstep as [r1 [-> Hr1]]. simpl bind.
      rewrite Z.shiftr_div_pow2 by lia. change (2 ^ 1) with 2.
      destruct (IH (i + 1) (v / 2) r1 (w + v mod 2 * 2 ^ i)) as [r' [Hloop Hr']];
        try lia; try assumption.
      * apply Z.div_pos; lia.
      * rewrite Z.pow_add_r by lia. change (2 ^ 1) with 2.
        assert (0 <= v mod 2 < 2) by (apply Z.mod_pos_bound; lia). nia.
      * exists r'. split; [assumption|].
        replace (w + (v mod 2 ^ (upper - i)) * 2 ^ i)
          with (w + v mod 2 * 2 ^ i
                + ((v / 2) mod 2 ^ (upper - (i + 1))) * 2 ^ (i + 1)); [assumption|].
        rewrite (mod_pow2_split v (upper - i)) by lia.
        replace (upper - (i + 1)) with (upper - i - 1) by lia.
        rewrite Z.pow_add_r by lia. change (2 ^ 1) with 2. ring.
Qed.

Lemma convert_rep nbits v :
  0 < nbits -> 0 <= v < 2 ^ 63 ->
  exists b, convert nbits v = Ok b /\ rep nbits b (v mod 2 ^ nbits).
Proof.
  intros Hn Hv. unfold convert.
  set (upper := if nbits <=? 64 then nbits else 64).
  assert (Hup : 0 < upper <= nbits) by (subst upper; cases_cmp).
  destruct (convert_loop_rep nbits upper Hn ltac:(lia) _ 0 v (clear nbits) 0 eq_refl)
    as [r [-> Hr]]; try lia.
  - now apply rep_clear.
  - simpl bind. destruct (Z.ltb_spec v 0); [lia|]. rewrite andb_false_r.
    exists r. split; [reflexivity|].
    rewrite Z.add_0_l, Z.sub_0_r, Z.pow_0_r, Z.mul_1_r in Hr.
    replace (v mod 2 ^ nbits) with (v mod 2 ^ upper); [assumption|].
    subst upper. destruct (Z.leb_spec nbits 64); [reflexivity|].
    assert (2 ^ 63 < 2 ^ 64) by (apply Z.pow_lt_mono_r; lia).
    assert (2 ^ 64 < 2 ^ nbits) by (apply Z.pow_lt_mono_r; lia).
    rewrite !Z.mod_small by lia. reflexivity.
Qed.

Lemma of_int_rep nbits v :
  0 < nbits -> 0 <= v < 2 ^ 63 ->
  exists b, of_int nbits v = Ok b /\ rep nbits b (v mod 2 ^ nbits).
Proof.
  intros Hn Hv. unfold of_int. destruct (Z.eqb_spec 0 v) as [E|E].
  - subst v. exists (setzero nbits). split; [reflexivity|].
    rewrite Z.mod_0_l by (apply Z.pow_nonzero; lia). now apply rep_clear.
  - now apply convert_rep.
Qed.

Lemma of_int_0 nbits : of_int nbits 0 = Ok (clear nbits).
Proof. reflexivity. Qed.

(* ------------------------------------------------------------------ *)
(** ** Negation and subtraction *)

Lemma increment_rep nbits b x :
  0 < nbits -> rep nbits b x ->
  exists b', increment nbits b = Ok b' /\ rep nbits b' ((x + 1) mod 2 ^ nbits).
Proof.
  intros Hn Hr. unfold increment.
  destruct (of_int_rep nbits 1 Hn ltac:(lia)) as [one [-> Hone]]. simpl bind.
  pose proof (add_assign_rep nbits b one _ _ Hn Hr Hone) as H.
  rewrite Z.add_mod_idemp_r in H by (apply Z.pow_nonzero; lia).
  rewrite (mask_ms_byte_id nbits _ _ Hn H). eauto.
Qed.

Lemma twos_complement_rep nbits b x :
  0 < nbits -> rep nbits b x ->
  exists b', twos_complement nbits b = Ok b' /\ rep nbits b' ((- x) mod 2 ^ nbits).
Proof.
  intros Hn Hr. unfold twos_complement, complement.
  destruct (increment_rep nbits _ _ Hn (flip_rep nbits b x Hn Hr)) as [b' [-> H]].
  exists b'. split; [reflexivity|].
  replace ((- x) mod 2 ^ nbits) with ((2 ^ nbits - 1 - x + 1) mod 2 ^ nbits);
    [assumption|].
  replace (2 ^ nbits - 1 - x + 1) with (- x + 1 * 2 ^ nbits) by lia.
  apply Z.mod_add. apply Z.pow_nonzero; lia.
Qed.

Lemma neg_rep nbits b x :
  0 < nbits -> rep nbits b x ->
  exists b', neg nbits b = Ok b' /\ rep nbits b' ((- x) mod 2 ^ nbits).
Proof.
  intros Hn Hr. unfold neg.
  destruct (of_int_rep nbits 1 Hn ltac:(lia)) as [one [-> Hone]]. simpl bind.
  eexists. split; [reflexivity|].
  pose proof (add_assign_rep nbits _ one _ _ Hn (flip_rep nbits b x Hn Hr) Hone) as H.
  rewrite Z.add_mod_idemp_r in H by (apply Z.pow_nonzero; lia).
  replace ((- x) mod 2 ^ nbits) with ((2 ^ nbits - 1 - x + 1) mod 2 ^ nbits);
    [assumption|].
  replace (2 ^ nbits - 1 - x + 1) with (- x + 1 * 2 ^ nbits) by lia.
  apply Z.mod_add. apply Z.pow_nonzero; lia.
Qed.

Lemma sub_assign_rep nbits a b x y :
  0 < nbits -> rep nbits a x -> rep nbits b y ->
  exists c, sub_assign nbits a b = Ok c /\ rep nbits c ((x - y) mod 2 ^ nbits).
Proof.
  intros Hn Ha Hb. unfold sub_assign.
  destruct (twos_complement_rep nbits b y Hn Hb) as [c [-> Hc]]. simpl bind.
  eexists. split; [reflexivity|].
  pose proof (add_assign_rep nbits a c _ _ Hn Ha Hc) as H.
  rewrite Z.add_mod_idemp_r in H by (apply Z.pow_nonzero; lia).
  now replace (x - y) with (x + - y) by lia.
Qed.

(* ------------------------------------------------------------------ *)
(** ** Shifts *)

Lemma pow2_pos n : 0 <= n -> 0 < 2 ^ n.
Proof. intros. apply Z.pow_pos_nonneg; lia. Qed.

Lemma mod_pow2_succ z k :
  0 <= k ->
  z mod 2 ^ (k + 1)
  = if Z.testbit z k then Z.setbit (z mod 2 ^ k) k else Z.clearbit (z mod 2 ^ k) k.
Proof.
  intros Hk. apply Z.bits_inj'. intros j Hj.
  assert (Hgoal : forall c : bool,
    Z.testbit (if c then Z.setbit (z mod 2 ^ k) k else Z.clearbit (z mod 2 ^ k) k) j
    = if j =? k then c else (j <? k) && Z.testbit z j).
  { intros c. destruct c; [rewrite Z.setbit_eqb by lia|rewrite Z.clearbit_eqb];
      rewrite Z.testbit_mod_pow2 by lia; destruct (Z.testbit z j); cases_cmp. }
  rewrite Hgoal, Z.testbit_mod_pow2 by lia.
  destruct (Z.eqb_spec j k); [subst; destruct (Z.testbit z k)|]; cases_cmp.
Qed.

Lemma high_part_bits z m j :
  0 <= m -> 0 <= j -> Z.testbit (high_part z m) j = (m <=? j) && Z.testbit z j.
Proof.
  intros Hm Hj. unfold high_part. rewrite Z.mul_pow2_bits by lia.
  destruct (Z.leb_spec m j); simpl.
  - rewrite Z.div_pow2_bits by lia. f_equal. lia.
  - apply Z.testbit_neg_r. lia.
Qed.

Lemma high_part_pred z m :
  0 <= m ->
  high_part z m
  = if Z.testbit z m then Z.setbit (high_part z (m + 1)) m
    else Z.clearbit (high_part z (m + 1)) m.
Proof.
  intros Hm. apply Z.bits_inj'. intros j Hj.
  assert (Hgoal : forall c : bool,
    Z.testbit (if c then Z.setbit (high_part z (m + 1)) m
               else Z.clearbit (high_part z (m + 1)) m) j
    = if j =? m then c else (m + 1 <=? j) && Z.testbit z j).
  { intros c. destruct c; [rewrite Z.setbit_eqb by lia|rewrite Z.clearbit_eqb];
      rewrite high_part_bits by lia; destruct (Z.testbit z j); cases_cmp. }
  rewrite Hgoal, high_part_bits by lia.
  destruct (Z.eqb_spec j m); [subst; destruct (Z.testbit z m)|]; cases_cmp.
Qed.

Lemma shl_body_rep nbits b x s :
  0 < nbits -> 0 <= s -> rep nbits b x ->
  exists r, shl_body nbits b s = Ok r /\ rep nbits r ((x * 2 ^ s) mod 2 ^ nbits).
Proof.
  intros Hn Hs Hr. unfold shl_body. destruct (Z.leb_spec nbits s) as [Hle|Hlt].
  - exists (clear nbits). split; [reflexivity|].
    replace ((x * 2 ^ s) mod 2 ^ nbits) with 0; [now apply rep_clear|].
    apply Z.bits_inj'. intros j Hj.
    rewrite Z.testbit_0_l, Z.testbit_mod_pow2 by lia.
    destruct (Z.ltb_spec j nbits); simpl; [|reflexivity].
    symmetry. apply Z.mul_pow2_bits_low. lia.
  - apply (for_each_range (fun k t => rep nbits t ((x * 2 ^ s) mod 2 ^ k)));
      [lia| |].
    + replace ((x * 2 ^ s) mod 2 ^ s) with 0; [now apply rep_clear|].
      symmetry. apply Z.mod_mul. apply Z.pow_nonzero; lia.
    + intros i t Hi Ht.
      rewrite (at_rep nbits b x (i - s) Hr) by lia. simpl bind.
      destruct (set_to_rep nbits t _ i (Z.testbit x (i - s)) Hn Ht ltac:(lia))
        as [t' [-> Ht']].
      exists t'. split; [reflexivity|].
      rewrite mod_pow2_succ by lia. now rewrite Z.mul_pow2_bits by lia.
Qed.

Lemma shr_body_rep nbits b x s :
  0 < nbits -> 0 <= s -> rep nbits b x ->
  exists r, shr_body nbits b s = Ok r /\ rep nbits r (x / 2 ^ s).
Proof.
  intros Hn Hs Hr. unfold shr_body.
  assert (Hx : 0 <= x < 2 ^ nbits) by apply Hr.
  destruct (Z.leb_spec nbits s) as [Hle|Hlt].
  - exists (clear nbits). split; [reflexivity|].
    replace (x / 2 ^ s) with 0; [now apply rep_clear|].
    symmetry. apply Z.div_small.
    assert (2 ^ nbits <= 2 ^ s) by (apply Z.pow_le_mono_r; lia). lia.
  - assert (Hz : forall i, s <= i -> Z.testbit (x / 2 ^ s) (i - s) = Z.testbit x i).
    { intros i Hi. rewrite Z.div_pow2_bits by lia. f_equal. lia. }
    destruct (for_each_down_range
                (fun k t => rep nbits t (high_part (x / 2 ^ s) (k - s)))
                (fun target i =>
                   v <- at_ nbits b i ;; set_to nbits target (i - s) v)
                (nbits - 1) s (clear nbits)) as [r [Hloop Hrep]]; [lia| |  |].
    + replace (high_part (x / 2 ^ s) (nbits - 1 + 1 - s)) with 0;
        [now apply rep_clear|].
      unfold high_part. rewrite Z.div_div by (try apply pow2_pos; lia).
      rewrite <- Z.pow_add_r by lia.
      replace (s + (nbits - 1 + 1 - s)) with nbits by lia.
      rewrite Z.div_small by lia. reflexivity.
    + intros i t Hi Ht.
      rewrite (at_rep nbits b x i Hr) by lia. simpl bind.
      destruct (set_to_rep nbits t _ (i - s) (Z.testbit x i) Hn Ht ltac:(lia))
        as [t' [-> Ht']].
      exists t'. split; [reflexivity|].
      rewrite high_part_pred, Hz by lia.
      replace (i - s + 1) with (i + 1 - s) by lia. assumption.
    + exists r. split; [assumption|].
      unfold high_part in Hrep.
      now rewrite Z.sub_diag, Z.pow_0_r, Z.div_1_r, Z.mul_1_r in Hrep.
Qed.

Lemma shl_assign_rep nbits b x s :
  0 < nbits -> 0 <= s -> rep nbits b x ->
  exists r, shl_assign nbits b s = Ok r /\ rep nbits r ((x * 2 ^ s) mod 2 ^ nbits).
Proof.
  intros Hn Hs Hr. unfold shl_assign. destruct (Z.eqb_spec s 0) as [E|E].
  - subst s. exists b. split; [reflexivity|].
    rewrite Z.pow_0_r, Z.mul_1_r, Z.mod_small by apply Hr. assumption.
  - destruct (Z.ltb_spec s 0); [lia|]. now apply shl_body_rep.
Qed.

Lemma shr_assign_rep nbits b x s :
  0 < nbits -> 0 <= s -> rep nbits b x ->
  exists r, shr_assign nbits b s = Ok r /\ rep nbits r (x / 2 ^ s).
Proof.
  intros Hn Hs Hr. unfold shr_assign. destruct (Z.eqb_spec s 0) as [E|E].
  - subst s. exists b. split; [reflexivity|].
    now rewrite Z.pow_0_r, Z.div_1_r.
  - destruct (Z.ltb_spec s 0); [lia|]. now apply shr_body_rep.
Qed.

(* ------------------------------------------------------------------ *)
(** ** Multiplication *)

Lemma mod_pow2_succ_add x i :
  0 <= i -> x mod 2 ^ (i + 1) = x mod 2 ^ i + Z.b2z (Z.testbit x i) * 2 ^ i.
Proof.
  intros Hi. rewrite Z.testbit_spec' by lia.
  rewrite Z.pow_add_r by lia. change (2 ^ 1) with 2.
  rewrite Z.rem_mul_r by (try apply Z.pow_nonzero; lia). ring.
Qed.

Lemma mul_assign_rep nbits a b x y :
  0 < nbits -> rep nbits a x -> rep nbits b y ->
  exists c, mul_assign nbits a b = Ok c /\ rep nbits c ((x * y) mod 2 ^ nbits).
Proof.
  intros Hn Ha Hb. unfold mul_assign.
  assert (Hnz : 2 ^ nbits <> 0) by (apply Z.pow_nonzero; lia).
  destruct (for_each_range
              (fun k (st : bytes * bytes) =>
                 rep nbits (fst st) ((x mod 2 ^ k * y) mod 2 ^ nbits) /\
                 rep nbits (snd st) ((y * 2 ^ k) mod 2 ^ nbits))
              (fun '(acc, multiplicant) i =>
                 bit <- at_ nbits a i ;;
                 let acc' := if bit then add_assign nbits acc multiplicant else acc in
                 m' <- shl_assign nbits multiplicant 1 ;;
                 Ok (acc', m'))
              0 nbits (clear nbits, b)) as [[acc m] [Hloop [Hacc _]]]; [lia| | |].
  - simpl fst; simpl snd. rewrite Z.pow_0_r, Z.mod_1_r, Z.mul_0_l, Z.mul_1_r.
    rewrite Z.mod_0_l by assumption. split; [now apply rep_clear|].
    rewrite Z.mod_small by apply Hb. assumption.
  - intros i [acc m] Hi [Hacc Hm]. simpl fst in *; simpl snd in *.
    rewrite (at_rep nbits a x i Ha) by lia. simpl bind.
    destruct (shl_assign_rep nbits m _ 1 Hn ltac:(lia) Hm) as [m' [-> Hm']].
    simpl bind. eexists. split; [reflexivity|]. simpl fst; simpl snd. split.
    + rewrite mod_pow2_succ_add by lia. destruct (Z.testbit x i); simpl Z.b2z.
      * pose proof (add_assign_rep nbits acc m _ _ Hn Hacc Hm) as H.
        rewrite <- Z.add_mod in H by assumption.
        replace ((x mod 2 ^ i + 1 * 2 ^ i) * y)
          with (x mod 2 ^ i * y + y * 2 ^ i) by ring. assumption.
      * now rewrite Z.mul_0_l, Z.add_0_r.
    + rewrite Z.mul_mod_idemp_l in Hm' by assumption.
      rewrite Z.pow_add_r by lia. now rewrite Z.mul_assoc.
  - exists acc. split; [cbv zeta in Hloop |- *; now rewrite Hloop|].
    simpl fst in Hacc. rewrite (Z.mod_small x) in Hacc by apply Ha. assumption.
Qed.

Lemma mul_rep nbits a b x y :
  0 < nbits -> rep nbits a x -> rep nbits b y ->
  exists c, mul nbits a b = Ok c /\ rep nbits c ((x * y) mod 2 ^ nbits).
Proof. apply mul_assign_rep. Qed.

Lemma add_rep nbits a b x y :
  0 < nbits -> rep nbits a x -> rep nbits b y ->
  rep nbits (add nbits a b) ((x + y) mod 2 ^ nbits).
Proof. apply add_assign_rep. Qed.

(* ------------------------------------------------------------------ *)
(** ** Comparisons *)

Lemma eq_bytes_spec l r :
  List.length l = List.length r -> (eq_bytes l r = true <-> l = r).
Proof.
  revert r. induction l as [|x t IH]; intros [|y u] Hl; try discriminate.
  - simpl. tauto.
  - injection Hl as Hl. simpl. destruct (Z.eqb_spec x y) as [E|E]; simpl.
    + subst. rewrite IH by assumption. split; [intros ->; reflexivity|].
      intros H. now injection H.
    + split; [discriminate|]. intros H. injection H as H1 H2. contradiction.
Qed.

Lemma eq_rep nbits a b x y :
  rep nbits a x -> rep nbits b y -> operator_eq a b = (x =? y).
Proof.
  intros Ha Hb. unfold operator_eq.
  assert (Hl : List.length a = List.length b).
  { destruct Ha as [[La _] _], Hb as [[Lb _] _]. lia. }
  destruct (Z.eqb_spec x y) as [E|E].
  - subst. apply eq_bytes_spec; [assumption|]. now apply (rep_inj nbits _ _ y).
  - destruct (eq_bytes a b) eqn:Heq; [|reflexivity].
    apply eq_bytes_spec in Heq; [|assumption]. subst b.
    destruct Ha as [_ [Va _]], Hb as [_ [Vb _]]. congruence.
Qed.

Lemma sign_bit n x :
  0 < n -> 0 <= x < 2 ^ n -> Z.testbit x (n - 1) = negb (x <? 2 ^ (n - 1)).
Proof.
  intros Hn Hx. destruct (Z.ltb_spec x (2 ^ (n - 1))) as [Hlt|Hge]; simpl.
  - apply (proj1 (lt_pow2_bits x (n - 1) ltac:(lia) ltac:(lia))); [assumption|lia].
  - destruct (Z.testbit x (n - 1)) eqn:E; [reflexivity|]. exfalso.
    assert (x < 2 ^ (n - 1)); [|lia].
    apply lt_pow2_bits; try lia. intros j Hj.
    destruct (Z.eqb_spec j (n - 1)); [now subst|].
    apply (proj1 (lt_pow2_bits x n ltac:(lia) ltac:(lia))); lia.
Qed.

Lemma sign_rep nbits b x :
  0 < nbits -> rep nbits b x -> sign nbits b = Ok (negb (x <? 2 ^ (nbits - 1))).
Proof.
  intros Hn Hr. unfold sign. rewrite (at_rep nbits b x) by (assumption || lia).
  rewrite sign_bit by (apply Hr || lia). reflexivity.
Qed.

Lemma lt_loop_rep nbits a b x y :
  rep nbits a x -> rep nbits b y ->
  forall n k, k = Z.of_nat n -> k <= nbits ->
    lt_loop nbits a b (down_range (k - 1) 0) = Ok (x mod 2 ^ k <? y mod 2 ^ k).
Proof.
  intros Ha Hb. induction n as [|n IH]; intros k Hk Hle.
  - subst k. rewrite down_range_nil by lia. simpl.
    now rewrite !Z.mod_1_r.
  - rewrite down_range_cons by lia. simpl lt_loop.
    rewrite (at_rep nbits a x) by (assumption || lia).
    rewrite (at_rep nbits b y) by (assumption || lia). simpl bind.
    rewrite (IH (k - 1)) by lia.
    pose proof (mod_pow2_succ_add x (k - 1) ltac:(lia)) as Hxk.
    pose proof (mod_pow2_succ_add y (k - 1) ltac:(lia)) as Hyk.
    replace (k - 1 + 1) with k in Hxk, Hyk by lia. rewrite Hxk, Hyk.
    assert (Hp := pow2_pos (k - 1) ltac:(lia)).
    pose proof (Z.mod_pos_bound x (2 ^ (k - 1)) Hp).
    pose proof (Z.mod_pos_bound y (2 ^ (k - 1)) Hp).
    destruct (Z.testbit x (k - 1)), (Z.testbit y (k - 1));
      cbn [xorb Z.b2z Bool.eqb negb]; cbv iota; f_equal.
    + destruct (Z.ltb_spec (x mod 2 ^ (k - 1)) (y mod 2 ^ (k - 1)));
        symmetry; [apply Z.ltb_lt|apply Z.ltb_ge]; lia.
    + symmetry. apply Z.ltb_ge. lia.
    + symmetry. apply Z.ltb_lt. lia.
    + destruct (Z.ltb_spec (x mod 2 ^ (k - 1)) (y mod 2 ^ (k - 1)));
        symmetry; [apply Z.ltb_lt|apply Z.ltb_ge]; lia.
Qed.

Lemma lt_rep nbits a b x y :
  0 < nbits -> rep nbits a x -> rep nbits b y ->
  operator_lt nbits a b = Ok (signed nbits x <? signed nbits y).
Proof.
  intros Hn Ha Hb. unfold operator_lt.
  rewrite (sign_rep nbits a x), (sign_rep nbits b y) by assumption. simpl bind.
  rewrite (lt_loop_rep nbits a b x y Ha Hb (Z.to_nat nbits) nbits) by lia.
  assert (Hx : 0 <= x < 2 ^ nbits) by apply Ha.
  assert (Hy : 0 <= y < 2 ^ nbits) by apply Hb.
  rewrite !Z.mod_small by assumption.
  assert (Hp : 2 ^ nbits = 2 * 2 ^ (nbits - 1)).
  { rewrite <- Z.pow_succ_r by lia. f_equal. lia. }
  unfold signed.
  destruct (Z.ltb_spec x (2 ^ (nbits - 1))), (Z.ltb_spec y (2 ^ (nbits - 1)));
    simpl; f_equal; cases_cmp.
Qed.

Lemma le_rep nbits a b x y :
  0 < nbits -> rep nbits a x -> rep nbits b y ->
  operator_le nbits a b = Ok (signed nbits x <=? signed nbits y).
Proof.
  intros Hn Ha Hb. unfold operator_le. rewrite (lt_rep nbits a b x y) by assumption.
  simpl bind. rewrite (eq_rep nbits a b x y) by assumption. f_equal.
  assert (Hx : 0 <= x < 2 ^ nbits) by apply Ha.
  assert (Hy : 0 <= y < 2 ^ nbits) by apply Hb.
  unfold signed.
  destruct (Z.ltb_spec x (2 ^ (nbits - 1))), (Z.ltb_spec y (2 ^ (nbits - 1)));
    cases_cmp.
Qed.

Lemma signed_small n x : 0 < n -> 0 <= x < 2 ^ (n - 1) -> signed n x = x.
Proof. intros Hn Hx. unfold signed. destruct (Z.ltb_spec x (2 ^ (n - 1))); lia. Qed.

(* ------------------------------------------------------------------ *)
(** ** Most significant bit *)

Lemma findMsb_byte_spec x :
  0 < x < 256 -> findMsb_byte x (down_range 7 0) 128 = Some (Z.log2 x).
Proof.
  intros Hx.
  assert (H : forallb
                (fun x => match findMsb_byte x (down_range 7 0) 128 with
                          | Some j => j =? Z.log2 x
                          | None => false
                          end) (range 1 256) = true) by (vm_compute; reflexivity).
  rewrite forallb_forall in H. specialize (H x ltac:(apply In_range; lia)).
  destruct (findMsb_byte x (down_range 7 0) 128); [|discriminate].
  apply Z.eqb_eq in H. now subst.
Qed.

Lemma log2_bounds x m :
  0 <= m -> Z.testbit x m = true -> (forall j, m < j -> Z.testbit x j = false) ->
  0 <= x -> 2 ^ m <= x < 2 ^ (m + 1).
Proof.
  intros Hm Hbit Hhigh Hx. split.
  - destruct (Z.lt_ge_cases x (2 ^ m)) as [Hlt|]; [|assumption].
    rewrite (proj1 (lt_pow2_bits x m Hx Hm) Hlt m) in Hbit by lia. discriminate.
  - apply lt_pow2_bits; try lia. intros j Hj. apply Hhigh. lia.
Qed.

Lemma findMsb_loop_cons b i rest :
  findMsb_loop b (i :: rest)
  = if negb (get b i =? 0) then
      match findMsb_byte (get b i) (down_range 7 0) 128 with
      | Some j => i * 8 + j
      | None => findMsb_loop b rest
      end
    else findMsb_loop b rest.
Proof. reflexivity. Qed.

Lemma findMsb_loop_spec b :
  byte_range b ->
  forall n k, k = Z.of_nat n ->
    (forall j, 8 * k <= j -> storage_bit b j = false) ->
    (forall j, 0 <= j -> storage_bit b j = false) /\
      findMsb_loop b (down_range (k - 1) 0) = -1
    \/ exists m, findMsb_loop b (down_range (k - 1) 0) = m /\ 0 <= m /\
         storage_bit b m = true /\ (forall j, m < j -> storage_bit b j = false).
Proof.
  intros Hb. induction n as [|n IH]; intros k Hk Hhigh.
  - subst k. left. split; [intros; apply Hhigh; lia|].
    now rewrite down_range_nil by lia.
  - rewrite down_range_cons by lia. rewrite findMsb_loop_cons.
    pose proof (get_range b (k - 1) Hb) as Hg.
    destruct (Z.eqb_spec (get b (k - 1)) 0) as [E|E]; cbn [negb]; cbv iota.
    + apply (IH (k - 1)); [lia|]. intros j Hj.
      destruct (Z.lt_ge_cases j (8 * k)); [|apply Hhigh; lia].
      unfold storage_bit. replace (j / 8) with (k - 1) by (Z.div_mod_to_equations; lia).
      rewrite E. apply Z.testbit_0_l.
    + right. rewrite findMsb_byte_spec by lia.
      assert (Hlog : 0 <= Z.log2 (get b (k - 1)) < 8).
      { split; [apply Z.log2_nonneg|]. apply Z.log2_lt_pow2; [lia|].
        change (2 ^ 8) with 256. lia. }
      eexists. split; [reflexivity|]. split; [lia|]. split.
      * unfold storage_bit.
        replace (((k - 1) * 8 + Z.log2 (get b (k - 1))) / 8) with (k - 1)
          by (Z.div_mod_to_equations; lia).
        replace (((k - 1) * 8 + Z.log2 (get b (k - 1))) mod 8)
          with (Z.log2 (get b (k - 1))) by (Z.div_mod_to_equations; lia).
        apply Z.bit_log2. lia.
      * intros j Hj. destruct (Z.lt_ge_cases j (8 * k)); [|apply Hhigh; lia].
        unfold storage_bit.
        replace (j / 8) with (k - 1) by (Z.div_mod_to_equations; lia).
        apply Z.bits_above_log2; [lia|]. Z.div_mod_to_equations; lia.
Qed.

(** [findMsb] of a nonzero value is the position of its leading one. *)
Lemma findMsb_rep nbits b x :
  0 < nbits -> rep nbits b x -> 0 < x ->
  0 <= findMsb nbits b < nbits /\
  2 ^ findMsb nbits b <= x < 2 ^ (findMsb nbits b + 1).
Proof.
  intros Hn Hr Hx. unfold findMsb.
  pose proof (nrBytes_bounds nbits Hn) as Hnb.
  assert (Hb : byte_range b) by apply Hr.
  assert (Hl : Z.of_nat (List.length b) = nrBytes nbits) by apply Hr.
  destruct (findMsb_loop_spec b Hb (Z.to_nat (nrBytes nbits)) (nrBytes nbits))
    as [[Hz _]|[m [-> [Hm [Hbit Hhigh]]]]]; [lia| | |].
  - intros j Hj. apply storage_bit_overflow. lia.
  - exfalso. assert (x = 0); [|lia].
    apply Z.bits_inj'. intros j Hj.
    rewrite <- (rep_bit nbits b x j Hr Hj), Z.testbit_0_l. now apply Hz.
  - rewrite (rep_bit nbits b x m Hr Hm) in Hbit.
    assert (Hhigh' : forall j, m < j -> Z.testbit x j = false).
    { intros j Hj. rewrite <- (rep_bit nbits b x j Hr) by lia. now apply Hhigh. }
    pose proof (log2_bounds x m Hm Hbit Hhigh' ltac:(lia)) as Hlog.
    split; [|assumption]. split; [assumption|].
    destruct (Z.lt_ge_cases m nbits); [assumption|]. exfalso.
    assert (2 ^ nbits <= 2 ^ m) by (apply Z.pow_le_mono_r; lia).
    destruct Hr as [_ [_ Hv]]. lia.
Qed.

(* ------------------------------------------------------------------ *)
(** ** Copies between widths *)

Lemma bitcopy_rep nbits src_nbits src x :
  0 < nbits -> 0 < src_nbits -> rep src_nbits src x ->
  exists r, bitcopy nbits src_nbits src = Ok r /\ rep nbits r (x mod 2 ^ nbits).
Proof.
  intros Hn Hs Hr. unfold bitcopy.
  set (lastByte := if nrBytes nbits <? nrBytes src_nbits then nrBytes nbits
                   else nrBytes src_nbits).
  pose proof (nrBytes_bounds nbits Hn) as Hnb.
  pose proof (nrBytes_bounds src_nbits Hs) as Hsb.
  assert (Hlast : 0 < lastByte /\ lastByte <= nrBytes nbits
                  /\ lastByte <= nrBytes src_nbits) by (subst lastByte; cases_cmp).
  assert (Hsrc : byte_range src) by apply Hr.
  destruct (for_each_range
              (fun k t => wf nbits t /\
                 forall j, 0 <= j -> get t j = if j <? k then get src j else 0)
              (fun b i => v <- byte src_nbits src i ;; Ok (put b i v))
              0 lastByte (clear nbits)) as [t [-> [Hwf Hget]]]; [lia| | |].
  - split; [now apply wf_clear|]. intros j Hj.
    destruct (Z.ltb_spec j 0); [lia|]. unfold clear, get.
    destruct (Nat.lt_ge_cases (Z.to_nat j) (Z.to_nat (nrBytes nbits))).
    + apply nth_repeat_lt. assumption.
    + apply nth_overflow. now rewrite repeat_length.
  - intros i t Hi [Hwf Hget]. unfold byte. rewrite in_bounds by lia. simpl bind.
    eexists. split; [reflexivity|]. split.
    + apply wf_put; [assumption|]. now apply get_range.
    + intros j Hj. rewrite get_put by (destruct Hwf; lia). rewrite Hget by lia.
      cases_cmp. now subst.
  - simpl bind. eexists. split; [reflexivity|].
    pose proof (mask_ms_byte_rep nbits t Hn Hwf) as H.
    replace (x mod 2 ^ nbits) with (val t mod 2 ^ nbits); [assumption|].
    apply Z.bits_inj'. intros j Hj. rewrite !Z.testbit_mod_pow2 by lia.
    destruct (Z.ltb_spec j nbits); simpl; [|reflexivity].
    rewrite val_testbit by (apply Hwf || lia).
    rewrite <- (rep_bit src_nbits src x j Hr Hj).
    unfold storage_bit. rewrite Hget by (Z.div_mod_to_equations; lia).
    destruct (Z.ltb_spec (j / 8) lastByte); [reflexivity|].
    rewrite get_overflow; [reflexivity|].
    destruct Hr as [[Hl _] _]. rewrite Hl.
    subst lastByte. destruct (Z.ltb_spec (nrBytes nbits) (nrBytes src_nbits));
      Z.div_mod_to_equations; lia.
Qed.

(** Narrowing by one bit, as [idiv] does for its remainder. *)
Lemma of_integer_narrow nbits a x :
  0 < nbits -> rep (nbits + 1) a x ->
  exists r, of_integer nbits (nbits + 1) a = Ok r /\ rep nbits r (x mod 2 ^ nbits).
Proof.
  intros Hn Hr. unfold of_integer.
  destruct (bitcopy_rep nbits (nbits + 1) a x Hn ltac:(lia) Hr) as [r [-> Hrep]].
  simpl bind. rewrite (sign_rep (nbits + 1) a x) by (assumption || lia).
  simpl bind. rewrite range_nil by lia. simpl for_each.
  exists r. split; [now destruct (negb _)|assumption].
Qed.

(* ------------------------------------------------------------------ *)
(** ** Long division *)

Lemma setbit_clear_add q i :
  0 <= i -> Z.testbit q i = false -> Z.setbit q i = q + 2 ^ i.
Proof.
  intros Hi Hq. rewrite Z.setbit_spec'.
  assert (Hl : Z.land q (2 ^ i) = 0).
  { apply Z.bits_inj'. intros j Hj.
    rewrite Z.land_spec, Z.pow2_bits_eqb, Z.testbit_0_l by lia.
    destruct (Z.eqb_spec i j); [subst; now rewrite Hq|apply andb_false_r]. }
  rewrite <- Z.lxor_lor by assumption. symmetry. now apply Z.add_nocarry_lxor.
Qed.

Lemma clearbit_clear q i : Z.testbit q i = false -> Z.clearbit q i = q.
Proof.
  intros Hq. apply Z.bits_inj'. intros j Hj. rewrite Z.clearbit_eqb.
  destruct (Z.eqb_spec i j); [subst; now rewrite Hq|apply andb_true_r].
Qed.

Lemma idiv_step_inv nbits A B i st :
  0 < nbits -> 0 <= i < nbits -> 1 <= B -> A < 2 ^ nbits ->
  B * 2 ^ i < 2 ^ nbits ->
  idiv_inv nbits A B (i + 1) st ->
  exists st', idiv_step nbits st i = Ok st' /\ idiv_inv nbits A B i st'.
Proof.
  intros Hn Hi HB HA HS Hinv. destruct st as [[acc sub] q].
  destruct Hinv as [R [Qt [Hacc [Hsub [Hq [HAeq [HR HQt]]]]]]].
  assert (Hp : 0 < 2 ^ i) by (apply pow2_pos; lia).
  assert (Hpow : 2 ^ (i + 1) = 2 * 2 ^ i).
  { rewrite Z.pow_add_r by lia. change (2 ^ 1) with 2. lia. }
  rewrite Hpow in *.
  replace (B * (2 * 2 ^ i) / 2) with (B * 2 ^ i) in Hsub
    by (replace (B * (2 * 2 ^ i)) with (B * 2 ^ i * 2) by ring;
        now rewrite Z.div_mul by lia).
  assert (Hn1 : 2 ^ (nbits + 1 - 1) = 2 ^ nbits) by (f_equal; lia).
  assert (HRA : R <= A) by nia.
  unfold idiv_step.
  rewrite (le_rep (nbits + 1) sub acc _ _ ltac:(lia) Hsub Hacc). cbn [bind].
  rewrite !signed_small by (rewrite ?Hn1; nia).
  assert (Hbit : Z.testbit (Qt * (2 * 2 ^ i)) i = false).
  { rewrite <- Hpow. apply Z.mul_pow2_bits_low. lia. }
  destruct (shr_assign_rep (nbits + 1) sub _ 1 ltac:(lia) ltac:(lia) Hsub)
    as [sub' [Hshr Hsub']].
  change (2 ^ 1) with 2 in Hsub'.
  destruct (Z.leb_spec (B * 2 ^ i) R) as [Hle|Hgt].
  - destruct (sub_assign_rep (nbits + 1) acc sub _ _ ltac:(lia) Hacc Hsub)
      as [acc' [-> Hacc']]. cbn [bind].
    destruct (set_rep nbits q _ i Hn Hq Hi) as [q' [-> Hq']]. cbn [bind].
    rewrite Hshr. cbn [bind].
    exists (acc', sub', q'). split; [reflexivity|].
    exists (R - B * 2 ^ i), (2 * Qt + 1).
    rewrite Z.mod_small in Hacc'
      by (assert (2 ^ nbits < 2 ^ (nbits + 1)) by (apply Z.pow_lt_mono_r; lia); lia).
    rewrite setbit_clear_add in Hq' by (assumption || lia).
    replace ((2 * Qt + 1) * 2 ^ i) with (Qt * (2 * 2 ^ i) + 2 ^ i) by ring.
    split; [exact Hacc'|]. split; [exact Hsub'|]. split; [exact Hq'|].
    split; [rewrite HAeq; ring|]. split; lia.
  - destruct (reset_rep nbits q _ i Hn Hq Hi) as [q' [-> Hq']]. cbn [bind].
    rewrite Hshr. cbn [bind].
    exists (acc, sub', q'). split; [reflexivity|].
    exists R, (2 * Qt).
    rewrite clearbit_clear in Hq' by assumption.
    replace (2 * Qt * 2 ^ i) with (Qt * (2 * 2 ^ i)) by ring.
    split; [exact Hacc|]. split; [exact Hsub'|]. split; [exact Hq'|].
    split; [rewrite HAeq; ring|]. split; lia.
Qed.

Lemma signed_mod n x : 0 < n -> 0 <= x < 2 ^ n -> signed n x mod 2 ^ n = x.
Proof.
  intros Hn Hx. unfold signed. destruct (Z.ltb_spec x (2 ^ (n - 1))).
  - now apply Z.mod_small.
  - replace (x - 2 ^ n) with (x + (-1) * 2 ^ n) by lia.
    rewrite Z.mod_add by lia. now apply Z.mod_small.
Qed.

Lemma signed_range n x :
  0 < n -> 0 <= x < 2 ^ n -> - 2 ^ (n - 1) <= signed n x < 2 ^ (n - 1).
Proof.
  intros Hn Hx. unfold signed.
  assert (2 ^ n = 2 * 2 ^ (n - 1)).
  { rewrite <- Z.pow_succ_r by lia. f_equal. lia. }
  destruct (Z.ltb_spec x (2 ^ (n - 1))); lia.
Qed.

(** The magnitude that [idiv] widens to [nbits + 1] bits. *)
Lemma abs_operand nbits b x :
  0 < nbits -> rep nbits b x ->
  exists abs_x a,
    (if negb (x <? 2 ^ (nbits - 1)) then neg nbits b else Ok b) = Ok abs_x /\
    bitcopy (nbits + 1) nbits abs_x = Ok a /\
    rep (nbits + 1) a (Z.abs (signed nbits x)).
Proof.
  intros Hn Hr. assert (Hx : 0 <= x < 2 ^ nbits) by apply Hr.
  assert (Hp : 2 ^ nbits = 2 * 2 ^ (nbits - 1)).
  { rewrite <- Z.pow_succ_r by lia. f_equal. lia. }
  assert (Hp1 : 2 ^ (nbits + 1) = 2 * 2 ^ nbits).
  { rewrite Z.pow_add_r by lia. change (2 ^ 1) with 2. lia. }
  unfold signed. destruct (Z.ltb_spec x (2 ^ (nbits - 1))); cbn [negb].
  - destruct (bitcopy_rep (nbits + 1) nbits b x ltac:(lia) Hn Hr) as [a [Hc Ha]].
    exists b, a. split; [reflexivity|]. split; [assumption|].
    rewrite Z.mod_small in Ha by lia. now rewrite Z.abs_eq by lia.
  - destruct (neg_rep nbits b x Hn Hr) as [nb [Hneg Hnb]].
    destruct (bitcopy_rep (nbits + 1) nbits nb _ ltac:(lia) Hn Hnb) as [a [Hc Ha]].
    exists nb, a. split; [assumption|]. split; [assumption|].
    replace ((- x) mod 2 ^ nbits) with (2 ^ nbits - x) in Ha.
    2:{ apply (Z.mod_unique _ _ (-1)); [left; lia|lia]. }
    rewrite Z.mod_small in Ha by lia.
    now replace (Z.abs (x - 2 ^ nbits)) with (2 ^ nbits - x) by lia.
Qed.

Lemma signed_neg_iff n x :
  0 < n -> 0 <= x < 2 ^ n -> negb (x <? 2 ^ (n - 1)) = (signed n x <? 0).
Proof.
  intros Hn Hx. unfold signed. destruct (Z.ltb_spec x (2 ^ (n - 1))); cbn [negb].
  - symmetry. apply Z.ltb_ge. lia.
  - symmetry. apply Z.ltb_lt. lia.
Qed.

Lemma msb_le A B ma mb :
  0 <= ma -> 0 <= mb ->
  2 ^ ma <= A < 2 ^ (ma + 1) -> 2 ^ mb <= B < 2 ^ (mb + 1) -> B <= A -> mb <= ma.
Proof.
  intros Hma Hmb HA HB HBA. destruct (Z.le_gt_cases mb ma); [assumption|].
  assert (2 ^ (ma + 1) <= 2 ^ mb) by (apply Z.pow_le_mono_r; lia). lia.
Qed.

(** [idiv] computes the quotient truncated toward zero and the remainder
    with the sign of the dividend, both reduced modulo [2 ^ nbits]. *)
Lemma idiv_rep throw_arith nbits a b xa xb :
  0 < nbits -> rep nbits a xa -> rep nbits b xb -> xb <> 0 ->
  exists q r,
    idiv throw_arith nbits a b = Ok (mk_idiv_t q r) /\
    rep nbits q (Z.quot (signed nbits xa) (signed nbits xb) mod 2 ^ nbits) /\
    rep nbits r (Z.rem (signed nbits xa) (signed nbits xb) mod 2 ^ nbits).
Proof.
  intros Hn Ha Hb Hnz.
  assert (Hxa : 0 <= xa < 2 ^ nbits) by apply Ha.
  assert (Hxb : 0 <= xb < 2 ^ nbits) by apply Hb.
  assert (Hp : 2 ^ nbits = 2 * 2 ^ (nbits - 1)).
  { rewrite <- Z.pow_succ_r by lia. f_equal. lia. }
  assert (Hp1 : 2 ^ (nbits + 1) = 2 * 2 ^ nbits).
  { rewrite Z.pow_add_r by lia. change (2 ^ 1) with 2. lia. }
  assert (Hn1 : 2 ^ (nbits + 1 - 1) = 2 ^ nbits) by (f_equal; lia).
  assert (Hpp : 0 < 2 ^ (nbits - 1)) by (apply pow2_pos; lia).
  pose proof (signed_range nbits xa Hn Hxa) as Hsa.
  pose proof (signed_range nbits xb Hn Hxb) as Hsb.
  pose proof (signed_mod nbits xa Hn Hxa) as Hma.
  pose proof (signed_mod nbits xb Hn Hxb) as Hmb.
  assert (Hsb0 : signed nbits xb <> 0).
  { intros E. rewrite E, Z.mod_0_l in Hmb by lia. lia. }
  unfold idiv, check_divisor. rewrite !of_int_0. cbn [bind].
  rewrite (eq_rep nbits b (clear nbits) xb 0 Hb (rep_clear nbits Hn)).
  destruct (Z.eqb_spec xb 0); [contradiction|]. cbn [bind].
  rewrite (sign_rep nbits a xa Hn Ha), (sign_rep nbits b xb Hn Hb). cbn [bind].
  destruct (abs_operand nbits a xa Hn Ha) as [abs_a [a' [Habs_a [Hcopy_a Ha']]]].
  destruct (abs_operand nbits b xb Hn Hb) as [abs_b [b' [Habs_b [Hcopy_b Hb']]]].
  rewrite Habs_a. cbn [bind]. rewrite Hcopy_a. cbn [bind].
  rewrite Habs_b. cbn [bind]. rewrite Hcopy_b. cbn [bind].
  clear Habs_a Habs_b Hcopy_a Hcopy_b.
  rewrite !signed_neg_iff by assumption.
  set (sa := signed nbits xa) in *. set (sb := signed nbits xb) in *.
  set (A := Z.abs sa) in *. set (B := Z.abs sb) in *.
  assert (HA : 0 <= A <= 2 ^ (nbits - 1)) by lia.
  assert (HB : 1 <= B <= 2 ^ (nbits - 1)) by lia.
  rewrite (lt_rep (nbits + 1) a' b' A B ltac:(lia) Ha' Hb').
  rewrite !signed_small by (rewrite ?Hn1; lia). cbn [bind].
  rewrite (lt_rep nbits a (clear nbits) xa 0 Hn Ha (rep_clear nbits Hn)).
  replace (signed nbits 0) with 0 by (unfold signed; destruct (Z.ltb_spec 0 (2 ^ (nbits - 1))); lia).
  fold sa.
  assert (Hquot : Z.quot sa sb = Z.sgn sa * Z.sgn sb * (A / B))
    by (apply Z.quot_div; assumption).
  assert (Hrem : Z.rem sa sb = Z.sgn sa * (A mod B))
    by (apply Z.rem_mod; assumption).
  cbn [quot].
  destruct (Z.ltb_spec A B) as [Hlt|Hge].
  - (* |a| < |b| *) exists (setzero nbits), a. split; [reflexivity|].
    rewrite Hquot, Hrem, (Z.div_small A B), (Z.mod_small A B) by lia.
    rewrite Z.mul_0_r, Z.mod_0_l by lia. split; [now apply rep_clear|].
    replace (Z.sgn sa * A) with sa by lia. now rewrite Hma.
  - destruct (findMsb_rep (nbits + 1) a' A ltac:(lia) Ha' ltac:(lia)) as [Hmsa HlogA].
    destruct (findMsb_rep (nbits + 1) b' B ltac:(lia) Hb' ltac:(lia)) as [Hmsb HlogB].
    set (ma := findMsb (nbits + 1) a') in *.
    set (mb := findMsb (nbits + 1) b') in *.
    assert (Hmab : mb <= ma) by (apply (msb_le A B); lia).
    assert (Hman : ma <= nbits - 1).
    { destruct (Z.le_gt_cases ma (nbits - 1)); [assumption|].
      assert (2 ^ nbits <= 2 ^ ma) by (apply Z.pow_le_mono_r; lia). lia. }
    set (shift := ma - mb) in *.
    assert (Hps : 0 < 2 ^ shift) by (apply pow2_pos; lia).
    assert (Hpa : 2 ^ (ma + 1) = 2 ^ (mb + 1) * 2 ^ shift).
    { rewrite <- Z.pow_add_r by lia. f_equal. lia. }
    assert (Hpa' : 2 ^ (ma + 1) = 2 ^ mb * 2 ^ (shift + 1)).
    { rewrite <- Z.pow_add_r by lia. f_equal. lia. }
    assert (Hpan : 2 ^ (ma + 1) <= 2 ^ nbits) by (apply Z.pow_le_mono_r; lia).
    assert (HBs : B * 2 ^ shift < 2 ^ nbits) by nia.
    destruct (shl_assign_rep (nbits + 1) b' B shift ltac:(lia) ltac:(lia) Hb')
      as [sub0 [-> Hsub0]]. cbn [bind].
    rewrite Z.mod_small in Hsub0 by lia.
    destruct (for_each_down_range (idiv_inv nbits A B) (idiv_step nbits)
                shift 0 (a', sub0, setzero nbits))
      as [[[acc sub] q] [-> Hinv]]; [lia| | |].
    + exists A, 0. split; [assumption|].
      assert (Hps1 : 2 ^ (shift + 1) = 2 * 2 ^ shift).
      { rewrite Z.pow_add_r by lia. change (2 ^ 1) with 2. lia. }
      split.
      { replace (B * 2 ^ (shift + 1) / 2) with (B * 2 ^ shift); [assumption|].
        rewrite Hps1. replace (B * (2 * 2 ^ shift)) with (B * 2 ^ shift * 2) by ring.
        now rewrite Z.div_mul by lia. }
      split; [rewrite Z.mul_0_l; now apply rep_clear|].
      split; [lia|]. split; [|lia]. split; [lia|].
      assert (0 < 2 ^ (shift + 1)) by (apply pow2_pos; lia). nia.
    + intros i st Hi Hst. apply idiv_step_inv; try assumption; try lia.
      assert (2 ^ i <= 2 ^ shift) by (apply Z.pow_le_mono_r; lia). nia.
    + destruct Hinv as [R [Qt [Hacc [_ [Hq [HAeq [HR HQt]]]]]]].
      rewrite Z.pow_0_r, !Z.mul_1_r in *. cbn [bind].
      assert (HdivA : A / B = Qt) by (symmetry; apply (Z.div_unique_pos A B Qt R); lia).
      assert (HmodA : A mod B = R) by (symmetry; apply (Z.mod_unique_pos A B Qt R); lia).
      rewrite Hquot, Hrem, HdivA, HmodA.
      assert (Hsa0 : sa <> 0) by lia.
      (* the quotient *)
      assert (Hquo : exists q',
                 (if xorb (sa <? 0) (sb <? 0)
                  then one <- of_int nbits 1 ;; Ok (add_assign nbits (flip nbits q) one)
                  else Ok q) = Ok q' /\
                 rep nbits q' ((Z.sgn sa * Z.sgn sb * Qt) mod 2 ^ nbits)).
      { assert (HQt' : 0 <= Qt < 2 ^ nbits) by apply Hq.
        destruct (Z.ltb_spec sa 0), (Z.ltb_spec sb 0); cbn [xorb].
        - exists q. split; [reflexivity|].
          replace (Z.sgn sa * Z.sgn sb) with 1 by lia.
          now rewrite Z.mul_1_l, Z.mod_small by lia.
        - destruct (neg_rep nbits q Qt Hn Hq) as [q' [Hneg Hq']].
          exists q'. split; [exact Hneg|].
          replace (Z.sgn sa * Z.sgn sb) with (-1) by lia.
          now replace (-1 * Qt) with (- Qt) by lia.
        - destruct (neg_rep nbits q Qt Hn Hq) as [q' [Hneg Hq']].
          exists q'. split; [exact Hneg|].
          replace (Z.sgn sa * Z.sgn sb) with (-1) by lia.
          now replace (-1 * Qt) with (- Qt) by lia.
        - exists q. split; [reflexivity|].
          replace (Z.sgn sa * Z.sgn sb) with 1 by lia.
          now rewrite Z.mul_1_l, Z.mod_small by lia. }
      destruct Hquo as [q' [-> Hq']]. cbn [bind].
      (* the remainder *)
      destruct (Z.ltb_spec sa 0).
      * destruct (neg_rep (nbits + 1) acc R ltac:(lia) Hacc) as [nacc [-> Hnacc]].
        cbn [bind].
        destruct (of_integer_narrow nbits nacc _ Hn Hnacc) as [r [-> Hr]].
        cbn [bind]. exists q', r. split; [reflexivity|]. split; [assumption|].
        rewrite mod_mod_pow2 in Hr by lia.
        replace (Z.sgn sa) with (-1) by lia.
        now replace (-1 * R) with (- R) by lia.
      * destruct (of_integer_narrow nbits acc _ Hn Hacc) as [r [-> Hr]].
        cbn [bind]. exists q', r. split; [reflexivity|]. split; [assumption|].
        replace (Z.sgn sa) with 1 by lia. now rewrite Z.mul_1_l.
Qed.

(* ------------------------------------------------------------------ *)
(** ** The decimal digit engine *)

Lemma dval_bounds d :
  digit_range d -> 0 <= dval d < 10 ^ Z.of_nat (List.length d).
Proof.
  induction 1 as [|x t Hx Ht IH]; [simpl; lia|]. cbv beta in Hx.
  rewrite dval_cons.
  replace (Z.of_nat (List.length (x :: t))) with (1 + Z.of_nat (List.length t))
    by (simpl List.length; lia).
  rewrite Z.pow_add_r by lia. change (10 ^ 1) with 10.
  set (p := 10 ^ Z.of_nat (List.length t)) in *. clearbody p. lia.
Qed.

Lemma dval_app d e :
  dval (d ++ e) = dval d + 10 ^ Z.of_nat (List.length d) * dval e.
Proof.
  induction d as [|x t IH].
  { cbn [app List.length dval]. change (Z.of_nat 0) with 0.
    rewrite Z.pow_0_r. lia. }
  change ((x :: t) ++ e) with (x :: (t ++ e)). rewrite !dval_cons, IH.
  replace (Z.of_nat (List.length (x :: t))) with (1 + Z.of_nat (List.length t))
    by (simpl List.length; lia).
  rewrite Z.pow_add_r by lia. change (10 ^ 1) with 10. ring.
Qed.

Lemma dval_repeat_0 n : dval (repeat 0 n) = 0.
Proof. induction n; simpl repeat; [reflexivity|]. rewrite dval_cons, IHn. lia. Qed.

Lemma dval_pad v n : dval (impl.pad v n) = dval v.
Proof. unfold impl.pad. rewrite dval_app, dval_repeat_0. lia. Qed.

Lemma digit_range_pad v n : digit_range v -> digit_range (impl.pad v n).
Proof.
  intros H. unfold impl.pad, digit_range. apply Forall_app. split; [assumption|].
  apply Forall_forall. intros x Hx. apply repeat_spec in Hx. subst. lia.
Qed.

Lemma pad_length v n : List.length (impl.pad v n) = (List.length v + n)%nat.
Proof. unfold impl.pad. now rewrite length_app, repeat_length. Qed.

Lemma add_digits_cons x y l r c :
  impl.add_digits (x :: l) (y :: r) c
  = let s := u8 (x + y + c) in
    if 9 <? s then
      let (t, c') := impl.add_digits l r 1 in (u8 (s - 10) :: t, c')
    else
      let (t, c') := impl.add_digits l r 0 in (s :: t, c').
Proof. reflexivity. Qed.

Lemma add_digits_spec l r c :
  digit_range l -> digit_range r -> List.length l = List.length r ->
  0 <= c <= 1 ->
  digit_range (fst (impl.add_digits l r c)) /\
  List.length (fst (impl.add_digits l r c)) = List.length l /\
  0 <= snd (impl.add_digits l r c) <= 1 /\
  dval (fst (impl.add_digits l r c))
  + snd (impl.add_digits l r c) * 10 ^ Z.of_nat (List.length l)
  = dval l + dval r + c.
Proof.
  intros Hl. revert r c. induction Hl as [|x t Hx Ht IH]; intros r c Hr Hlen Hc.
  - destruct r; [|discriminate]. simpl. repeat split; try lia. constructor.
  - destruct r as [|y u]; [discriminate|]. inversion Hr as [|? ? Hy Hu]; subst.
    cbv beta in Hx, Hy. injection Hlen as Hlen.
    rewrite add_digits_cons. cbv zeta.
    rewrite (u8_small (x + y + c)) by lia.
    replace (Z.of_nat (List.length (x :: t))) with (1 + Z.of_nat (List.length t))
      by (simpl List.length; lia).
    rewrite Z.pow_add_r by lia. change (10 ^ 1) with 10.
    destruct (Z.ltb_spec 9 (x + y + c)).
    + destruct (IH u 1 Hu Hlen ltac:(lia)) as [Hd [Hlen' [Hc' Hv]]].
      destruct (impl.add_digits t u 1) as [d c']. cbn [fst snd] in *.
      rewrite u8_small by lia. rewrite !dval_cons.
      split; [constructor; [lia|assumption]|].
      split; [simpl; now rewrite Hlen'|]. split; [assumption|]. lia.
    + destruct (IH u 0 Hu Hlen ltac:(lia)) as [Hd [Hlen' [Hc' Hv]]].
      destruct (impl.add_digits t u 0) as [d c']. cbn [fst snd] in *.
      rewrite !dval_cons.
      split; [constructor; [lia|assumption]|].
      split; [simpl; now rewrite Hlen'|]. split; [assumption|]. lia.
Qed.

(** Adding two magnitudes: the value is the sum, and the result is normal
    as soon as the longer operand is. *)
Lemma add_magnitudes_spec lhs rhs :
  digit_range (impl.digits lhs) -> digit_range (impl.digits rhs) ->
  let res := impl.add_magnitudes lhs rhs in
  digit_range (impl.digits res) /\
  dval (impl.digits res) = dval (impl.digits lhs) + dval (impl.digits rhs) /\
  impl.sign res = impl.sign lhs /\
  ((normal (impl.digits lhs) /\
      (List.length (impl.digits rhs) <= List.length (impl.digits lhs))%nat) \/
   (normal (impl.digits rhs) /\
      (List.length (impl.digits lhs) <= List.length (impl.digits rhs))%nat) ->
   normal (impl.digits res)).
Proof.
  intros Hl Hr. destruct lhs as [ld ls], rhs as [rd rs]. cbn [impl.digits] in *.
  unfold impl.add_magnitudes. cbn [impl.digits impl.sign].
  set (l := List.length ld). set (r := List.length rd).
  set (lp := if (l <? r)%nat then impl.pad ld (r - l) else ld).
  set (rp := if (l <? r)%nat then rd else impl.pad rd (l - r)).
  assert (Hlp : digit_range lp /\ dval lp = dval ld /\
                List.length lp = Nat.max l r).
  { subst lp. destruct (Nat.ltb_spec l r).
    - split; [now apply digit_range_pad|]. split; [apply dval_pad|].
      rewrite pad_length. fold l. lia.
    - split; [assumption|]. split; [reflexivity|]. fold l. lia. }
  assert (Hrp : digit_range rp /\ dval rp = dval rd /\
                List.length rp = Nat.max l r).
  { subst rp. destruct (Nat.ltb_spec l r).
    - split; [assumption|]. split; [reflexivity|]. fold r. lia.
    - split; [now apply digit_range_pad|]. split; [apply dval_pad|].
      rewrite pad_length. fold r. lia. }
  destruct Hlp as [Hlp1 [Hlp2 Hlp3]]. destruct Hrp as [Hrp1 [Hrp2 Hrp3]].
  destruct (add_digits_spec lp rp 0 Hlp1 Hrp1 ltac:(lia) ltac:(lia))
    as [Hd [Hlen [Hc Hv]]].
  destruct (impl.add_digits lp rp 0) as [d c]. cbn [fst snd] in *.
  cbn [impl.digits impl.sign].
  rewrite Hlp2, Hrp2, Z.add_0_r, Hlp3 in Hv. rewrite Hlp3 in Hlen.
  pose proof (dval_bounds d Hd) as Hdb. rewrite Hlen in Hdb.
  set (res := if negb (c =? 0) then d ++ [1] else d).
  assert (Hres : digit_range res /\ dval res = dval ld + dval rd /\
                 Z.of_nat (List.length res) = Z.of_nat (Nat.max l r) + c /\
                 (c = 1 -> 10 ^ Z.of_nat (Nat.max l r) <= dval res)).
  { subst res. destruct (Z.eqb_spec c 0) as [E|E]; cbn [negb].
    - subst c. split; [assumption|]. split; [lia|]. split; [lia|]. lia.
    - assert (c = 1) by lia. subst c.
      split; [apply Forall_app; split; [assumption|constructor; [lia|constructor]]|].
      rewrite dval_app, Hlen, length_app. rewrite dval_cons. simpl dval.
      simpl List.length. split; [lia|]. split; [lia|]. intros _. lia. }
  destruct Hres as [Hres1 [Hres2 [Hres3 Hres4]]].
  split; [assumption|]. split; [assumption|]. split; [reflexivity|].
  intros Hnorm. split; [assumption|]. split.
  - intros E. rewrite E in Hres3. simpl in Hres3.
    destruct Hnorm as [[[_ [Hne _]] _]|[[_ [Hne _]] _]];
      [destruct ld|destruct rd]; try contradiction; simpl in l, r; lia.
  - rewrite Hres3.
    pose proof (dval_bounds ld Hl) as Hbl. pose proof (dval_bounds rd Hr) as Hbr.
    destruct (Z.eq_dec c 1) as [E|E].
    + subst c. replace (Z.of_nat (Nat.max l r) + 1 - 1) with (Z.of_nat (Nat.max l r)) by lia.
      now apply Hres4.
    + assert (c = 0) by lia. subst c. rewrite Z.add_0_r, Hres2.
      destruct Hnorm as [[[_ [_ Hn]] Hlen']|[[_ [_ Hn]] Hlen']].
      * fold l in Hn. replace (Nat.max l r) with l by (fold l r in Hlen'; lia). lia.
      * fold r in Hn. replace (Nat.max l r) with r by (fold l r in Hlen'; lia). lia.
Qed.

Lemma add_same_sign lhs rhs :
  impl.sign lhs = impl.sign rhs -> impl.add lhs rhs = impl.add_magnitudes lhs rhs.
Proof.
  intros H. unfold impl.add. rewrite H.
  now destruct (impl.sign rhs).
Qed.

(* ------------------------------------------------------------------ *)
(** ** Rendering *)

Lemma iszero_val b : byte_range b -> iszero b = (val b =? 0).
Proof.
  induction 1 as [|x t Hx Ht IH]; [reflexivity|]. cbv beta in Hx.
  unfold iszero in *. cbn [forallb]. rewrite IH, val_cons.
  pose proof (val_bounds t Ht) as Hb.
  destruct (Z.eqb_spec x 0), (Z.eqb_spec (val t) 0); cbn [andb]; cases_cmp.
Qed.

Lemma iszero_rep nbits b x : rep nbits b x -> iszero b = (x =? 0).
Proof. intros [[_ Hb] [<- _]]. now apply iszero_val. Qed.

Lemma flat_map_show_int d :
  digit_range d -> flat_map show_int d = map digit_char d.
Proof.
  induction 1 as [|x t Hx Ht IH]; [reflexivity|]. cbv beta in Hx.
  cbn [flat_map map]. rewrite IH. unfold show_int.
  destruct (Z.ltb_spec x 10); [reflexivity|lia].
Qed.

Lemma digit_range_rev d : digit_range d -> digit_range (rev d).
Proof. unfold digit_range. apply Forall_rev. Qed.

Lemma render_step_inv nbits number x k st :
  rep nbits number x -> 0 <= k < nbits -> render_inv x k st ->
  exists st', render_step nbits number st k = Ok st' /\ render_inv x (k + 1) st'.
Proof.
  intros Hr Hk Hinv. destruct st as [partial multiplier].
  destruct Hinv as [Hsp [Hsm [Hnm [Hvm [Hdp [Hvp Hnp]]]]]].
  unfold render_step. rewrite (at_rep nbits number x k Hr Hk). cbn [bind].
  eexists. split; [reflexivity|].
  assert (Hdm : digit_range (impl.digits multiplier)) by apply Hnm.
  rewrite !add_same_sign by congruence.
  destruct (add_magnitudes_spec multiplier multiplier Hdm Hdm)
    as [Hmd [Hmv [Hms Hmn]]].
  split; [|split; [congruence|]]. 2:split; [apply Hmn; left; split; [assumption|lia]|].
  2:split.
  2:{ rewrite Hmv, Hvm, Z.pow_add_r by lia. change (2 ^ 1) with 2. lia. }
  - now destruct (Z.testbit x k);
      [destruct (add_magnitudes_spec partial multiplier Hdp Hdm) as [_ [_ [-> _]]]|].
  - rewrite mod_pow2_succ_add by lia. destruct (Z.testbit x k); cbn [Z.b2z].
    + destruct (add_magnitudes_spec partial multiplier Hdp Hdm)
        as [Hpd [Hpv [Hps Hpn]]].
      split; [assumption|]. split; [rewrite Hpv, Hvp, Hvm; lia|].
      right. apply Hpn.
      destruct (Nat.le_ge_cases (List.length (impl.digits multiplier))
                  (List.length (impl.digits partial))) as [Hle|Hle].
      * destruct Hnp as [E|Hnp]; [|left; split; assumption].
        right. split; [assumption|]. rewrite E. simpl.
        destruct Hnm as [_ [Hne _]]. destruct (impl.digits multiplier);
          [contradiction|simpl; lia].
      * right. split; assumption.
    + split; [assumption|]. split; [lia|assumption].
Qed.

(** What [convert_to_decimal_string] prints: a minus sign for a negative
    value, then the digits of the magnitude without leading zeros. *)
Lemma render_spec nbits a x :
  0 < nbits -> rep nbits a x ->
  exists d,
    convert_to_decimal_string nbits a
    = Ok (string_of_list_ascii
            ((if signed nbits x <? 0 then ["-"%char] else [])
             ++ map digit_char (rev d))) /\
    digit_range d /\ dval d = Z.abs (signed nbits x) /\ (d = [0] \/ normal d).
Proof.
  intros Hn Hr. assert (Hx : 0 <= x < 2 ^ nbits) by apply Hr.
  unfold convert_to_decimal_string. rewrite (iszero_rep nbits a x Hr).
  assert (Hp : 2 ^ nbits = 2 * 2 ^ (nbits - 1)).
  { rewrite <- Z.pow_succ_r by lia. f_equal. lia. }
  assert (Hpp : 0 < 2 ^ (nbits - 1)) by (apply pow2_pos; lia).
  destruct (Z.eqb_spec x 0) as [E|E].
  - subst x. exists [0].
    replace (signed nbits 0) with 0
      by (unfold signed; destruct (Z.ltb_spec 0 (2 ^ (nbits - 1))); lia).
    split; [reflexivity|]. split; [constructor; [lia|constructor]|].
    split; [reflexivity|]. now left.
  - rewrite (sign_rep nbits a x Hn Hr). cbn [bind].
    rewrite signed_neg_iff by assumption.
    assert (Hnum : exists number,
               (if signed nbits x <? 0 then twos_complement nbits a else Ok a)
               = Ok number /\ rep nbits number (Z.abs (signed nbits x))).
    { unfold signed. destruct (Z.ltb_spec x (2 ^ (nbits - 1))).
      - destruct (Z.ltb_spec x 0); [lia|]. exists a. split; [reflexivity|].
        now rewrite Z.abs_eq by lia.
      - destruct (Z.ltb_spec (x - 2 ^ nbits) 0); [|lia].
        destruct (twos_complement_rep nbits a x Hn Hr) as [c [Hc Hrep]].
        exists c. split; [assumption|].
        replace (Z.abs (x - 2 ^ nbits)) with ((- x) mod 2 ^ nbits); [assumption|].
        symmetry. apply (Z.mod_unique _ _ (-1)); [left; lia|lia]. }
    destruct Hnum as [number [-> Hnum]]. cbn [bind].
    set (m := Z.abs (signed nbits x)) in *.
    destruct (for_each_range (render_inv m) (render_step nbits number) 0 nbits
                (impl.mk_decimal [0] false, impl.mk_decimal [1] false))
      as [[partial multiplier] [-> Hinv]]; [lia| | |].
    + cbn [render_inv impl.sign impl.digits].
      split; [reflexivity|]. split; [reflexivity|].
      split; [split; [constructor; [lia|constructor]|split; [discriminate|simpl; lia]]|].
      split; [reflexivity|]. split; [constructor; [lia|constructor]|].
      split; [now rewrite Z.pow_0_r, Z.mod_1_r|now left].
    + intros i st Hi Hst. now apply (render_step_inv nbits number m).
    + cbn [bind]. destruct Hinv as [_ [_ [_ [_ [Hdp [Hvp Hnp]]]]]].
      exists (impl.digits partial).
      rewrite flat_map_show_int by now apply digit_range_rev.
      split; [reflexivity|]. split; [assumption|]. split; [|assumption].
      rewrite Hvp. apply Z.mod_small. apply Hnum.
Qed.

(* ------------------------------------------------------------------ *)
(** ** Parsing a decimal digit string *)

Lemma charLookup_digit d : 0 <= d <= 9 -> charLookup_at (digit_char d) = Ok d.
Proof. intros H. each_digit d H; reflexivity. Qed.

Lemma digit_char_class d : 0 <= d <= 9 -> in_class "0" "9" (digit_char d) = true.
Proof. intros H. each_digit d H; reflexivity. Qed.

Lemma digit_char_hex_marker d :
  0 <= d <= 9 ->
  Ascii.eqb (digit_char d) "x" || Ascii.eqb (digit_char d) "X" = false.
Proof. intros H. each_digit d H; reflexivity. Qed.

Lemma digit_char_nonzero d :
  1 <= d <= 9 -> Ascii.eqb (digit_char d) "0" = false.
Proof.
  intros H. assert (H' : 0 <= d <= 9) by lia. each_digit d H'; try reflexivity; lia.
Qed.

Lemma decimal_loop_rep nbits :
  0 < nbits ->
  forall ds value scale v sc,
    digit_range ds -> rep nbits value v -> rep nbits scale sc ->
    exists value' scale',
      for_each (map digit_char ds) (decimal_step nbits) (value, scale)
      = Ok (value', scale') /\
      rep nbits value' ((v + sc * dval ds) mod 2 ^ nbits).
Proof.
  intros Hn. assert (Hnz : 2 ^ nbits <> 0) by (apply Z.pow_nonzero; lia).
  induction ds as [|d ds IH]; intros value scale v sc Hds Hv Hsc.
  - exists value, scale. split; [reflexivity|]. simpl dval.
    rewrite Z.mul_0_r, Z.add_0_r, Z.mod_small by apply Hv. assumption.
  - inversion Hds as [|? ? Hd Hds']; subst. cbv beta in Hd.
    cbn [map for_each]. unfold decimal_step at 1.
    rewrite charLookup_digit by assumption. cbn [bind].
    assert (H63 : 10 < 2 ^ 63) by (vm_compute; reflexivity).
    destruct (of_int_rep nbits d Hn ltac:(lia)) as [digit [-> Hdigit]]. cbn [bind].
    destruct (mul_rep nbits scale digit _ _ Hn Hsc Hdigit) as [p [-> Hp]]. cbn [bind].
    destruct (of_int_rep nbits 10 Hn ltac:(lia)) as [ten [-> Hten]]. cbn [bind].
    destruct (mul_assign_rep nbits scale ten _ _ Hn Hsc Hten) as [scale' [-> Hscale']].
    cbn [bind].
    pose proof (add_assign_rep nbits value p _ _ Hn Hv Hp) as Hvalue'.
    destruct (IH _ _ _ _ Hds' Hvalue' Hscale') as [value'' [scale'' [Hloop Hrep]]].
    exists value'', scale''. split; [assumption|].
    replace ((v + sc * dval (d :: ds)) mod 2 ^ nbits)
      with (((v + (sc * (d mod 2 ^ nbits)) mod 2 ^ nbits) mod 2 ^ nbits
             + (sc * (10 mod 2 ^ nbits)) mod 2 ^ nbits * dval ds) mod 2 ^ nbits);
      [assumption|].
    rewrite dval_cons.
    rewrite Z.mul_mod_idemp_r, Z.add_mod_idemp_r by assumption.
    rewrite Z.mul_mod_idemp_r, Z.add_mod_idemp_l by assumption.
    rewrite <- (Z.add_mod_idemp_r _ (_ * dval ds)) by assumption.
    rewrite Z.mul_mod_idemp_l, Z.add_mod_idemp_r by assumption.
    f_equal. ring.
Qed.

Lemma normal_top d :
  normal d -> exists d' t, d = d' ++ [t] /\ 1 <= t <= 9 /\ digit_range d'.
Proof.
  intros [Hd [Hne Hv]].
  destruct (exists_last Hne) as [d' [t ->]]. exists d', t.
  apply Forall_app in Hd. destruct Hd as [Hd' Ht].
  inversion Ht as [|? ? Ht' _]; subst. cbv beta in Ht'.
  split; [reflexivity|]. split; [|assumption].
  rewrite dval_app, length_app in Hv. rewrite dval_cons in Hv.
  simpl dval in Hv. simpl List.length in Hv.
  replace (Z.of_nat (List.length d' + 1) - 1) with (Z.of_nat (List.length d')) in Hv by lia.
  pose proof (dval_bounds d' Hd') as Hb.
  destruct (Z.eq_dec t 0); [subst; lia|lia].
Qed.

(** [parse] of a digit string without leading zeros takes the decimal
    branch and accumulates the value modulo [2 ^ nbits]. *)
Lemma parse_digits nbits d value0 :
  0 < nbits -> digit_range d -> (d = [0] \/ normal d) ->
  exists v,
    parse nbits (string_of_list_ascii (map digit_char (rev d))) value0
    = Ok (true, v) /\
    rep nbits v (dval d mod 2 ^ nbits).
Proof.
  intros Hn Hd Hnorm. unfold parse.
  rewrite list_ascii_of_string_of_list_ascii.
  assert (Hoct : octal_regex (map digit_char (rev d)) = false).
  { destruct Hnorm as [->|Hnorm]; [reflexivity|].
    destruct (normal_top d Hnorm) as [d' [t [-> [Ht _]]]].
    rewrite rev_app_distr. cbn [rev app map]. unfold octal_regex.
    destruct (map digit_char (rev d')); [reflexivity|].
    now rewrite digit_char_nonzero by assumption. }
  assert (Hhex : hex_regex (map digit_char (rev d)) = false).
  { pose proof (digit_range_rev d Hd) as Hr.
    destruct (rev d) as [|c0 [|c1 l]]; try reflexivity.
    inversion Hr as [|? ? _ Hr']; subst. inversion Hr' as [|? ? Hc1 _]; subst.
    cbv beta in Hc1. cbn [map]. unfold hex_regex.
    destruct (map digit_char l); [reflexivity|].
    rewrite digit_char_hex_marker by assumption.
    now rewrite andb_false_r. }
  assert (Hdec : decimal_regex (map digit_char (rev d)) = true).
  { pose proof (digit_range_rev d Hd) as Hr.
    assert (Hne : rev d <> []).
    { destruct Hnorm as [->|[_ [Hne _]]]; [discriminate|].
      intros E. apply Hne. apply (f_equal (@rev Z)) in E.
      now rewrite rev_involutive in E. }
    unfold decimal_regex. destruct (rev d) as [|c l] eqn:E; [contradiction|].
    rewrite <- E in *. cbn [map]. rewrite E at 1. cbn [map].
    apply forallb_forall. intros c' Hc'. apply in_map_iff in Hc'.
    destruct Hc' as [y [<- Hy]]. apply digit_char_class.
    unfold digit_range in Hr. rewrite Forall_forall in Hr. now apply Hr. }
  rewrite Hoct, Hhex, Hdec.
  assert (H63 : 1 < 2 ^ 63) by (vm_compute; reflexivity).
  destruct (of_int_rep nbits 1 Hn ltac:(lia)) as [one [-> Hone]]. cbn [bind].
  rewrite <- map_rev, rev_involutive.
  destruct (decimal_loop_rep nbits Hn d (clear nbits) one 0 _ Hd
              (rep_clear nbits Hn) Hone) as [v [scale [-> Hv]]].
  cbn [bind]. exists v. split; [reflexivity|].
  rewrite Z.add_0_l, Z.mul_mod_idemp_l in Hv by (apply Z.pow_nonzero; lia).
  now rewrite Z.mul_1_l in Hv.
Qed.

(* ================================================================== *)
(** * Properties of the specification *)

(* ------------------------------------------------------------------ *)
(** ** Decimal text round trip *)

Lemma sign_to_Z nbits a :
  0 < nbits -> valid nbits a = true -> sign nbits a = Ok (to_Z nbits a <? 0).
Proof.
  intros Hn Hv. pose proof (valid_rep nbits a Hn Hv) as Hr.
  rewrite (sign_rep nbits a _ Hn Hr). unfold to_Z.
  now rewrite signed_neg_iff by (assumption || apply Hr).
Qed.

Lemma parse_minus nbits l value0 :
  parse nbits (string_of_list_ascii ("-"%char :: l)) value0
  = Ok (false, clear nbits).
Proof.
  unfold parse. rewrite list_ascii_of_string_of_list_ascii.
  assert (Hoct : octal_regex ("-"%char :: l) = false) by (now destruct l).
  assert (Hhex : hex_regex ("-"%char :: l) = false) by (now destruct l as [|? [|? ?]]).
  now rewrite Hoct, Hhex.
Qed.

(** C1, the claim as stated fails: the 8-bit value -1 (all bits set) renders
    as "-1", which [parse] rejects, leaving zero instead of -1. *)
Lemma roundtrip_minus_one_fails :
  valid 8 [255] = true /\
  convert_to_decimal_string 8 [255] = Ok "-1"%string /\
  parse 8 "-1" (clear 8) = Ok (false, [0]) /\
  operator_eq [0] [255] = false.
Proof.
  split; [reflexivity|]. split; [vm_compute; reflexivity|].
  split; vm_compute; reflexivity.
Qed.

(** C1, amended: for every valid [integer<nbits>] value [a] rendering
    succeeds; when [a] is non-negative (sign bit clear), parsing the rendered
    decimal string succeeds and yields [a]; when [a] is negative the rendered
    string starts with a minus sign, which the parser's grammar does not
    accept, so [parse] reports failure and leaves the target cleared. *)
Theorem parse_render_roundtrip nbits a value0 :
  0 < nbits -> valid nbits a = true ->
  exists s,
    convert_to_decimal_string nbits a = Ok s /\
    (sign nbits a = Ok false -> parse nbits s value0 = Ok (true, a)) /\
    (sign nbits a = Ok true ->
     (exists rest, s = String "-"%char rest) /\
     parse nbits s value0 = Ok (false, clear nbits)).
Proof.
  intros Hn Hv. pose proof (valid_rep nbits a Hn Hv) as Hr.
  destruct (render_spec nbits a _ Hn Hr) as [d [Hs [Hd [Hval Hnorm]]]].
  rewrite (sign_to_Z nbits a Hn Hv). fold (to_Z nbits a) in Hs, Hval.
  eexists. split; [exact Hs|].
  assert (Hx : 0 <= val a < 2 ^ nbits) by apply Hr.
  destruct (Z.ltb_spec (to_Z nbits a) 0) as [Hneg|Hpos].
  - split; [discriminate|]. intros _. cbn [app]. split; [|apply parse_minus].
    cbn [string_of_list_ascii]. eexists. reflexivity.
  - split; [|discriminate]. intros _. cbn [app].
    destruct (parse_digits nbits d value0 Hn Hd Hnorm) as [v [-> Hrep]].
    do 2 f_equal. apply (rep_inj nbits _ _ (val a)); [|assumption].
    rewrite Hval, Z.abs_eq in Hrep by assumption. unfold to_Z in Hrep, Hpos.
    unfold signed in Hrep, Hpos.
    destruct (Z.ltb_spec (val a) (2 ^ (nbits - 1))); [|lia].
    now rewrite Z.mod_small in Hrep by assumption.
Qed.

Lemma parse_render_roundtrip_witness :
  (0 < 16 /\ valid 16 [57; 48] = true /\ sign 16 [57; 48] = Ok false /\
   exists s,
     convert_to_decimal_string 16 [57; 48] = Ok s /\
     parse 16 s [] = Ok (true, [57; 48])) /\
  (0 < 8 /\ valid 8 [156] = true /\ sign 8 [156] = Ok true /\
   exists s rest,
     convert_to_decimal_string 8 [156] = Ok s /\ s = String "-"%char rest /\
     parse 8 s [] = Ok (false, clear 8)).
Proof.
  split.
  - split; [lia|]. split; [reflexivity|]. split; [reflexivity|].
    destruct (parse_render_roundtrip 16 [57; 48] []) as [s [Hs [Hpos _]]];
      [lia|reflexivity|].
    exists s. split; [exact Hs|]. apply Hpos. reflexivity.
  - split; [lia|]. split; [reflexivity|]. split; [reflexivity|].
    destruct (parse_render_roundtrip 8 [156] []) as [s [Hs [_ Hneg]]];
      [lia|reflexivity|].
    destruct (Hneg eq_refl) as [[rest Hrest] Hparse].
    exists s, rest. split; [exact Hs|]. split; [exact Hrest|exact Hparse].
Defined.

(* ------------------------------------------------------------------ *)
(** ** Division *)

(** C2: for valid [a] and [b] with [b] nonzero, [idiv] returns a quotient
    [q] and remainder [r] with [a == q * b + r]; a nonzero remainder has the
    sign of [a]; the quotient is the one truncated toward zero. *)
Theorem idiv_identity throw_arith nbits a b :
  0 < nbits -> valid nbits a = true -> valid nbits b = true ->
  iszero b = false ->
  exists q r,
    idiv throw_arith nbits a b = Ok (mk_idiv_t q r) /\
    div throw_arith nbits a b = Ok q /\
    modulo throw_arith nbits a b = Ok r /\
    (exists p, mul nbits q b = Ok p /\ operator_eq a (add nbits p r) = true) /\
    (iszero r = false -> sign nbits r = sign nbits a) /\
    val q = Z.quot (to_Z nbits a) (to_Z nbits b) mod 2 ^ nbits /\
    val r = Z.rem (to_Z nbits a) (to_Z nbits b) mod 2 ^ nbits.
Proof.
  intros Hn Hva Hvb Hnz.
  pose proof (valid_rep nbits a Hn Hva) as Ha.
  pose proof (valid_rep nbits b Hn Hvb) as Hb.
  rewrite (iszero_rep nbits b _ Hb) in Hnz. apply Z.eqb_neq in Hnz.
  destruct (idiv_rep throw_arith nbits a b _ _ Hn Ha Hb Hnz) as [q [r [Hdiv [Hq Hr]]]].
  fold (to_Z nbits a) (to_Z nbits b) in Hq, Hr.
  assert (Hxa : 0 <= val a < 2 ^ nbits) by apply Ha.
  assert (Hxb : 0 <= val b < 2 ^ nbits) by apply Hb.
  pose proof (signed_mod nbits (val a) Hn Hxa) as Hma.
  pose proof (signed_mod nbits (val b) Hn Hxb) as Hmb.
  pose proof (signed_range nbits (val a) Hn Hxa) as Hsa.
  pose proof (signed_range nbits (val b) Hn Hxb) as Hsb.
  fold (to_Z nbits a) in Hma, Hsa. fold (to_Z nbits b) in Hmb, Hsb.
  set (sa := to_Z nbits a) in *. set (sb := to_Z nbits b) in *.
  assert (Hsb0 : sb <> 0).
  { intros E. rewrite E, Z.mod_0_l in Hmb by lia. lia. }
  assert (HN : 2 ^ nbits <> 0) by lia.
  assert (Hp : 2 ^ nbits = 2 * 2 ^ (nbits - 1)).
  { rewrite <- Z.pow_succ_r by lia. f_equal. lia. }
  exists q, r. split; [assumption|].
  split; [unfold div; now rewrite Hdiv|].
  split; [unfold modulo; now rewrite Hdiv|].
  split; [|split; [|split; [apply Hq|apply Hr]]].
  - destruct (mul_rep nbits q b _ _ Hn Hq Hb) as [p [Hmul Hp']].
    exists p. split; [assumption|].
    pose proof (add_rep nbits p r _ _ Hn Hp' Hr) as Hsum.
    rewrite (eq_rep nbits a _ _ _ Ha Hsum). apply Z.eqb_eq.
    rewrite <- Hmb at 1. rewrite <- Z.mul_mod, <- Z.add_mod by assumption.
    rewrite (Z.mul_comm (Z.quot sa sb) sb), <- Z.quot_rem' . symmetry. exact Hma.
  - intros Hrz. rewrite (iszero_rep nbits r _ Hr) in Hrz. apply Z.eqb_neq in Hrz.
    rewrite (sign_rep nbits r _ Hn Hr), (sign_rep nbits a _ Hn Ha). do 2 f_equal.
    pose proof (Z.rem_mod sa sb Hsb0) as Hrem.
    assert (HB : 0 < Z.abs sb) by lia.
    pose proof (Z.mod_pos_bound (Z.abs sa) (Z.abs sb) HB) as Hbound.
    set (R := Z.rem sa sb) in *. set (m := Z.abs sa mod Z.abs sb) in *.
    assert (HR0 : R <> 0).
    { intros E. rewrite E, Z.mod_0_l in Hrz by assumption. lia. }
    assert (Hxa' : val a = if sa <? 0 then sa + 2 ^ nbits else sa).
    { rewrite <- Hma. destruct (Z.ltb_spec sa 0).
      - symmetry. apply (Z.mod_unique _ _ (-1)); [left; lia|lia].
      - apply Z.mod_small. lia. }
    destruct (Z.ltb_spec sa 0) as [Hneg|Hpos].
    + assert (HRv : R mod 2 ^ nbits = R + 2 ^ nbits).
      { symmetry. apply (Z.mod_unique _ _ (-1)); [left; nia|lia]. }
      rewrite HRv, Hxa'. cases_cmp; nia.
    + assert (HRv : R mod 2 ^ nbits = R) by (apply Z.mod_small; nia).
      rewrite HRv, Hxa'. cases_cmp; nia.
Qed.

(** Dividing -7 by 2 in 16 bits: quotient -3, remainder -1. *)
Lemma idiv_identity_witness :
  0 < 16 /\ valid 16 [249; 255] = true /\ valid 16 [2; 0] = true /\
  iszero [2; 0] = false /\
  exists q r,
    idiv true 16 [249; 255] [2; 0] = Ok (mk_idiv_t q r) /\
    div true 16 [249; 255] [2; 0] = Ok q /\
    modulo true 16 [249; 255] [2; 0] = Ok r /\
    (exists p, mul 16 q [2; 0] = Ok p /\ operator_eq [249; 255] (add 16 p r) = true) /\
    (iszero r = false -> sign 16 r = sign 16 [249; 255]) /\
    val q = Z.quot (to_Z 16 [249; 255]) (to_Z 16 [2; 0]) mod 2 ^ 16 /\
    val r = Z.rem (to_Z 16 [249; 255]) (to_Z 16 [2; 0]) mod 2 ^ 16.
Proof.
  split; [lia|]. split; [reflexivity|]. split; [reflexivity|].
  split; [reflexivity|].
  apply (idiv_identity true 16 [249; 255] [2; 0]); [lia|reflexivity..].
Defined.

Example idiv_minus_seven_by_two :
  idiv true 16 [249; 255] [2; 0] = Ok (mk_idiv_t [253; 255] [255; 255])
  /\ to_Z 16 [253; 255] = -3 /\ to_Z 16 [255; 255] = -1.
Proof. repeat split; vm_compute; reflexivity. Qed.

(* ------------------------------------------------------------------ *)
(** ** Invariant I1 and the raw byte mutators *)

Lemma raw_bytes_wf n value :
  List.length (raw_bytes n value) = n /\ byte_range (raw_bytes n value).
Proof.
  revert value. induction n as [|n IH]; intros value; simpl.
  - split; [reflexivity|constructor].
  - destruct (IH (Z.shiftr value 8)) as [Hl Hr]. split; [now rewrite Hl|].
    constructor; [apply u8_range|assumption].
Qed.

(** [set_raw_bits] re-masks: its result satisfies invariant I1. *)
Lemma set_raw_bits_valid nbits value :
  0 < nbits -> valid nbits (set_raw_bits nbits value) = true.
Proof.
  intros Hn. unfold set_raw_bits.
  destruct (raw_bytes_wf (Z.to_nat (nrBytes nbits)) value) as [Hl Hr].
  pose proof (nrBytes_bounds nbits Hn).
  eapply (rep_valid nbits); [assumption|].
  apply mask_ms_byte_rep; [assumption|]. split; [lia|assumption].
Qed.

Lemma keeps_masking_rep nbits m v :
  0 < nbits -> (exists r, m = Ok r /\ rep nbits r v) -> keeps_masking nbits m.
Proof.
  intros Hn [r [Hm Hr]]. exists r. split; [assumption|].
  now apply (rep_valid nbits r v).
Qed.

Lemma decrement_rep nbits b x :
  0 < nbits -> rep nbits b x ->
  exists b', decrement nbits b = Ok b' /\ rep nbits b' ((x - 1) mod 2 ^ nbits).
Proof.
  intros Hn Hr. unfold decrement.
  destruct (of_int_rep nbits 1 Hn ltac:(lia)) as [one [-> Hone]]. cbn [bind].
  destruct (sub_assign_rep nbits b one _ _ Hn Hr Hone) as [d [-> Hd]]. cbn [bind].
  assert (HN : 2 ^ nbits <> 0) by (apply Z.pow_nonzero; lia).
  rewrite Zminus_mod_idemp_r in Hd.
  rewrite (mask_ms_byte_id nbits _ _ Hn Hd). eauto.
Qed.

(** The mutators other than [setbyte] re-establish invariant I1: the bit
    mutators, [flip], the arithmetic and shift assignments, increment and
    decrement, negation and [bitcopy] all return a valid value when given
    valid operands. *)
Lemma mutators_keep_masking nbits b c i (v : bool) s :
  0 < nbits -> valid nbits b = true -> valid nbits c = true ->
  0 <= i < nbits ->
  valid nbits (clear nbits) = true /\
  keeps_masking nbits (set nbits b i) /\
  keeps_masking nbits (reset nbits b i) /\
  keeps_masking nbits (set_to nbits b i v) /\
  valid nbits (flip nbits b) = true /\
  valid nbits (add_assign nbits b c) = true /\
  keeps_masking nbits (sub_assign nbits b c) /\
  keeps_masking nbits (mul_assign nbits b c) /\
  keeps_masking nbits (shl_assign nbits b s) /\
  keeps_masking nbits (shr_assign nbits b s) /\
  keeps_masking nbits (increment nbits b) /\
  keeps_masking nbits (decrement nbits b) /\
  keeps_masking nbits (neg nbits b) /\
  keeps_masking nbits (bitcopy nbits nbits c).
Proof.
  intros Hn Hvb Hvc Hi.
  pose proof (valid_rep nbits b Hn Hvb) as Hb.
  pose proof (valid_rep nbits c Hn Hvc) as Hc.
  split; [apply (rep_valid nbits _ 0 Hn), rep_clear; assumption|].
  split; [eapply keeps_masking_rep; [assumption|]; eapply set_rep; eassumption|].
  split; [eapply keeps_masking_rep; [assumption|]; eapply reset_rep; eassumption|].
  split; [eapply keeps_masking_rep; [assumption|]; eapply set_to_rep; eassumption|].
  split; [eapply rep_valid; [assumption|]; eapply flip_rep; eassumption|].
  split; [eapply rep_valid; [assumption|]; eapply add_assign_rep; eassumption|].
  split; [eapply keeps_masking_rep; [assumption|]; eapply sub_assign_rep; eassumption|].
  split; [eapply keeps_masking_rep; [assumption|]; eapply mul_assign_rep; eassumption|].
  split.
  { destruct (Z.lt_ge_cases s 0).
    - eapply keeps_masking_rep; [assumption|]. unfold shl_assign.
      destruct (Z.eqb_spec s 0); [lia|]. destruct (Z.ltb_spec s 0); [|lia].
      apply shr_body_rep; [assumption|lia|eassumption].
    - eapply keeps_masking_rep; [assumption|]. eapply shl_assign_rep; eassumption. }
  split.
  { destruct (Z.lt_ge_cases s 0).
    - eapply keeps_masking_rep; [assumption|]. unfold shr_assign.
      destruct (Z.eqb_spec s 0); [lia|]. destruct (Z.ltb_spec s 0); [|lia].
      apply shl_body_rep; [assumption|lia|eassumption].
    - eapply keeps_masking_rep; [assumption|]. eapply shr_assign_rep; eassumption. }
  split; [eapply keeps_masking_rep; [assumption|]; eapply increment_rep; eassumption|].
  split; [eapply keeps_masking_rep; [assumption|]; eapply decrement_rep; eassumption|].
  split; [eapply keeps_masking_rep; [assumption|]; eapply neg_rep; eassumption|].
  eapply keeps_masking_rep; [assumption|]. eapply bitcopy_rep; eassumption.
Qed.

(** C3, evaluated at the failing input: on the zero [integer<4>],
    [setbyte(0, 0xFF)] returns with storage bit 4 set, so invariant I1 is
    broken, whereas [set_raw_bits(0xFF)] masks the byte down to [0x0F];
    [parse] of "0xFF" reaches the same [setbyte] and returns success with
    the unmasked byte. *)
Lemma setbyte_breaks_masking :
  valid 4 (clear 4) = true /\
  setbyte 4 (clear 4) 0 255 = Ok [255] /\
  storage_bit [255] 4 = true /\
  valid 4 [255] = false /\
  set_raw_bits 4 255 = [15] /\
  parse 4 "0xFF" (clear 4) = Ok (true, [255]).
Proof. repeat split; vm_compute; reflexivity. Qed.

(* ------------------------------------------------------------------ *)
(** ** [unpad] *)

(** C4, evaluated at the failing input: for the digits of 201 (least
    significant first) [unpad] sees the zero at index 1 and pops the last
    element, the nonzero digit 2; the value changes from 201 to 1. *)
Lemma unpad_drops_nonzero_digit :
  impl.unpad_digits [1; 0; 2] = [1; 0] /\
  dval [1; 0; 2] = 201 /\ dval (impl.unpad_digits [1; 0; 2]) = 1.
Proof. repeat split; vm_compute; reflexivity. Qed.

(* ------------------------------------------------------------------ *)
(** ** Negation *)

Lemma neg_wf nbits a :
  0 < nbits -> wf nbits a ->
  exists na, neg nbits a = Ok na /\ rep nbits na ((- val a) mod 2 ^ nbits).
Proof.
  intros Hn Hwf. unfold neg.
  destruct (of_int_rep nbits 1 Hn ltac:(lia)) as [one [-> Hone]]. cbn [bind].
  eexists. split; [reflexivity|].
  pose proof (add_assign_rep nbits _ one _ _ Hn (flip_wf nbits a Hn Hwf) Hone) as H.
  assert (HN : 2 ^ nbits <> 0) by (apply Z.pow_nonzero; lia).
  rewrite Z.add_mod_idemp_r, Z.add_mod_idemp_l in H by assumption.
  now rewrite Z.succ_lnot in H.
Qed.

Lemma min_int_rep nbits :
  0 < nbits -> exists m, min_int nbits = Ok m /\ rep nbits m (2 ^ (nbits - 1)).
Proof.
  intros Hn. unfold min_int, setzero.
  destruct (set_to_rep nbits (clear nbits) 0 (nbits - 1) true Hn
              (rep_clear nbits Hn) ltac:(lia)) as [m [Hm Hrep]].
  exists m. split; [assumption|].
  rewrite setbit_add in Hrep by (try apply pow2_pos; lia).
  now rewrite Z.add_0_l in Hrep.
Qed.

(** C5: for every storage content [a] of an [integer<nbits>], [a + (-a)]
    is zero, and the negation of the minimum value (only bit [nbits - 1]
    set) is that same value. *)
Theorem add_neg_is_zero nbits a :
  0 < nbits -> wf nbits a ->
  (exists na, neg nbits a = Ok na /\
              add nbits a na = setzero nbits /\
              iszero (add nbits a na) = true) /\
  (exists m, min_int nbits = Ok m /\ neg nbits m = Ok m).
Proof.
  intros Hn Hwf. assert (HN : 2 ^ nbits <> 0) by (apply Z.pow_nonzero; lia).
  split.
  - destruct (neg_wf nbits a Hn Hwf) as [na [Hneg Hna]].
    exists na. split; [assumption|].
    assert (Hsum : rep nbits (add nbits a na) 0).
    { pose proof (add_assign_wf nbits a na Hn Hwf (proj1 Hna)) as H.
      destruct Hna as [_ [Hv _]]. rewrite Hv in H.
      rewrite Z.add_mod_idemp_r in H by assumption.
      now rewrite Z.add_opp_diag_r, Z.mod_0_l in H by assumption. }
    split; [apply (rep_inj nbits _ _ 0 Hsum (rep_clear nbits Hn))|].
    now rewrite (iszero_rep nbits _ 0 Hsum).
  - destruct (min_int_rep nbits Hn) as [m [Hmin Hm]].
    exists m. split; [assumption|].
    destruct (neg_rep nbits m _ Hn Hm) as [m' [Hneg Hm']].
    rewrite Hneg. f_equal. apply (rep_inj nbits _ _ (2 ^ (nbits - 1))); [|assumption].
    assert (Hp : 2 ^ nbits = 2 * 2 ^ (nbits - 1)).
    { rewrite <- Z.pow_succ_r by lia. f_equal. lia. }
    assert (0 < 2 ^ (nbits - 1)) by (apply pow2_pos; lia).
    assert (E : (- 2 ^ (nbits - 1)) mod 2 ^ nbits = 2 ^ (nbits - 1)).
    { symmetry. apply (Z.mod_unique _ _ (-1)); [left; lia|lia]. }
    rewrite E in Hm'. exact Hm'.
Qed.

Lemma add_neg_is_zero_witness :
  0 < 8 /\ wf 8 [37] /\
  (exists na, neg 8 [37] = Ok na /\
              add 8 [37] na = setzero 8 /\ iszero (add 8 [37] na) = true) /\
  (exists m, min_int 8 = Ok m /\ neg 8 m = Ok m).
Proof.
  assert (H : wf 8 [37]) by (split; [reflexivity|repeat constructor; lia]).
  split; [lia|]. split; [exact H|].
  apply (add_neg_is_zero 8 [37]); [lia|exact H].
Defined.

(* ------------------------------------------------------------------ *)
(** ** Wrap-around of addition and subtraction *)

(** C6: addition and subtraction of valid values always return (no
    exception) the sum and difference modulo [2 ^ nbits]; in 8 bits
    [127 + 1 = -128] and [-128 - 1 = 127]. *)
Theorem add_sub_wrap nbits a b :
  0 < nbits -> valid nbits a = true -> valid nbits b = true ->
  (val (add nbits a b) = (val a + val b) mod 2 ^ nbits /\
   valid nbits (add nbits a b) = true) /\
  (exists d, sub nbits a b = Ok d /\
             val d = (val a - val b) mod 2 ^ nbits /\
             valid nbits d = true) /\
  (exists x127 x1 m128,
     of_int 8 127 = Ok x127 /\ of_int 8 1 = Ok x1 /\ of_int 8 (-128) = Ok m128 /\
     to_Z 8 x127 = 127 /\ to_Z 8 x1 = 1 /\ to_Z 8 m128 = -128 /\
     add 8 x127 x1 = m128 /\ sub 8 m128 x1 = Ok x127).
Proof.
  intros Hn Hva Hvb.
  pose proof (valid_rep nbits a Hn Hva) as Ha.
  pose proof (valid_rep nbits b Hn Hvb) as Hb.
  split; [|split].
  - pose proof (add_rep nbits a b _ _ Hn Ha Hb) as H.
    split; [apply H|now apply (rep_valid nbits _ _ Hn H)].
  - destruct (sub_assign_rep nbits a b _ _ Hn Ha Hb) as [d [Hd Hrep]].
    exists d. split; [exact Hd|].
    split; [apply Hrep|now apply (rep_valid nbits _ _ Hn Hrep)].
  - exists [127], [1], [128]. repeat split; vm_compute; reflexivity.
Qed.

Lemma add_sub_wrap_witness :
  0 < 8 /\ valid 8 [127] = true /\ valid 8 [1] = true /\
  (val (add 8 [127] [1]) = (val [127] + val [1]) mod 2 ^ 8 /\
   valid 8 (add 8 [127] [1]) = true) /\
  (exists d, sub 8 [127] [1] = Ok d /\
             val d = (val [127] - val [1]) mod 2 ^ 8 /\
             valid 8 d = true) /\
  (exists x127 x1 m128,
     of_int 8 127 = Ok x127 /\ of_int 8 1 = Ok x1 /\ of_int 8 (-128) = Ok m128 /\
     to_Z 8 x127 = 127 /\ to_Z 8 x1 = 1 /\ to_Z 8 m128 = -128 /\
     add 8 x127 x1 = m128 /\ sub 8 m128 x1 = Ok x127).
Proof.
  split; [lia|]. split; [reflexivity|]. split; [reflexivity|].
  apply (add_sub_wrap 8 [127] [1]); [lia|reflexivity..].
Defined.

(* ------------------------------------------------------------------ *)
(** ** Shifts *)






Example shift_right_of_negative :
  to_Z 8 [156] = -100 /\ shr_assign 8 [156] 2 = Ok [39] /\
  shl_assign 8 [156] (-2) = Ok [39] /\ shr_assign 8 [156] 8 = Ok [0].
Proof. repeat split; vm_compute; reflexivity. Qed.

(* ------------------------------------------------------------------ *)
(** ** What [unpad] does guarantee *)

Lemma unpad_loop_length idx d :
  (List.length d - List.length idx <= List.length (impl.unpad_loop idx d))%nat.
Proof.
  revert d. induction idx as [|i idx IH]; intros d; cbn [impl.unpad_loop List.length].
  - lia.
  - specialize (IH (if get d i =? 0 then removelast d else d)).
    destruct (get d i =? 0); [|lia].
    assert (List.length (removelast d) = (List.length d - 1)%nat).
    { destruct d as [|x t] using rev_ind; [reflexivity|].
      rewrite removelast_last, length_app. simpl. lia. }
    lia.
Qed.

(** [unpad] always leaves at least one digit. *)
Lemma unpad_keeps_a_digit d : d <> [] -> impl.unpad_digits d <> [].
Proof.
  intros Hd. unfold impl.unpad_digits.
  set (idx := down_range (Z.of_nat (List.length d) - 1) 1).
  assert (Hlen : List.length idx = (List.length d - 1)%nat).
  { subst idx. unfold down_range, range.
    rewrite length_rev, length_map, length_seq. lia. }
  pose proof (unpad_loop_length idx d) as H. rewrite Hlen in H.
  intros E. rewrite E in H. destruct d as [|x t]; [contradiction|].
  simpl List.length in H. lia.
Qed.

(* ------------------------------------------------------------------ *)
(** ** Parse failures *)

Lemma hex_step_success nbits st c st' :
  hex_step nbits st c = Ok st' ->
  hs_bSuccess st = true \/ hex_marker c = true ->
  hs_bSuccess st' = true.
Proof.
  destruct st as [byte byteIndex odd value bSuccess]. unfold hex_step.
  cbn [hs_bSuccess]. fold (hex_marker c).
  destruct (Ascii.eqb_spec c "'") as [E|E].
  - subst c. intros H [Hs|Hm]; [|discriminate]. now injection H as <-.
  - destruct (hex_marker c).
    + intros H _. destruct odd.
      * destruct (setbyte nbits value byteIndex (u8 byte)); [|discriminate].
        cbn [bind] in H. now injection H as <-.
      * cbn [bind] in H. now injection H as <-.
    + intros H [Hs|Hm]; [|discriminate]. destruct (charLookup_at c); [|destruct odd; discriminate].
      destruct odd; cbn [bind] in H.
      * destruct (setbyte nbits value byteIndex _); [|discriminate].
        cbn [bind] in H. now injection H as <-.
      * now injection H as <-.
Qed.

Lemma hex_loop_success nbits cs :
  forall st st',
    for_each cs (hex_step nbits) st = Ok st' ->
    hs_bSuccess st = true \/ existsb hex_marker cs = true ->
    hs_bSuccess st' = true.
Proof.
  induction cs as [|c cs IH]; intros st st' Hloop Hs.
  - cbn in Hloop. injection Hloop as <-. destruct Hs; [assumption|discriminate].
  - cbn [for_each] in Hloop.
    destruct (hex_step nbits st c) as [st1|] eqn:Hstep; [|discriminate].
    cbn [bind] in Hloop. apply (IH st1 st' Hloop).
    cbn [existsb] in Hs. destruct (hex_marker c) eqn:Hm.
    + left. apply (hex_step_success nbits st c st1 Hstep). now right.
    + destruct Hs as [Hs|Hs]; [|now right].
      left. apply (hex_step_success nbits st c st1 Hstep). now left.
Qed.

Lemma hex_regex_marker chars :
  hex_regex chars = true -> existsb hex_marker (rev chars) = true.
Proof.
  intros H. destruct chars as [|c0 [|c1 [|c2 rest]]]; try discriminate.
  unfold hex_regex in H. apply andb_prop in H. destruct H as [H _].
  apply andb_prop in H. destruct H as [_ H].
  apply existsb_exists. exists c1. split; [|exact H].
  apply -> in_rev. right. now left.
Qed.

(** C8: whenever [parse] returns false the target holds the cleared (zero)
    value; every string that matches the octal pattern makes [parse] return
    false with the target cleared. *)
Theorem parse_failure_clears nbits number value0 :
  (forall r, parse nbits number value0 = Ok (false, r) -> r = clear nbits) /\
  (octal_regex (list_ascii_of_string number) = true ->
   parse nbits number value0 = Ok (false, clear nbits)).
Proof.
  unfold parse. split.
  - intros r.
    destruct (octal_regex (list_ascii_of_string number)).
    { intros H. now injection H as <-. }
    destruct (hex_regex (list_ascii_of_string number)) eqn:Hhex.
    { destruct (for_each _ (hex_step nbits) _) as [st|] eqn:Hloop; [|discriminate].
      cbn [bind]. intros H. injection H as Hs _. exfalso.
      apply hex_loop_success in Hloop; [congruence|].
      right. now apply hex_regex_marker. }
    destruct (decimal_regex (list_ascii_of_string number)).
    { destruct (of_int nbits 1); [|discriminate]. cbn [bind].
      destruct (for_each _ (decimal_step nbits) _) as [[v sc]|]; discriminate. }
    intros H. now injection H as <-.
  - now intros ->.
Qed.

Lemma parse_failure_clears_witness :
  (forall r, parse 8 "017" [5] = Ok (false, r) -> r = clear 8) /\
  (octal_regex (list_ascii_of_string "017") = true ->
   parse 8 "017" [5] = Ok (false, clear 8)) /\
  octal_regex (list_ascii_of_string "017") = true /\
  parse 8 "017" [5] = Ok (false, [0]).
Proof.
  destruct (parse_failure_clears 8 "017" [5]) as [H1 H2].
  split; [exact H1|]. split; [exact H2|]. split; reflexivity.
Defined.

(* ------------------------------------------------------------------ *)
(** ** Division by zero *)

Lemma iszero_clear nbits b :
  0 < nbits -> wf nbits b -> iszero b = true -> b = clear nbits.
Proof.
  intros Hn [Hl Hb] Hz. rewrite iszero_val in Hz by assumption.
  apply Z.eqb_eq in Hz. destruct (wf_clear nbits Hn) as [Hl' Hb'].
  apply val_inj; try assumption; [lia|].
  rewrite Hz. unfold clear. now rewrite val_repeat_0.
Qed.

Lemma eq_refl_bytes b : operator_eq b b = true.
Proof. now apply eq_bytes_spec. Qed.

(** C9: with [INTEGER_THROW_ARITHMETIC_EXCEPTION] set, [idiv], [divide],
    [remainder] and the operators [/] and [%] throw
    [integer_divide_by_zero] on a zero divisor, whatever the dividend; no
    quotient/remainder pair is returned. *)
Theorem zero_divisor_throws nbits a b :
  0 < nbits -> wf nbits b -> iszero b = true ->
  idiv true nbits a b = Throw integer_divide_by_zero /\
  divide true nbits a b = Throw integer_divide_by_zero /\
  remainder true nbits a b = Throw integer_divide_by_zero /\
  div true nbits a b = Throw integer_divide_by_zero /\
  modulo true nbits a b = Throw integer_divide_by_zero.
Proof.
  intros Hn Hwf Hz. rewrite (iszero_clear nbits b Hn Hwf Hz).
  assert (Hc : check_divisor true nbits (clear nbits) = Throw integer_divide_by_zero).
  { unfold check_divisor. rewrite of_int_0. cbn [bind].
    now rewrite eq_refl_bytes. }
  assert (Hi : idiv true nbits a (clear nbits) = Throw integer_divide_by_zero).
  { unfold idiv. now rewrite Hc. }
  split; [exact Hi|].
  unfold divide, remainder, div, modulo. now rewrite Hc, Hi.
Qed.

Lemma zero_divisor_throws_witness :
  0 < 8 /\ wf 8 [0] /\ iszero [0] = true /\
  idiv true 8 [100] [0] = Throw integer_divide_by_zero /\
  divide true 8 [100] [0] = Throw integer_divide_by_zero /\
  remainder true 8 [100] [0] = Throw integer_divide_by_zero /\
  div true 8 [100] [0] = Throw integer_divide_by_zero /\
  modulo true 8 [100] [0] = Throw integer_divide_by_zero.
Proof.
  assert (H : wf 8 [0]) by (split; [reflexivity|repeat constructor; lia]).
  split; [lia|]. split; [exact H|]. split; [reflexivity|].
  apply (zero_divisor_throws 8 [100] [0]); [lia|exact H|reflexivity].
Defined.

(* ------------------------------------------------------------------ *)
(** ** Hexadecimal input wider than the storage *)

Lemma hex_digit_facts c :
  hex_digit c = true ->
  Ascii.eqb c "'" = false /\ Ascii.eqb c "x" || Ascii.eqb c "X" = false /\
  hex_class c = true /\ exists n, charLookup_at c = Ok n.
Proof.
  destruct c as [[] [] [] [] [] [] [] []]; intros H; try discriminate H;
    (split; [reflexivity|split; [reflexivity|split; [reflexivity|]]]);
    eexists; reflexivity.
Qed.

Lemma for_each_app {I S : Type} (l1 l2 : list I) (body : S -> I -> result S) s :
  for_each (l1 ++ l2) body s = (s1 <- for_each l1 body s ;; for_each l2 body s1).
Proof.
  revert s. induction l1 as [|i l1 IH]; intros s; [reflexivity|].
  cbn [app for_each]. destruct (body s i); [apply IH|reflexivity].
Qed.

(** The hexadecimal loop over [l], a run of digit characters: either some
    [setbyte] threw, or every second digit completed a byte within the
    storage. *)
Lemma hex_digits_loop nbits l :
  forallb hex_digit l = true ->
  forall st,
    0 <= hs_byteIndex st <= nrBytes nbits ->
    for_each l (hex_step nbits) st = Throw integer_byte_index_out_of_bounds \/
    exists st',
      for_each l (hex_step nbits) st = Ok st' /\
      2 * hs_byteIndex st' + Z.b2z (hs_odd st')
      = 2 * hs_byteIndex st + Z.b2z (hs_odd st) + Z.of_nat (List.length l) /\
      0 <= hs_byteIndex st' <= nrBytes nbits.
Proof.
  induction l as [|c l IH]; intros Hl st Hidx.
  - right. exists st. split; [reflexivity|]. split; [simpl; lia|assumption].
  - cbn [forallb] in Hl. apply andb_prop in Hl. destruct Hl as [Hc Hl].
    destruct (hex_digit_facts c Hc) as [Hq [Hm [_ [n Hn]]]].
    destruct st as [byte byteIndex odd value bSuccess]. cbn [hs_byteIndex hs_odd] in *.
    cbn [for_each]. unfold hex_step at 1 3. rewrite Hq, Hm, Hn. cbn [bind].
    replace (Z.of_nat (List.length (c :: l))) with (1 + Z.of_nat (List.length l))
      by (simpl List.length; lia).
    destruct odd; cbn [negb Z.b2z].
    + unfold setbyte. destruct (Z.lt_ge_cases byteIndex (nrBytes nbits)) as [Hlt|Hge].
      * rewrite in_bounds by lia. cbn [bind].
        destruct (IH Hl (mk_hex_state (byte + Z.shiftl n 4) (byteIndex + 1) false
                           (put value byteIndex (u8 (byte + Z.shiftl n 4))) bSuccess))
          as [Hthrow|[st' [Hok [Hcount Hidx']]]]; cbn [hs_byteIndex hs_odd Z.b2z] in *;
          [lia|now left|].
        right. exists st'. split; [assumption|]. split; [lia|assumption].
      * left. destruct (Z.ltb_spec byteIndex (nrBytes nbits)); [lia|].
        now rewrite andb_false_r.
    + destruct (IH Hl (mk_hex_state n byteIndex true value bSuccess))
        as [Hthrow|[st' [Hok [Hcount Hidx']]]]; cbn [hs_byteIndex hs_odd Z.b2z] in *;
        [lia|now left|].
      right. exists st'. split; [assumption|]. split; [lia|assumption].
Qed.

(** C10: every string ["0x"] followed by more hexadecimal digits than the
    storage has nibbles matches the hexadecimal grammar, and [parse] of it
    returns no success flag at all: a byte beyond the storage goes to
    [setbyte], which throws [integer_byte_index_out_of_bounds]. *)
Theorem parse_hex_too_wide_throws nbits ds value :
  0 < nbits -> forallb hex_digit ds = true ->
  2 * nrBytes nbits < Z.of_nat (List.length ds) ->
  hex_regex ("0" :: "x" :: ds)%char = true /\
  parse nbits (string_of_list_ascii ("0" :: "x" :: ds)%char) value
  = Throw integer_byte_index_out_of_bounds.
Proof.
  intros Hn Hds Hlen. pose proof (nrBytes_bounds nbits Hn) as Hnb.
  assert (Hhex : hex_regex ("0" :: "x" :: ds)%char = true).
  { destruct ds as [|c ds]; [cbn [List.length] in Hlen; lia|].
    unfold hex_regex. cbn [Ascii.eqb]. apply forallb_forall. intros x Hx.
    rewrite forallb_forall in Hds. now apply hex_digit_facts, Hds. }
  split; [exact Hhex|]. unfold parse.
  rewrite list_ascii_of_string_of_list_ascii, Hhex.
  assert (Hoct : octal_regex ("0" :: "x" :: ds)%char = false) by reflexivity.
  rewrite Hoct. cbn [rev]. rewrite <- app_assoc. cbn [app].
  rewrite for_each_app.
  assert (Hrev : forallb hex_digit (rev ds) = true).
  { apply forallb_forall. intros x Hx. apply in_rev in Hx.
    rewrite forallb_forall in Hds. now apply Hds. }
  destruct (hex_digits_loop nbits (rev ds) Hrev
              (mk_hex_state 0 0 false (clear nbits) false))
    as [->|[st [-> [Hcount Hidx]]]]; cbn [hs_byteIndex hs_odd Z.b2z] in *;
    [lia|reflexivity|].
  cbn [bind]. rewrite length_rev in Hcount.
  destruct st as [byte byteIndex odd v bSuccess]. cbn [hs_byteIndex hs_odd] in *.
  assert (Hodd : odd = true /\ byteIndex = nrBytes nbits)
    by (destruct odd; cbn [Z.b2z] in Hcount; lia).
  destruct Hodd as [-> ->].
  cbn [for_each]. unfold hex_step at 1. cbn [Ascii.eqb orb]. simpl Ascii.eqb.
  cbv iota. unfold setbyte.
  destruct (Z.ltb_spec (nrBytes nbits) (nrBytes nbits)); [lia|].
  rewrite andb_false_r. reflexivity.
Qed.

(** "0x1FF" into an [integer<8>]: three digits for one byte of storage. *)
Lemma parse_hex_too_wide_throws_witness :
  0 < 8 /\ forallb hex_digit ["1"; "F"; "F"]%char = true /\
  2 * nrBytes 8 < Z.of_nat (List.length ["1"; "F"; "F"]%char) /\
  hex_regex (list_ascii_of_string "0x1FF") = true /\
  parse 8 "0x1FF" [] = Throw integer_byte_index_out_of_bounds.
Proof.
  split; [lia|]. split; [reflexivity|]. split; [reflexivity|].
  apply (parse_hex_too_wide_throws 8 ["1"; "F"; "F"]%char []);
    [lia|reflexivity|reflexivity].
Defined.

(* ================================================================== *)
(** * Further properties of the code *)

(* ------------------------------------------------------------------ *)
(** ** Conversion from native integers *)

Lemma convert_loop_any nbits upper :
  0 < nbits -> upper <= nbits ->
  forall n i v r w,
    n = Z.to_nat (upper - i) -> 0 <= i <= upper ->
    rep nbits r w -> w < 2 ^ i ->
    exists r', convert_loop nbits (range i upper) v r = Ok r' /\
               rep nbits r' (w + (v mod 2 ^ (upper - i)) * 2 ^ i).
Proof.
  intros Hn Hup. induction n as [|n IH]; intros i v r w Hlen Hi Hr Hw.
  - assert (i = upper) by lia. subst i. rewrite range_nil by lia. simpl.
    exists r. split; [reflexivity|]. rewrite Z.sub_diag, Z.pow_0_r, Z.mod_1_r.
    now rewrite Z.mul_0_l, Z.add_0_r.
  - rewrite range_cons by lia. simpl convert_loop.
    destruct (Z.eqb_spec v 0) as [E|E].
    + subst v. exists r. split; [reflexivity|].
      now rewrite Z.mod_0_l, Z.mul_0_l, Z.add_0_r by (apply Z.pow_nonzero; lia).
    + assert (Hland : Z.land v 1 = v mod 2).
      { change 1 with (Z.ones 1). now rewrite Z.land_ones by lia. }
      rewrite Hland.
      assert (Hw0 : 0 <= w) by apply Hr.
      assert (Hpos : 0 < 2 ^ i) by (apply Z.pow_pos_nonneg; lia).
      assert (Hstep : exists r1,
                 (if negb (v mod 2 =? 0) then set nbits r i else Ok r) = Ok r1
                 /\ rep nbits r1 (w + (v mod 2) * 2 ^ i)).
      { destruct (Z.eqb_spec (v mod 2) 0) as [E2|E2]; cbn [negb].
        - exists r. split; [reflexivity|]. rewrite E2. now rewrite Z.mul_0_l, Z.add_0_r.
        - destruct (set_rep nbits r w i Hn Hr ltac:(lia)) as [r1 [-> Hr1]].
          exists r1. split; [reflexivity|].
          rewrite setbit_add in Hr1 by lia.
          replace (v mod 2) with 1 by (Z.div_mod_to_equations; lia).
          now rewrite Z.mul_1_l. }
      destruct Hstep as [r1 [-> Hr1]]. cbn [bind].
      rewrite Z.shiftr_div_pow2 by lia. change (2 ^ 1) with 2.
      destruct (IH (i + 1) (v / 2) r1 (w + v mod 2 * 2 ^ i)) as [r' [Hloop Hr']];
        try lia; try assumption.
      * rewrite Z.pow_add_r by lia. change (2 ^ 1) with 2.
        assert (0 <= v mod 2 < 2) by (apply Z.mod_pos_bound; lia). nia.
      * exists r'. split; [assumption|].
        replace (w + (v mod 2 ^ (upper - i)) * 2 ^ i)
          with (w + v mod 2 * 2 ^ i
                + ((v / 2) mod 2 ^ (upper - (i + 1))) * 2 ^ (i + 1)); [assumption|].
        rewrite (mod_pow2_split v (upper - i)) by lia.
        replace (upper - (i + 1)) with (upper - i - 1) by lia.
        rewrite Z.pow_add_r by lia. change (2 ^ 1) with 2. ring.
Qed.

(** Setting the bits [lo .. hi - 1] above a value below [2 ^ lo]. *)
Lemma set_range_rep nbits r w lo hi :
  0 < nbits -> 0 <= lo <= hi -> hi <= nbits ->
  rep nbits r w -> w < 2 ^ lo ->
  exists r', for_each (range lo hi) (fun r i => set nbits r i) r = Ok r' /\
             rep nbits r' (w + 2 ^ hi - 2 ^ lo).
Proof.
  intros Hn Hlo Hhi Hr Hw.
  apply (for_each_range (fun k t => rep nbits t (w + 2 ^ k - 2 ^ lo))); [lia| |].
  - now replace (w + 2 ^ lo - 2 ^ lo) with w by lia.
  - intros i t Hi Ht.
    destruct (set_rep nbits t _ i Hn Ht ltac:(lia)) as [t' [-> Ht']].
    exists t'. split; [reflexivity|].
    assert (0 <= w) by apply Hr.
    assert (0 < 2 ^ lo) by (apply pow2_pos; lia).
    assert (2 ^ lo <= 2 ^ i) by (apply Z.pow_le_mono_r; lia).
    rewrite setbit_add in Ht' by lia.
    replace (w + 2 ^ (i + 1) - 2 ^ lo) with (w + 2 ^ i - 2 ^ lo + 2 ^ i);
      [assumption|].
    rewrite Z.pow_add_r by lia. change (2 ^ 1) with 2. lia.
Qed.

Lemma convert_int64 nbits v :
  0 < nbits -> - 2 ^ 63 <= v < 2 ^ 63 ->
  exists b, convert nbits v = Ok b /\ rep nbits b (v mod 2 ^ nbits).
Proof.
  intros Hn Hv. unfold convert.
  set (upper := if nbits <=? 64 then nbits else 64).
  assert (Hup : 0 < upper <= nbits) by (subst upper; cases_cmp).
  destruct (convert_loop_any nbits upper Hn ltac:(lia) _ 0 v (clear nbits) 0 eq_refl)
    as [r [-> Hr]]; try lia.
  - now apply rep_clear.
  - cbn [bind].
    rewrite Z.add_0_l, Z.sub_0_r, Z.pow_0_r, Z.mul_1_r in Hr.
    assert (H6364 : 2 ^ 64 = 2 * 2 ^ 63) by reflexivity.
    destruct (Z.ltb_spec 64 nbits) as [Hbig|Hsmall]; cbn [andb].
    + assert (upper = 64) by (subst upper; cases_cmp). 
      assert (Hp : 2 ^ 64 < 2 ^ nbits) by (apply Z.pow_lt_mono_r; lia).
      destruct (Z.ltb_spec v 0) as [Hneg|Hpos].
      * replace (v mod 2 ^ upper) with (v + 2 ^ 64) in Hr.
        2:{ subst upper. rewrite H. apply (Z.mod_unique _ _ (-1)); [left; lia|lia]. }
        destruct (set_range_rep nbits r _ upper nbits Hn ltac:(lia) ltac:(lia) Hr)
          as [r' [-> Hr']]; [rewrite H; lia|].
        exists r'. split; [reflexivity|].
        replace (v mod 2 ^ nbits) with (v + 2 ^ 64 + 2 ^ nbits - 2 ^ upper);
          [assumption|].
        rewrite H. apply (Z.mod_unique _ _ (-1)); [left; lia|lia].
      * exists r. split; [reflexivity|].
        replace (v mod 2 ^ nbits) with (v mod 2 ^ upper); [assumption|].
        rewrite H, !Z.mod_small by lia. reflexivity.
    + exists r. split; [reflexivity|].
      replace upper with nbits in Hr by (subst upper; cases_cmp). assumption.
Qed.

Lemma of_int_int64 nbits v :
  0 < nbits -> - 2 ^ 63 <= v < 2 ^ 63 ->
  exists b, of_int nbits v = Ok b /\ rep nbits b (v mod 2 ^ nbits).
Proof.
  intros Hn Hv. unfold of_int. destruct (Z.eqb_spec 0 v) as [E|E].
  - subst v. exists (setzero nbits). split; [reflexivity|].
    rewrite Z.mod_0_l by (apply Z.pow_nonzero; lia). now apply rep_clear.
  - now apply convert_int64.
Qed.

Lemma signed_of_mod n v :
  0 < n -> - 2 ^ (n - 1) <= v < 2 ^ (n - 1) -> signed n (v mod 2 ^ n) = v.
Proof.
  intros Hn Hv. assert (Hp : 2 ^ n = 2 * 2 ^ (n - 1)).
  { rewrite <- Z.pow_succ_r by lia. f_equal. lia. }
  unfold signed. destruct (Z.lt_ge_cases v 0).
  - replace (v mod 2 ^ n) with (v + 2 ^ n)
      by (apply (Z.mod_unique _ _ (-1)); [left; lia|lia]).
    destruct (Z.ltb_spec (v + 2 ^ n) (2 ^ (n - 1))); lia.
  - rewrite Z.mod_small by lia. destruct (Z.ltb_spec v (2 ^ (n - 1))); lia.
Qed.

(** X1: the constructor from a signed native integer never throws and
    stores the value modulo [2 ^ nbits], for every [int64_t] value and every
    width (above 64 bits by sign extension); a value that fits in [nbits]
    bits is stored exactly. *)
Theorem of_int_value nbits v :
  0 < nbits -> - 2 ^ 63 <= v < 2 ^ 63 ->
  exists b, of_int nbits v = Ok b /\ valid nbits b = true /\
            val b = v mod 2 ^ nbits /\
            (- 2 ^ (nbits - 1) <= v < 2 ^ (nbits - 1) -> to_Z nbits b = v).
Proof.
  intros Hn Hv. destruct (of_int_int64 nbits v Hn Hv) as [b [Hb Hr]].
  exists b. split; [assumption|]. split; [now apply (rep_valid nbits b _ Hn Hr)|].
  destruct Hr as [_ [Hval _]]. split; [assumption|].
  intros Hfit. unfold to_Z. rewrite Hval. now apply signed_of_mod.
Qed.

Lemma of_int_value_witness :
  0 < 72 /\ - 2 ^ 63 <= -3 < 2 ^ 63 /\
  exists b, of_int 72 (-3) = Ok b /\ valid 72 b = true /\
            val b = (-3) mod 2 ^ 72 /\
            (- 2 ^ (72 - 1) <= -3 < 2 ^ (72 - 1) -> to_Z 72 b = -3).
Proof.
  split; [lia|]. split; [lia|]. apply (of_int_value 72 (-3)); lia.
Defined.

Lemma convert_unsigned_rep nbits v :
  0 < nbits -> 0 <= v < 2 ^ 64 ->
  exists b, convert_unsigned nbits v = Ok b /\ rep nbits b (v mod 2 ^ nbits).
Proof.
  intros Hn Hv. unfold convert_unsigned.
  set (upper := if nbits <=? 64 then nbits else 64).
  assert (Hup : 0 < upper <= nbits) by (subst upper; cases_cmp).
  destruct (for_each_range
              (fun k (st : Z * bytes) =>
                 fst st = v / 2 ^ k /\ rep nbits (snd st) (v mod 2 ^ k))
              (convert_unsigned_step nbits) 0 upper (v, clear nbits))
    as [[v' r] [-> [_ Hr]]]; [lia| | |].
  - cbn [fst snd]. rewrite Z.pow_0_r, Z.div_1_r, Z.mod_1_r.
    split; [reflexivity|now apply rep_clear].
  - intros i [vi ri] Hi [Hvi Hri]. cbn [fst snd] in *. subst vi.
    unfold convert_unsigned_step.
    assert (Hland : Z.land (v / 2 ^ i) 1 = (v / 2 ^ i) mod 2).
    { change 1 with (Z.ones 1). now rewrite Z.land_ones by lia. }
    rewrite Hland.
    assert (Hp : 0 < 2 ^ i) by (apply pow2_pos; lia).
    pose proof (Z.mod_pos_bound v (2 ^ i) Hp) as Hm.
    assert (Hstep : exists r1,
               (if negb ((v / 2 ^ i) mod 2 =? 0) then set nbits ri i else Ok ri)
               = Ok r1 /\ rep nbits r1 (v mod 2 ^ (i + 1))).
    { rewrite mod_pow2_succ_add, Z.testbit_spec' by lia.
      destruct (Z.eqb_spec ((v / 2 ^ i) mod 2) 0) as [E|E]; cbn [negb].
      - exists ri. split; [reflexivity|]. rewrite E. now rewrite Z.mul_0_l, Z.add_0_r.
      - destruct (set_rep nbits ri _ i Hn Hri ltac:(lia)) as [r1 [-> Hr1]].
        exists r1. split; [reflexivity|]. rewrite setbit_add in Hr1 by lia.
        replace ((v / 2 ^ i) mod 2) with 1 by (Z.div_mod_to_equations; lia).
        now rewrite Z.mul_1_l. }
    destruct Hstep as [r1 [-> Hr1]]. cbn [bind].
    eexists. split; [reflexivity|]. cbn [fst snd]. split; [|assumption].
    rewrite Z.shiftr_div_pow2 by lia. change (2 ^ 1) with 2.
    rewrite Z.div_div by lia. rewrite Z.pow_add_r by lia. reflexivity.
  - cbn [bind]. exists r. split; [reflexivity|]. cbn [snd] in Hr.
    replace (v mod 2 ^ nbits) with (v mod 2 ^ upper); [assumption|].
    subst upper. destruct (Z.leb_spec nbits 64); [reflexivity|].
    assert (2 ^ 64 < 2 ^ nbits) by (apply Z.pow_lt_mono_r; lia).
    rewrite !Z.mod_small by lia. reflexivity.
Qed.

(** X2: the constructor from an unsigned native integer never throws and
    stores the value modulo [2 ^ nbits]; it never sign-extends, so a value
    below [2 ^ nbits] is stored as is. *)
Theorem of_uint_value nbits v :
  0 < nbits -> 0 <= v < 2 ^ 64 ->
  exists b, of_uint nbits v = Ok b /\ valid nbits b = true /\
            val b = v mod 2 ^ nbits.
Proof.
  intros Hn Hv. unfold of_uint.
  assert (H : exists b, (if 0 =? v then Ok (setzero nbits)
                         else convert_unsigned nbits v) = Ok b
                        /\ rep nbits b (v mod 2 ^ nbits)).
  { destruct (Z.eqb_spec 0 v) as [E|E].
    - subst v. exists (setzero nbits). split; [reflexivity|].
      rewrite Z.mod_0_l by (apply Z.pow_nonzero; lia). now apply rep_clear.
    - now apply convert_unsigned_rep. }
  destruct H as [b [Hb Hr]]. exists b. split; [assumption|].
  split; [now apply (rep_valid nbits b _ Hn Hr)|apply Hr].
Qed.

Lemma of_uint_value_witness :
  0 < 12 /\ 0 <= 65535 < 2 ^ 64 /\
  exists b, of_uint 12 65535 = Ok b /\ valid 12 b = true /\
            val b = 65535 mod 2 ^ 12.
Proof.
  split; [lia|]. split; [lia|]. apply (of_uint_value 12 65535); lia.
Defined.

(* ------------------------------------------------------------------ *)
(** ** Comparisons and selectors *)

Lemma to_Z_mod nbits a :
  0 < nbits -> valid nbits a = true -> to_Z nbits a mod 2 ^ nbits = val a.
Proof.
  intros Hn Hv. apply signed_mod; [assumption|].
  apply (valid_rep nbits a Hn Hv).
Qed.

Lemma to_Z_inj nbits a b :
  0 < nbits -> valid nbits a = true -> valid nbits b = true ->
  (to_Z nbits a =? to_Z nbits b) = (val a =? val b).
Proof.
  intros Hn Ha Hb. pose proof (to_Z_mod nbits a Hn Ha) as Ea.
  pose proof (to_Z_mod nbits b Hn Hb) as Eb.
  destruct (Z.eqb_spec (to_Z nbits a) (to_Z nbits b)) as [E|E];
    destruct (Z.eqb_spec (val a) (val b)) as [E'|E']; try reflexivity.
  - rewrite E in Ea. congruence.
  - unfold to_Z in E. congruence.
Qed.

Lemma comparisons_order_aux nbits a b :
  0 < nbits -> valid nbits a = true -> valid nbits b = true ->
  operator_eq a b = (to_Z nbits a =? to_Z nbits b) /\
  operator_lt nbits a b = Ok (to_Z nbits a <? to_Z nbits b) /\
  operator_lt nbits b a = Ok (to_Z nbits b <? to_Z nbits a) /\
  operator_le nbits a b = Ok (to_Z nbits a <=? to_Z nbits b) /\
  operator_ge nbits a b = Ok (to_Z nbits b <=? to_Z nbits a).
Proof.
  intros Hn Hva Hvb.
  pose proof (valid_rep nbits a Hn Hva) as Ha.
  pose proof (valid_rep nbits b Hn Hvb) as Hb.
  split; [rewrite (eq_rep nbits a b _ _ Ha Hb); symmetry; now apply to_Z_inj|].
  split; [apply (lt_rep nbits a b _ _ Hn Ha Hb)|].
  split; [apply (lt_rep nbits b a _ _ Hn Hb Ha)|].
  split; [apply (le_rep nbits a b _ _ Hn Ha Hb)|].
  unfold operator_ge. rewrite (lt_rep nbits a b _ _ Hn Ha Hb). cbn [bind].
  f_equal. fold (to_Z nbits a) (to_Z nbits b).
  destruct (Z.ltb_spec (to_Z nbits a) (to_Z nbits b)),
           (Z.leb_spec (to_Z nbits b) (to_Z nbits a)); try reflexivity; lia.
Qed.

(** X3: on valid values the six comparison operators decide the order of
    the two's-complement readings, [iszero] tests for the value 0 and
    [sign] for a negative value; none of them throws. *)
Theorem comparisons_signed_order nbits a b :
  0 < nbits -> valid nbits a = true -> valid nbits b = true ->
  operator_eq a b = (to_Z nbits a =? to_Z nbits b) /\
  operator_ne a b = negb (to_Z nbits a =? to_Z nbits b) /\
  operator_lt nbits a b = Ok (to_Z nbits a <? to_Z nbits b) /\
  operator_gt nbits a b = Ok (to_Z nbits b <? to_Z nbits a) /\
  operator_le nbits a b = Ok (to_Z nbits a <=? to_Z nbits b) /\
  operator_ge nbits a b = Ok (to_Z nbits b <=? to_Z nbits a) /\
  iszero a = (to_Z nbits a =? 0) /\
  sign nbits a = Ok (to_Z nbits a <? 0).
Proof.
  intros Hn Hva Hvb.
  pose proof (valid_rep nbits a Hn Hva) as Ha.
  pose proof (valid_rep nbits b Hn Hvb) as Hb.
  assert (Heq : operator_eq a b = (to_Z nbits a =? to_Z nbits b)).
  { rewrite (eq_rep nbits a b _ _ Ha Hb). symmetry. now apply to_Z_inj. }
  split; [exact Heq|]. split; [unfold operator_ne; now rewrite Heq|].
  split; [apply (lt_rep nbits a b _ _ Hn Ha Hb)|].
  split; [apply (lt_rep nbits b a _ _ Hn Hb Ha)|].
  split; [apply (le_rep nbits a b _ _ Hn Ha Hb)|].
  split.
  { unfold operator_ge. rewrite (lt_rep nbits a b _ _ Hn Ha Hb). cbn [bind].
    f_equal. fold (to_Z nbits a) (to_Z nbits b).
    destruct (Z.ltb_spec (to_Z nbits a) (to_Z nbits b)),
             (Z.leb_spec (to_Z nbits b) (to_Z nbits a)); try reflexivity; lia. }
  split; [|now apply sign_to_Z].
  rewrite (iszero_rep nbits a _ Ha).
  pose proof (to_Z_mod nbits a Hn Hva) as Em.
  destruct (Z.eqb_spec (val a) 0) as [E|E], (Z.eqb_spec (to_Z nbits a) 0) as [E'|E'];
    try reflexivity.
  - exfalso. apply E'. unfold to_Z. rewrite E. unfold signed.
    assert (0 < 2 ^ (nbits - 1)) by (apply pow2_pos; lia).
    destruct (Z.ltb_spec 0 (2 ^ (nbits - 1))); lia.
  - exfalso. apply E. rewrite <- Em, E'. apply Z.mod_0_l. apply Z.pow_nonzero; lia.
Qed.

Lemma comparisons_signed_order_witness :
  0 < 8 /\ valid 8 [156] = true /\ valid 8 [3] = true /\
  operator_eq [156] [3] = (to_Z 8 [156] =? to_Z 8 [3]) /\
  operator_ne [156] [3] = negb (to_Z 8 [156] =? to_Z 8 [3]) /\
  operator_lt 8 [156] [3] = Ok (to_Z 8 [156] <? to_Z 8 [3]) /\
  operator_gt 8 [156] [3] = Ok (to_Z 8 [3] <? to_Z 8 [156]) /\
  operator_le 8 [156] [3] = Ok (to_Z 8 [156] <=? to_Z 8 [3]) /\
  operator_ge 8 [156] [3] = Ok (to_Z 8 [3] <=? to_Z 8 [156]) /\
  iszero [156] = (to_Z 8 [156] =? 0) /\
  sign 8 [156] = Ok (to_Z 8 [156] <? 0).
Proof.
  split; [lia|]. split; [reflexivity|]. split; [reflexivity|].
  apply (comparisons_signed_order 8 [156] [3]); [lia|reflexivity..].
Defined.

(** X4: a comparison with a [long long] literal first converts the literal
    to [integer<nbits>], so the literal is compared modulo [2 ^ nbits]: a
    literal outside the range of the type is wrapped, not rejected. *)
Theorem literal_comparisons_wrap nbits a rhs :
  0 < nbits -> valid nbits a = true -> - 2 ^ 63 <= rhs < 2 ^ 63 ->
  operator_eq_literal nbits a rhs = Ok (to_Z nbits a =? literal nbits rhs) /\
  operator_ne_literal nbits a rhs = Ok (negb (to_Z nbits a =? literal nbits rhs)) /\
  operator_lt_literal nbits a rhs = Ok (to_Z nbits a <? literal nbits rhs) /\
  operator_gt_literal nbits a rhs = Ok (literal nbits rhs <? to_Z nbits a) /\
  operator_le_literal nbits a rhs = Ok (to_Z nbits a <=? literal nbits rhs) /\
  operator_ge_literal nbits a rhs = Ok (literal nbits rhs <=? to_Z nbits a) /\
  (- 2 ^ (nbits - 1) <= rhs < 2 ^ (nbits - 1) -> literal nbits rhs = rhs).
Proof.
  intros Hn Hva Hrhs.
  destruct (of_int_int64 nbits rhs Hn Hrhs) as [r [Hr Hrep]].
  pose proof (rep_valid nbits r _ Hn Hrep) as Hvr.
  assert (Hlit : to_Z nbits r = literal nbits rhs).
  { unfold to_Z, literal. destruct Hrep as [_ [-> _]]. reflexivity. }
  destruct (comparisons_order_aux nbits a r Hn Hva Hvr)
    as [Heq [Hlt [Hgt [Hle Hge]]]].
  rewrite Hlit in *.
  unfold operator_ne_literal, operator_le_literal, operator_ge_literal,
    operator_lt_literal, operator_gt_literal, operator_eq_literal.
  rewrite Hr. cbn [bind]. rewrite Hlt, Hgt, Heq. cbn [bind].
  repeat split; try reflexivity.
  - destruct (Z.ltb_spec (to_Z nbits a) (literal nbits rhs)),
      (Z.leb_spec (to_Z nbits a) (literal nbits rhs)),
      (Z.eqb_spec (to_Z nbits a) (literal nbits rhs)); try reflexivity; lia.
  - f_equal.
    destruct (Z.ltb_spec (to_Z nbits a) (literal nbits rhs)),
      (Z.leb_spec (literal nbits rhs) (to_Z nbits a)); try reflexivity; lia.
  - intros Hfit. unfold literal. now apply signed_of_mod.
Qed.

Lemma literal_comparisons_wrap_witness :
  0 < 8 /\ valid 8 [0] = true /\ - 2 ^ 63 <= 256 < 2 ^ 63 /\
  operator_eq_literal 8 [0] 256 = Ok (to_Z 8 [0] =? literal 8 256) /\
  operator_ne_literal 8 [0] 256 = Ok (negb (to_Z 8 [0] =? literal 8 256)) /\
  operator_lt_literal 8 [0] 256 = Ok (to_Z 8 [0] <? literal 8 256) /\
  operator_gt_literal 8 [0] 256 = Ok (literal 8 256 <? to_Z 8 [0]) /\
  operator_le_literal 8 [0] 256 = Ok (to_Z 8 [0] <=? literal 8 256) /\
  operator_ge_literal 8 [0] 256 = Ok (literal 8 256 <=? to_Z 8 [0]) /\
  (- 2 ^ (8 - 1) <= 256 < 2 ^ (8 - 1) -> literal 8 256 = 256).
Proof.
  split; [lia|]. split; [reflexivity|]. split; [lia|].
  apply (literal_comparisons_wrap 8 [0] 256); [lia|reflexivity|lia].
Defined.

(* ------------------------------------------------------------------ *)
(** ** Increment, decrement, complement and negation *)

Lemma pow2_double n : 0 < n -> 2 ^ n = 2 * 2 ^ (n - 1).
Proof.
  intros. replace n with (n - 1 + 1) at 1 by lia.
  rewrite Z.pow_add_r by lia. lia.
Qed.

Lemma val_valid nbits a :
  0 < nbits -> valid nbits a = true -> 0 <= val a < 2 ^ nbits.
Proof. intros Hn Hv. apply (valid_rep nbits a Hn Hv). Qed.

(** X5: [++] and [--] never throw, move the value by one modulo
    [2 ^ nbits], and undo each other; the postfix forms return the old
    value and leave the new one in the object. *)
Theorem increment_decrement_inverse nbits a :
  0 < nbits -> valid nbits a = true ->
  exists up down,
    increment nbits a = Ok up /\ decrement nbits a = Ok down /\
    valid nbits up = true /\ valid nbits down = true /\
    val up = (val a + 1) mod 2 ^ nbits /\
    val down = (val a - 1) mod 2 ^ nbits /\
    decrement nbits up = Ok a /\ increment nbits down = Ok a /\
    post_increment nbits a = Ok (a, up) /\
    post_decrement nbits a = Ok (a, down).
Proof.
  intros Hn Hv. pose proof (valid_rep nbits a Hn Hv) as Ha.
  pose proof (val_valid nbits a Hn Hv) as Hb.
  destruct (increment_rep nbits a _ Hn Ha) as [up [Hup Rup]].
  destruct (decrement_rep nbits a _ Hn Ha) as [down [Hdown Rdown]].
  destruct (decrement_rep nbits up _ Hn Rup) as [a1 [Ha1 Ra1]].
  destruct (increment_rep nbits down _ Hn Rdown) as [a2 [Ha2 Ra2]].
  assert (E1 : ((val a + 1) mod 2 ^ nbits - 1) mod 2 ^ nbits = val a).
  { rewrite Zminus_mod_idemp_l. replace (val a + 1 - 1) with (val a) by lia.
    apply Z.mod_small. lia. }
  assert (E2 : ((val a - 1) mod 2 ^ nbits + 1) mod 2 ^ nbits = val a).
  { rewrite Zplus_mod_idemp_l. replace (val a - 1 + 1) with (val a) by lia.
    apply Z.mod_small. lia. }
  rewrite E1 in Ra1. rewrite E2 in Ra2.
  assert (a1 = a) by (apply (rep_inj nbits a1 a (val a)); assumption).
  assert (a2 = a) by (apply (rep_inj nbits a2 a (val a)); assumption).
  subst a1 a2. exists up, down.
  split; [exact Hup|]. split; [exact Hdown|].
  split; [apply (rep_valid nbits up _ Hn Rup)|].
  split; [apply (rep_valid nbits down _ Hn Rdown)|].
  split; [apply Rup|]. split; [apply Rdown|].
  split; [exact Ha1|]. split; [exact Ha2|].
  unfold post_increment, post_decrement. rewrite Hup, Hdown. split; reflexivity.
Qed.

Lemma increment_decrement_inverse_witness :
  0 < 8 /\ valid 8 [255] = true /\
  exists up down,
    increment 8 [255] = Ok up /\ decrement 8 [255] = Ok down /\
    valid 8 up = true /\ valid 8 down = true /\
    val up = (val [255] + 1) mod 2 ^ 8 /\
    val down = (val [255] - 1) mod 2 ^ 8 /\
    decrement 8 up = Ok [255] /\ increment 8 down = Ok [255] /\
    post_increment 8 [255] = Ok ([255], up) /\
    post_decrement 8 [255] = Ok ([255], down).
Proof.
  split; [lia|]. split; [reflexivity|].
  apply (increment_decrement_inverse 8 [255]); [lia|reflexivity].
Defined.

(** X6: the one's complement is an involution that maps the value [x] to
    [- x - 1]; unary minus and [twos_complement] agree, are an involution,
    and negate the value of every operand but the most negative one. *)
Theorem complement_and_negation nbits a :
  0 < nbits -> valid nbits a = true ->
  flip nbits (flip nbits a) = a /\
  valid nbits (flip nbits a) = true /\
  to_Z nbits (flip nbits a) = - to_Z nbits a - 1 /\
  exists na,
    neg nbits a = Ok na /\ twos_complement nbits a = Ok na /\
    valid nbits na = true /\ neg nbits na = Ok a /\
    (to_Z nbits a <> - 2 ^ (nbits - 1) -> to_Z nbits na = - to_Z nbits a).
Proof.
  intros Hn Hv. pose proof (valid_rep nbits a Hn Hv) as Ha.
  pose proof (val_valid nbits a Hn Hv) as Hb.
  pose proof (pow2_double nbits Hn) as H2.
  assert (Hp : 0 < 2 ^ (nbits - 1)) by (apply pow2_pos; lia).
  pose proof (flip_rep nbits a _ Hn Ha) as Hf.
  pose proof (flip_rep nbits _ _ Hn Hf) as Hff.
  replace (2 ^ nbits - 1 - (2 ^ nbits - 1 - val a)) with (val a) in Hff by lia.
  split; [apply (rep_inj nbits _ _ _ Hff Ha)|].
  split; [apply (rep_valid nbits _ _ Hn Hf)|].
  split.
  { unfold to_Z. destruct Hf as [_ [-> _]]. unfold signed.
    destruct (Z.ltb_spec (2 ^ nbits - 1 - val a) (2 ^ (nbits - 1))),
      (Z.ltb_spec (val a) (2 ^ (nbits - 1))); lia. }
  destruct (neg_rep nbits a _ Hn Ha) as [na [Hna Rna]].
  destruct (twos_complement_rep nbits a _ Hn Ha) as [na' [Hna' Rna']].
  assert (na' = na) by (apply (rep_inj nbits _ _ _ Rna' Rna)). subst na'.
  destruct (neg_rep nbits na _ Hn Rna) as [a' [Ha' Ra']].
  assert (E : (- ((- val a) mod 2 ^ nbits)) mod 2 ^ nbits = val a).
  { destruct (Z.eq_dec (val a) 0) as [E0|E0].
    - rewrite E0. reflexivity.
    - rewrite (Z.mod_opp_l_nz (val a)) by (rewrite ?Z.mod_small; lia).
      rewrite (Z.mod_small (val a)) by lia.
      rewrite Z.mod_opp_l_nz; rewrite ?Z.mod_small; lia. }
  rewrite E in Ra'.
  assert (a' = a) by (apply (rep_inj nbits _ _ _ Ra' Ha)). subst a'.
  exists na. split; [exact Hna|]. split; [exact Hna'|].
  split; [apply (rep_valid nbits _ _ Hn Rna)|]. split; [exact Ha'|].
  intros Hmin. unfold to_Z in *. destruct Rna as [_ [-> _]].
  destruct (Z.eq_dec (val a) 0) as [E0|E0].
  - rewrite E0. cbn [Z.opp]. rewrite Z.mod_0_l by lia. unfold signed.
    destruct (Z.ltb_spec 0 (2 ^ (nbits - 1))); lia.
  - rewrite Z.mod_opp_l_nz by (rewrite ?Z.mod_small; lia).
    rewrite Z.mod_small by lia. unfold signed in *.
    destruct (Z.ltb_spec (2 ^ nbits - val a) (2 ^ (nbits - 1))),
      (Z.ltb_spec (val a) (2 ^ (nbits - 1))); lia.
Qed.

Lemma complement_and_negation_witness :
  0 < 12 /\ valid 12 [5; 0] = true /\
  flip 12 (flip 12 [5; 0]) = [5; 0] /\
  valid 12 (flip 12 [5; 0]) = true /\
  to_Z 12 (flip 12 [5; 0]) = - to_Z 12 [5; 0] - 1 /\
  exists na,
    neg 12 [5; 0] = Ok na /\ twos_complement 12 [5; 0] = Ok na /\
    valid 12 na = true /\ neg 12 na = Ok [5; 0] /\
    (to_Z 12 [5; 0] <> - 2 ^ (12 - 1) -> to_Z 12 na = - to_Z 12 [5; 0]).
Proof.
  split; [lia|]. split; [reflexivity|].
  apply (complement_and_negation 12 [5; 0]); [lia|reflexivity].
Defined.

(* ------------------------------------------------------------------ *)
(** ** The largest and the smallest value *)

Lemma max_int_rep nbits :
  0 < nbits -> exists m, max_int nbits = Ok m /\ rep nbits m (2 ^ (nbits - 1) - 1).
Proof.
  intros Hn. destruct (min_int_rep nbits Hn) as [m [Hm Rm]].
  unfold max_int. unfold min_int in Hm. rewrite Hm. cbn [bind].
  exists (flip nbits m). split; [reflexivity|].
  pose proof (flip_rep nbits m _ Hn Rm) as Hf.
  replace (2 ^ nbits - 1 - 2 ^ (nbits - 1)) with (2 ^ (nbits - 1) - 1) in Hf
    by (rewrite (pow2_double nbits Hn); lia).
  exact Hf.
Qed.

(** X7: [max_int] and [min_int] never throw and are the values
    [2 ^ (nbits - 1) - 1] and [- 2 ^ (nbits - 1)]; every valid value lies
    between them for [operator<=], and incrementing the largest value
    gives the smallest. *)
Theorem max_min_bounds nbits :
  0 < nbits ->
  exists mx mn,
    max_int nbits = Ok mx /\ min_int nbits = Ok mn /\
    valid nbits mx = true /\ valid nbits mn = true /\
    to_Z nbits mx = 2 ^ (nbits - 1) - 1 /\
    to_Z nbits mn = - 2 ^ (nbits - 1) /\
    increment nbits mx = Ok mn /\
    forall a, valid nbits a = true ->
      operator_le nbits mn a = Ok true /\ operator_le nbits a mx = Ok true.
Proof.
  intros Hn. pose proof (pow2_double nbits Hn) as H2.
  assert (Hp : 0 < 2 ^ (nbits - 1)) by (apply pow2_pos; lia).
  destruct (max_int_rep nbits Hn) as [mx [Hmx Rmx]].
  destruct (min_int_rep nbits Hn) as [mn [Hmn Rmn]].
  assert (Tmx : to_Z nbits mx = 2 ^ (nbits - 1) - 1).
  { unfold to_Z. destruct Rmx as [_ [-> _]]. unfold signed.
    destruct (Z.ltb_spec (2 ^ (nbits - 1) - 1) (2 ^ (nbits - 1))); lia. }
  assert (Tmn : to_Z nbits mn = - 2 ^ (nbits - 1)).
  { unfold to_Z. destruct Rmn as [_ [-> _]]. unfold signed.
    destruct (Z.ltb_spec (2 ^ (nbits - 1)) (2 ^ (nbits - 1))); lia. }
  exists mx, mn. split; [exact Hmx|]. split; [exact Hmn|].
  pose proof (rep_valid nbits _ _ Hn Rmx) as Vmx.
  pose proof (rep_valid nbits _ _ Hn Rmn) as Vmn.
  split; [exact Vmx|]. split; [exact Vmn|].
  split; [exact Tmx|]. split; [exact Tmn|].
  split.
  { destruct (increment_rep nbits mx _ Hn Rmx) as [r [Hr Rr]].
    rewrite Hr. f_equal. apply (rep_inj nbits r mn (2 ^ (nbits - 1))); [|exact Rmn].
    replace (2 ^ (nbits - 1) - 1 + 1) with (2 ^ (nbits - 1)) in Rr by lia.
    rewrite Z.mod_small in Rr by lia. exact Rr. }
  intros a Hv. pose proof (valid_rep nbits a Hn Hv) as Ha.
  pose proof (signed_range nbits (val a) Hn (val_valid nbits a Hn Hv)) as Hr.
  fold (to_Z nbits a) in Hr.
  destruct (comparisons_order_aux nbits mn a Hn Vmn Hv) as [_ [_ [_ [Hle _]]]].
  destruct (comparisons_order_aux nbits a mx Hn Hv Vmx) as [_ [_ [_ [Hle' _]]]].
  rewrite Hle, Hle', Tmx, Tmn. split; f_equal; apply Z.leb_le; lia.
Qed.

Lemma max_min_bounds_witness :
  0 < 12 /\
  exists mx mn,
    max_int 12 = Ok mx /\ min_int 12 = Ok mn /\
    valid 12 mx = true /\ valid 12 mn = true /\
    to_Z 12 mx = 2 ^ (12 - 1) - 1 /\
    to_Z 12 mn = - 2 ^ (12 - 1) /\
    increment 12 mx = Ok mn /\
    forall a, valid 12 a = true ->
      operator_le 12 mn a = Ok true /\ operator_le 12 a mx = Ok true.
Proof.
  split; [lia|]. apply (max_min_bounds 12). lia.
Defined.

(* ------------------------------------------------------------------ *)
(** ** Bit and byte accessors *)

Lemma out_of_bounds i n : i < 0 \/ n <= i -> (0 <=? i) && (i <? n) = false.
Proof.
  intros [H|H].
  - destruct (Z.leb_spec 0 i); [lia|reflexivity].
  - destruct (Z.ltb_spec i n); [lia|]. apply andb_false_r.
Qed.

(** X8: inside the range, [set], [reset] and [set(i, v)] write bit [i],
    leave every other bit as it was and keep the value valid, and
    [set(i, v)] is [set] or [reset] according to [v]; [at] reads the bit
    back. *)
Theorem bit_write_read nbits b i :
  0 < nbits -> valid nbits b = true -> 0 <= i < nbits ->
  exists b1 b0,
    set nbits b i = Ok b1 /\ reset nbits b i = Ok b0 /\
    set_to nbits b i true = Ok b1 /\ set_to nbits b i false = Ok b0 /\
    valid nbits b1 = true /\ valid nbits b0 = true /\
    at_ nbits b1 i = Ok true /\ at_ nbits b0 i = Ok false /\
    forall j, j <> i ->
      at_ nbits b1 j = at_ nbits b j /\ at_ nbits b0 j = at_ nbits b j.
Proof.
  intros Hn Hv Hi. pose proof (valid_rep nbits b Hn Hv) as Hb.
  destruct (set_rep nbits b _ i Hn Hb Hi) as [b1 [H1 R1]].
  destruct (reset_rep nbits b _ i Hn Hb Hi) as [b0 [H0 R0]].
  destruct (set_to_rep nbits b _ i true Hn Hb Hi) as [c1 [Hc1 Rc1]].
  destruct (set_to_rep nbits b _ i false Hn Hb Hi) as [c0 [Hc0 Rc0]].
  assert (c1 = b1) by (apply (rep_inj nbits _ _ _ Rc1 R1)).
  assert (c0 = b0) by (apply (rep_inj nbits _ _ _ Rc0 R0)). subst c1 c0.
  exists b1, b0.
  split; [exact H1|]. split; [exact H0|]. split; [exact Hc1|]. split; [exact Hc0|].
  split; [apply (rep_valid nbits _ _ Hn R1)|].
  split; [apply (rep_valid nbits _ _ Hn R0)|].
  split; [rewrite (at_rep nbits b1 _ i R1 Hi), Z.setbit_eqb, Z.eqb_refl by lia;
          reflexivity|].
  split; [rewrite (at_rep nbits b0 _ i R0 Hi), Z.clearbit_eqb, Z.eqb_refl by lia;
          cbn [negb]; now rewrite andb_false_r|].
  intros j Hj.
  destruct (Z.lt_ge_cases j 0) as [Hneg|Hnn].
  { unfold at_. rewrite (out_of_bounds j nbits) by lia. split; reflexivity. }
  destruct (Z.lt_ge_cases j nbits) as [Hlt|Hge].
  - rewrite (at_rep nbits b1 _ j R1), (at_rep nbits b0 _ j R0),
      (at_rep nbits b _ j Hb) by lia.
    rewrite Z.setbit_eqb, Z.clearbit_eqb by lia.
    destruct (Z.eqb_spec i j); [lia|]. cbn [orb negb]. rewrite andb_true_r.
    split; reflexivity.
  - rewrite !at_throws by lia. split; reflexivity.
Qed.

Lemma bit_write_read_witness :
  0 < 12 /\ valid 12 [5; 0] = true /\ 0 <= 9 < 12 /\
  exists b1 b0,
    set 12 [5; 0] 9 = Ok b1 /\ reset 12 [5; 0] 9 = Ok b0 /\
    set_to 12 [5; 0] 9 true = Ok b1 /\ set_to 12 [5; 0] 9 false = Ok b0 /\
    valid 12 b1 = true /\ valid 12 b0 = true /\
    at_ 12 b1 9 = Ok true /\ at_ 12 b0 9 = Ok false /\
    forall j, j <> 9 ->
      at_ 12 b1 j = at_ 12 [5; 0] j /\ at_ 12 b0 j = at_ 12 [5; 0] j.
Proof.
  split; [lia|]. split; [reflexivity|]. split; [lia|].
  apply (bit_write_read 12 [5; 0] 9); [lia|reflexivity|lia].
Defined.

(** X9: a bit index outside [0, nbits) makes [set], [reset], [set(i, v)]
    and [at] throw [bit_index_out_of_bounds], and a byte index outside
    [0, nrBytes) makes [setbyte] and [byte] throw
    [integer_byte_index_out_of_bounds], whatever the object holds. *)
Theorem index_out_of_bounds_throws nbits b i v x :
  (i < 0 \/ nbits <= i ->
     set nbits b i = Throw bit_index_out_of_bounds /\
     reset nbits b i = Throw bit_index_out_of_bounds /\
     set_to nbits b i v = Throw bit_index_out_of_bounds /\
     at_ nbits b i = Throw bit_index_out_of_bounds) /\
  (i < 0 \/ nrBytes nbits <= i ->
     setbyte nbits b i x = Throw integer_byte_index_out_of_bounds /\
     byte nbits b i = Throw integer_byte_index_out_of_bounds).
Proof.
  split; intros H.
  - unfold set, reset, set_to, at_. rewrite (out_of_bounds i nbits H).
    repeat split.
  - unfold setbyte, byte. rewrite (out_of_bounds i (nrBytes nbits) H).
    repeat split.
Qed.

Lemma val_put b i x :
  0 <= i < Z.of_nat (List.length b) ->
  val (put b i x) = val b + (x - get b i) * 2 ^ (8 * i).
Proof.
  revert i. induction b as [|h t IH]; intros i Hi.
  - cbn [List.length] in Hi. lia.
  - destruct (Z.eq_dec i 0) as [->|Hnz].
    + unfold put. cbn [Z.to_nat put_nat]. rewrite get_cons_0, !val_cons.
      rewrite Z.mul_0_r, Z.pow_0_r. lia.
    + assert (Hp : put (h :: t) i x = h :: put t (i - 1) x).
      { unfold put. replace (Z.to_nat i) with (S (Z.to_nat (i - 1))) by lia.
        reflexivity. }
      rewrite Hp, get_cons_pos, !val_cons by lia.
      cbn [List.length] in Hi. rewrite IH by lia.
      replace (8 * i) with (8 + 8 * (i - 1)) by lia.
      rewrite Z.pow_add_r by lia. change (2 ^ 8) with 256. lia.
Qed.

(** X10: inside the range, [setbyte] replaces byte [i] and only byte [i]:
    [byte] reads the written value back at [i] and the old content
    elsewhere, and the object keeps its [nrBytes] bytes. *)
Theorem setbyte_byte_roundtrip nbits b i x :
  wf nbits b -> 0 <= i < nrBytes nbits -> 0 <= x < 256 ->
  exists b',
    setbyte nbits b i x = Ok b' /\ wf nbits b' /\
    byte nbits b' i = Ok x /\
    (forall j, j <> i -> byte nbits b' j = byte nbits b j) /\
    val b' = val b + (x - get b i) * 2 ^ (8 * i).
Proof.
  intros Hw Hi Hx. unfold setbyte, byte. rewrite (in_bounds i (nrBytes nbits) Hi).
  exists (put b i x). split; [reflexivity|].
  split; [now apply wf_put|].
  destruct Hw as [Hl Hb].
  split; [rewrite get_put, Z.eqb_refl by lia; reflexivity|].
  split.
  - intros j Hj. destruct (Z.lt_ge_cases j 0) as [Hneg|Hnn].
    { rewrite (out_of_bounds j (nrBytes nbits)) by lia. reflexivity. }
    destruct (Z.lt_ge_cases j (nrBytes nbits)) as [Hlt|Hge].
    + rewrite (in_bounds j (nrBytes nbits)) by lia.
      rewrite get_put by lia. destruct (Z.eqb_spec j i); [lia|reflexivity].
    + rewrite (out_of_bounds j (nrBytes nbits)) by lia. reflexivity.
  - apply val_put. lia.
Qed.

Lemma setbyte_byte_roundtrip_witness :
  wf 12 [5; 0] /\ 0 <= 1 < nrBytes 12 /\ 0 <= 7 < 256 /\
  exists b',
    setbyte 12 [5; 0] 1 7 = Ok b' /\ wf 12 b' /\
    byte 12 b' 1 = Ok 7 /\
    (forall j, j <> 1 -> byte 12 b' j = byte 12 [5; 0] j) /\
    val b' = val [5; 0] + (7 - get [5; 0] 1) * 2 ^ (8 * 1).
Proof.
  assert (Hw : wf 12 [5; 0]) by (apply valid_wf; reflexivity).
  split; [exact Hw|]. split; [vm_compute; split; [discriminate|reflexivity]|].
  split; [lia|].
  apply (setbyte_byte_roundtrip 12 [5; 0] 1 7 Hw);
    [vm_compute; split; [discriminate|reflexivity]|lia].
Defined.

(* ------------------------------------------------------------------ *)
(** ** Raw bits *)

Lemma val_raw_bytes n value :
  0 <= value -> val (raw_bytes n value) = value mod 2 ^ (8 * Z.of_nat n).
Proof.
  revert value. induction n as [|n IH]; intros value Hv.
  - cbn [raw_bytes val Z.of_nat Z.mul]. rewrite Z.pow_0_r, Z.mod_1_r. reflexivity.
  - cbn [raw_bytes]. rewrite val_cons, IH by (apply Z.shiftr_nonneg; lia).
    replace (Z.land value 255) with (value mod 2 ^ 8)
      by (symmetry; apply (Z.land_ones value 8); lia).
    unfold u8. change 256 with (2 ^ 8). rewrite Z.mod_mod by lia.
    rewrite Z.shiftr_div_pow2 by lia.
    replace (8 * Z.of_nat (S n)) with (8 + 8 * Z.of_nat n) by lia.
    rewrite (Z.pow_add_r 2 8) by lia.
    rewrite Z.rem_mul_r by (try apply Z.pow_nonzero; lia). reflexivity.
Qed.

(** X11: [set_raw_bits] stores the low [nbits] bits of its
    [unsigned long long] argument, that is the argument modulo
    [2 ^ nbits], and zero-extends it when [nbits] exceeds 64. *)
Theorem set_raw_bits_value nbits value :
  0 < nbits -> 0 <= value < 2 ^ 64 ->
  valid nbits (set_raw_bits nbits value) = true /\
  val (set_raw_bits nbits value) = value mod 2 ^ nbits /\
  (64 <= nbits -> val (set_raw_bits nbits value) = value).
Proof.
  intros Hn Hv. split; [now apply set_raw_bits_valid|].
  assert (E : val (set_raw_bits nbits value) = value mod 2 ^ nbits).
  { unfold set_raw_bits.
    destruct (raw_bytes_wf (Z.to_nat (nrBytes nbits)) value) as [Hl Hb].
    pose proof (nrBytes_bounds nbits Hn) as Hnb.
    assert (Hw : wf nbits (raw_bytes (Z.to_nat (nrBytes nbits)) value)).
    { split; [rewrite Hl; lia|exact Hb]. }
    destruct (mask_ms_byte_rep nbits _ Hn Hw) as [_ [-> _]].
    rewrite val_raw_bytes by lia. apply mod_mod_pow2. lia. }
  split; [exact E|]. intros H64. rewrite E. apply Z.mod_small.
  split; [lia|]. apply Z.lt_le_trans with (2 ^ 64); [lia|].
  apply Z.pow_le_mono_r; lia.
Qed.

Lemma set_raw_bits_value_witness :
  0 < 12 /\ 0 <= 65535 < 2 ^ 64 /\
  valid 12 (set_raw_bits 12 65535) = true /\
  val (set_raw_bits 12 65535) = 65535 mod 2 ^ 12 /\
  (64 <= 12 -> val (set_raw_bits 12 65535) = 65535).
Proof.
  split; [lia|]. split; [lia|]. apply (set_raw_bits_value 12 65535); lia.
Defined.

(* ------------------------------------------------------------------ *)
(** ** Left shift and multiplication *)

(** X12: for a shift amount [0 <= s], [<<=] never throws and multiplies
    the value by [2 ^ s] modulo [2 ^ nbits]: bit [i] of the result is bit
    [i - s] of the operand and the low [s] bits are zero; shifting back
    right recovers the operand without its [s] high bits. *)
Theorem shift_left_value nbits b s :
  0 < nbits -> valid nbits b = true -> 0 <= s ->
  exists r,
    shl_assign nbits b s = Ok r /\ valid nbits r = true /\
    val r = (val b * 2 ^ s) mod 2 ^ nbits /\
    (forall i, 0 <= i < nbits ->
       at_ nbits r i = if i <? s then Ok false else at_ nbits b (i - s)) /\
    (s <= nbits ->
     exists r', shr_assign nbits r s = Ok r' /\
                val r' = val b mod 2 ^ (nbits - s)).
Proof.
  intros Hn Hv Hs. pose proof (valid_rep nbits b Hn Hv) as Hb.
  pose proof (val_valid nbits b Hn Hv) as Hx.
  destruct (shl_assign_rep nbits b _ s Hn Hs Hb) as [r [Hr Rr]].
  exists r. split; [exact Hr|]. split; [apply (rep_valid nbits _ _ Hn Rr)|].
  split; [apply Rr|]. split.
  - intros i Hi. rewrite (at_rep nbits r _ i Rr Hi).
    rewrite Z.testbit_mod_pow2 by lia. rewrite Z.mul_pow2_bits by lia.
    destruct (Z.ltb_spec i nbits); [|lia]. cbn [andb].
    destruct (Z.ltb_spec i s).
    + rewrite Z.testbit_neg_r by lia. reflexivity.
    + rewrite (at_rep nbits b _ (i - s) Hb) by lia. reflexivity.
  - intros Hle. destruct (shr_assign_rep nbits r _ s Hn Hs Rr) as [r' [Hr' Rr']].
    exists r'. split; [exact Hr'|]. destruct Rr' as [_ [-> _]].
    apply Z.bits_inj'. intros j Hj.
    rewrite Z.div_pow2_bits, !Z.testbit_mod_pow2, Z.mul_pow2_bits by lia.
    replace (j + s - s) with j by lia.
    destruct (Z.ltb_spec (j + s) nbits), (Z.ltb_spec j (nbits - s));
      try lia; reflexivity.
Qed.

Lemma shift_left_value_witness :
  0 < 12 /\ valid 12 [255; 9] = true /\ 0 <= 5 /\
  exists r,
    shl_assign 12 [255; 9] 5 = Ok r /\ valid 12 r = true /\
    val r = (val [255; 9] * 2 ^ 5) mod 2 ^ 12 /\
    (forall i, 0 <= i < 12 ->
       at_ 12 r i = if i <? 5 then Ok false else at_ 12 [255; 9] (i - 5)) /\
    (5 <= 12 ->
     exists r', shr_assign 12 r 5 = Ok r' /\
                val r' = val [255; 9] mod 2 ^ (12 - 5)).
Proof.
  split; [lia|]. split; [reflexivity|]. split; [lia|].
  apply (shift_left_value 12 [255; 9] 5); [lia|reflexivity|lia].
Defined.

Lemma to_Z_eq_mod nbits b v :
  0 < nbits -> rep nbits b (v mod 2 ^ nbits) ->
  - 2 ^ (nbits - 1) <= v < 2 ^ (nbits - 1) -> to_Z nbits b = v.
Proof.
  intros Hn [_ [Hv _]] Hfit. unfold to_Z. rewrite Hv. now apply signed_of_mod.
Qed.

Lemma to_Z_cong nbits a :
  0 < nbits -> valid nbits a = true ->
  exists k, val a = to_Z nbits a + k * 2 ^ nbits.
Proof.
  intros Hn Hv. unfold to_Z, signed.
  destruct (val a <? 2 ^ (nbits - 1)); [exists 0|exists 1]; lia.
Qed.

(** X13: [operator*] never throws and multiplies modulo [2 ^ nbits]; it
    is commutative and distributes over [operator+], and when the product
    of the two signed values fits the type the result is that product. *)
Theorem multiplication_wraps nbits a b c :
  0 < nbits -> valid nbits a = true -> valid nbits b = true ->
  valid nbits c = true ->
  exists p,
    mul nbits a b = Ok p /\ valid nbits p = true /\
    val p = (val a * val b) mod 2 ^ nbits /\
    mul nbits b a = Ok p /\
    (exists q s, mul nbits a c = Ok q /\ mul nbits a (add nbits b c) = Ok s /\
                 s = add nbits p q) /\
    (- 2 ^ (nbits - 1) <= to_Z nbits a * to_Z nbits b < 2 ^ (nbits - 1) ->
     to_Z nbits p = to_Z nbits a * to_Z nbits b).
Proof.
  intros Hn Hva Hvb Hvc.
  pose proof (valid_rep nbits a Hn Hva) as Ha.
  pose proof (valid_rep nbits b Hn Hvb) as Hb.
  pose proof (valid_rep nbits c Hn Hvc) as Hc.
  assert (HN : 2 ^ nbits <> 0) by (apply Z.pow_nonzero; lia).
  destruct (mul_rep nbits a b _ _ Hn Ha Hb) as [p [Hp Rp]].
  destruct (mul_rep nbits b a _ _ Hn Hb Ha) as [p' [Hp' Rp']].
  rewrite (Z.mul_comm (val b)) in Rp'.
  assert (p' = p) by (apply (rep_inj nbits _ _ _ Rp' Rp)). subst p'.
  destruct (mul_rep nbits a c _ _ Hn Ha Hc) as [q [Hq Rq]].
  pose proof (add_rep nbits b c _ _ Hn Hb Hc) as Rbc.
  destruct (mul_rep nbits a _ _ _ Hn Ha Rbc) as [s [Hs Rs]].
  pose proof (add_rep nbits p q _ _ Hn Rp Rq) as Rpq.
  exists p. split; [exact Hp|]. split; [apply (rep_valid nbits _ _ Hn Rp)|].
  split; [apply Rp|]. split; [exact Hp'|]. split.
  - exists q, s. split; [exact Hq|]. split; [exact Hs|].
    apply (rep_inj nbits s _ _ Rs).
    replace ((val a * ((val b + val c) mod 2 ^ nbits)) mod 2 ^ nbits)
      with (((val a * val b) mod 2 ^ nbits + (val a * val c) mod 2 ^ nbits)
              mod 2 ^ nbits); [exact Rpq|].
    rewrite <- Z.add_mod, Z.mul_mod_idemp_r by assumption.
    f_equal. lia.
  - intros Hfit. apply to_Z_eq_mod; [assumption| |assumption].
    destruct (to_Z_cong nbits a Hn Hva) as [ka Ea].
    destruct (to_Z_cong nbits b Hn Hvb) as [kb Eb].
    replace ((to_Z nbits a * to_Z nbits b) mod 2 ^ nbits)
      with ((val a * val b) mod 2 ^ nbits); [exact Rp|].
    rewrite Ea, Eb.
    replace ((to_Z nbits a + ka * 2 ^ nbits) * (to_Z nbits b + kb * 2 ^ nbits))
      with (to_Z nbits a * to_Z nbits b
            + (to_Z nbits a * kb + ka * to_Z nbits b + ka * kb * 2 ^ nbits)
              * 2 ^ nbits) by ring.
    apply Z.mod_add. assumption.
Qed.

Lemma multiplication_wraps_witness :
  0 < 8 /\ valid 8 [253] = true /\ valid 8 [7] = true /\ valid 8 [100] = true /\
  exists p,
    mul 8 [253] [7] = Ok p /\ valid 8 p = true /\
    val p = (val [253] * val [7]) mod 2 ^ 8 /\
    mul 8 [7] [253] = Ok p /\
    (exists q s, mul 8 [253] [100] = Ok q /\
                 mul 8 [253] (add 8 [7] [100]) = Ok s /\ s = add 8 p q) /\
    (- 2 ^ (8 - 1) <= to_Z 8 [253] * to_Z 8 [7] < 2 ^ (8 - 1) ->
     to_Z 8 p = to_Z 8 [253] * to_Z 8 [7]).
Proof.
  split; [lia|]. split; [reflexivity|]. split; [reflexivity|].
  split; [reflexivity|].
  apply (multiplication_wraps 8 [253] [7] [100]); [lia|reflexivity..].
Defined.

(* ------------------------------------------------------------------ *)
(** ** Most significant bit *)

Lemma findMsb_val nbits b x :
  0 < nbits -> rep nbits b x ->
  findMsb nbits b = if x =? 0 then -1 else Z.log2 x.
Proof.
  intros Hn Hb. assert (Hx : 0 <= x < 2 ^ nbits) by apply Hb.
  destruct (Z.eqb_spec x 0) as [E0|E0].
  - pose proof (nrBytes_bounds nbits Hn) as Hnb.
    destruct Hb as [[Hl Hbr] [Hv _]].
    destruct (findMsb_loop_spec b Hbr (Z.to_nat (nrBytes nbits)) (nrBytes nbits))
      as [[_ H]|[m [Hm [Hm0 [Hbit _]]]]].
    + lia.
    + intros j Hj. apply storage_bit_overflow. lia.
    + exact H.
    + rewrite <- val_testbit in Hbit by assumption.
      rewrite Hv, E0, Z.testbit_0_l in Hbit. discriminate.
  - destruct (findMsb_rep nbits b _ Hn Hb) as [Hr Hlog]; [lia|].
    symmetry. apply Z.log2_unique; lia.
Qed.

(** X14: [findMsb] is [-1] for the value zero and otherwise the position
    of the highest set bit, the base-2 logarithm of the unsigned value; it
    reads the bit pattern, so the highest bit of a negative value is its
    sign bit. *)
Theorem findMsb_log2 nbits b :
  0 < nbits -> valid nbits b = true ->
  findMsb nbits b = (if val b =? 0 then -1 else Z.log2 (val b)) /\
  (sign nbits b = Ok true -> findMsb nbits b = nbits - 1).
Proof.
  intros Hn Hv. pose proof (valid_rep nbits b Hn Hv) as Hb.
  pose proof (val_valid nbits b Hn Hv) as Hx.
  assert (E : findMsb nbits b = if val b =? 0 then -1 else Z.log2 (val b))
    by (now apply findMsb_val).
  split; [exact E|]. intros Hsign.
  rewrite (sign_rep nbits b _ Hn Hb) in Hsign. injection Hsign as Hsign.
  destruct (Z.ltb_spec (val b) (2 ^ (nbits - 1))); [discriminate|].
  assert (Hp : 0 < 2 ^ (nbits - 1)) by (apply pow2_pos; lia).
  rewrite E. destruct (Z.eqb_spec (val b) 0); [lia|].
  apply Z.log2_unique; [lia|]. unfold Z.succ.
  replace (nbits - 1 + 1) with nbits by lia. lia.
Qed.

Lemma findMsb_log2_witness :
  0 < 12 /\ valid 12 [0; 9] = true /\
  findMsb 12 [0; 9] = (if val [0; 9] =? 0 then -1 else Z.log2 (val [0; 9])) /\
  (sign 12 [0; 9] = Ok true -> findMsb 12 [0; 9] = 12 - 1).
Proof.
  split; [lia|]. split; [reflexivity|].
  apply (findMsb_log2 12 [0; 9]); [lia|reflexivity].
Defined.

(* ------------------------------------------------------------------ *)
(** ** Copies between widths *)

(** X15: [bitcopy] never throws and copies the unsigned bit pattern
    modulo [2 ^ nbits]: a wider target receives the source zero-extended
    (a negative source is not sign-extended), a narrower one the low
    [nbits] bits.  The converting constructor, which accepts a wider
    source only, therefore truncates, and keeps the signed value exactly
    when it fits the target. *)
Theorem bitcopy_value nbits src_nbits src :
  0 < nbits -> 0 < src_nbits -> valid src_nbits src = true ->
  exists r,
    bitcopy nbits src_nbits src = Ok r /\ valid nbits r = true /\
    val r = val src mod 2 ^ nbits /\
    (src_nbits <= nbits -> val r = val src) /\
    (nbits < src_nbits ->
       of_integer nbits src_nbits src = Ok r /\
       (- 2 ^ (nbits - 1) <= to_Z src_nbits src < 2 ^ (nbits - 1) ->
        to_Z nbits r = to_Z src_nbits src)).
Proof.
  intros Hn Hsn Hv. pose proof (valid_rep src_nbits src Hsn Hv) as Hs.
  pose proof (val_valid src_nbits src Hsn Hv) as Hx.
  destruct (bitcopy_rep nbits src_nbits src _ Hn Hsn Hs) as [r [Hr Rr]].
  exists r. split; [exact Hr|]. split; [apply (rep_valid nbits _ _ Hn Rr)|].
  split; [apply Rr|]. split.
  - intros Hle. destruct Rr as [_ [-> _]]. apply Z.mod_small.
    split; [lia|]. apply Z.lt_le_trans with (2 ^ src_nbits); [lia|].
    apply Z.pow_le_mono_r; lia.
  - intros Hlt. split.
    + unfold of_integer. rewrite Hr. cbn [bind].
      destruct (sign src_nbits src) as [sg|e] eqn:Hsg.
      * cbn [bind]. rewrite range_nil by lia. cbn [for_each].
        destruct sg; reflexivity.
      * rewrite (sign_rep src_nbits src _ Hsn Hs) in Hsg. discriminate.
    + intros Hfit. apply to_Z_eq_mod; [assumption| |assumption].
      destruct (to_Z_cong src_nbits src Hsn Hv) as [k Ek].
      replace (to_Z src_nbits src mod 2 ^ nbits) with (val src mod 2 ^ nbits);
        [exact Rr|].
      rewrite Ek. replace src_nbits with (nbits + (src_nbits - nbits)) at 2 by lia.
      rewrite Z.pow_add_r by lia.
      replace (k * (2 ^ nbits * 2 ^ (src_nbits - nbits)))
        with (k * 2 ^ (src_nbits - nbits) * 2 ^ nbits) by ring.
      apply Z.mod_add. apply Z.pow_nonzero; lia.
Qed.

Lemma bitcopy_value_witness :
  0 < 8 /\ 0 < 12 /\ valid 12 [251; 15] = true /\
  exists r,
    bitcopy 8 12 [251; 15] = Ok r /\ valid 8 r = true /\
    val r = val [251; 15] mod 2 ^ 8 /\
    (12 <= 8 -> val r = val [251; 15]) /\
    (8 < 12 ->
       of_integer 8 12 [251; 15] = Ok r /\
       (- 2 ^ (8 - 1) <= to_Z 12 [251; 15] < 2 ^ (8 - 1) ->
        to_Z 8 r = to_Z 12 [251; 15])).
Proof.
  split; [lia|]. split; [lia|]. split; [reflexivity|].
  apply (bitcopy_value 8 12 [251; 15]); [lia|lia|reflexivity].
Defined.

(* ------------------------------------------------------------------ *)
(** ** Conversion to native integers *)

Lemma wrap_small w z :
  0 < w -> - 2 ^ (w - 1) <= z < 2 ^ (w - 1) -> wrap w z = z.
Proof.
  intros Hw Hz. unfold wrap. pose proof (pow2_double w Hw).
  rewrite Z.mod_small by lia. lia.
Qed.

Lemma wrap_over w : 0 < w -> wrap w (- 2 ^ (w - 1) * 2) = 0.
Proof.
  intros Hw. unfold wrap. pose proof (pow2_double w Hw) as H2.
  assert (Hp : 0 < 2 ^ (w - 1)) by (apply pow2_pos; lia).
  replace (- 2 ^ (w - 1) * 2 + 2 ^ (w - 1)) with (2 ^ (w - 1) + (-1) * 2 ^ w) by lia.
  rewrite Z.mod_add by lia. rewrite Z.mod_small by lia. lia.
Qed.

Lemma native_mask_step w i :
  0 < w -> 0 <= i < w ->
  wrap w (Z.shiftl (native_mask w i) 1) = native_mask w (i + 1).
Proof.
  intros Hw Hi. rewrite Z.shiftl_mul_pow2 by lia. change (2 ^ 1) with 2.
  unfold native_mask.
  destruct (Z.ltb_spec i (w - 1)).
  - destruct (Z.ltb_spec (i + 1) (w - 1)).
    + rewrite wrap_small; [rewrite Z.pow_add_r by lia; reflexivity|assumption|].
      assert (2 ^ (i + 1) < 2 ^ (w - 1)) by (apply Z.pow_lt_mono_r; lia).
      assert (0 < 2 ^ (i + 1)) by (apply pow2_pos; lia).
      rewrite Z.pow_add_r in * by lia. lia.
    + destruct (Z.eqb_spec (i + 1) (w - 1)); [|lia].
      replace i with (w - 1 - 1) by lia.
      destruct (Z.eq_dec w 1); [lia|].
      replace (2 ^ (w - 1 - 1) * 2) with (2 ^ (w - 1))
        by (rewrite (pow2_double (w - 1)); lia).
      unfold wrap. pose proof (pow2_double w Hw) as H2.
      assert (Hp : 0 < 2 ^ (w - 1)) by (apply pow2_pos; lia).
      replace (2 ^ (w - 1) + 2 ^ (w - 1)) with (0 + 1 * 2 ^ w) by lia.
      rewrite Z.mod_add by lia. rewrite Z.mod_0_l by lia. lia.
  - destruct (Z.eqb_spec i (w - 1)); [|lia].
    destruct (Z.ltb_spec (i + 1) (w - 1)); [lia|].
    destruct (Z.eqb_spec (i + 1) (w - 1)); [lia|].
    now apply wrap_over.
Qed.

Lemma lor_sign_bit k v : 0 <= k -> 0 <= v < 2 ^ k -> Z.lor v (- 2 ^ k) = v - 2 ^ k.
Proof.
  intros Hk Hv.
  assert (Hl : Z.land v (- 2 ^ k) = 0).
  { apply Z.bits_inj'. intros j Hj. rewrite Z.land_spec, Z.bits_0.
    rewrite Z.bits_opp by lia. rewrite <- Z.ones_equiv.
    rewrite Z.testbit_ones_nonneg by lia.
    destruct (Z.ltb_spec j k).
    - cbn [negb]. apply andb_false_r.
    - rewrite (proj1 (lt_pow2_bits v k ltac:(lia) Hk)) by lia. reflexivity. }
  pose proof (Z.add_lor_land v (- 2 ^ k)) as H. lia.
Qed.

Lemma lor_native_mask w v i :
  0 < w -> 0 <= i < w -> 0 <= v < 2 ^ i ->
  Z.lor v (native_mask w i) = if i + 1 <? w then v + 2 ^ i else v + 2 ^ i - 2 ^ w.
Proof.
  intros Hw Hi Hv. unfold native_mask.
  destruct (Z.ltb_spec i (w - 1)).
  - destruct (Z.ltb_spec (i + 1) w); [|lia].
    rewrite <- Z.setbit_spec'. apply setbit_add; lia.
  - destruct (Z.eqb_spec i (w - 1)); [|lia].
    destruct (Z.ltb_spec (i + 1) w); [lia|]. subst i.
    rewrite lor_sign_bit by lia. rewrite (pow2_double w Hw). lia.
Qed.

Lemma mod_pow2_succ_if z k :
  0 <= k ->
  z mod 2 ^ (k + 1) = z mod 2 ^ k + (if Z.testbit z k then 2 ^ k else 0).
Proof.
  intros Hk. rewrite mod_pow2_succ by assumption.
  assert (Hm : 0 <= z mod 2 ^ k < 2 ^ k) by (apply Z.mod_pos_bound, pow2_pos; lia).
  destruct (Z.testbit z k).
  - apply setbit_add; assumption.
  - rewrite clearbit_clear; [lia|].
    rewrite Z.testbit_mod_pow2 by lia.
    destruct (Z.ltb_spec k k); [lia|reflexivity].
Qed.

Lemma to_native_value w nbits a :
  0 < nbits -> 1 < w -> valid nbits a = true ->
  to_native w nbits a
  = Ok (if nbits <=? w then to_Z nbits a else signed w (val a mod 2 ^ w)).
Proof.
  intros Hn Hw1 Hv. assert (Hw : 0 < w) by lia.
  pose proof (valid_rep nbits a Hn Hv) as Ha.
  pose proof (val_valid nbits a Hn Hv) as Hx.
  pose proof (pow2_double w Hw) as H2w. pose proof (pow2_double nbits Hn) as H2n.
  unfold to_native. set (upper := if nbits <? w then nbits else w).
  assert (Hup : 0 < upper <= nbits /\ upper <= w).
  { unfold upper. destruct (Z.ltb_spec nbits w); lia. }
  destruct (for_each_range (native_inv w (val a)) (to_native_step w nbits a)
              0 upper (0, 1)) as [[value mask] [Hloop [Hm Hval]]].
  - lia.
  - split; cbn [fst snd].
    + unfold native_mask. destruct (Z.ltb_spec 0 (w - 1)); [reflexivity|lia].
    + destruct (Z.ltb_spec 0 w); [|lia]. rewrite Z.pow_0_r, Z.mod_1_r. reflexivity.
  - intros i [value mask] Hi [Hm Hval]. cbn [fst snd] in Hm, Hval.
    unfold to_native_step. rewrite (at_rep nbits a _ i Ha) by lia. cbn [bind].
    eexists. split; [reflexivity|]. split; cbn [fst snd].
    + rewrite Hm. apply native_mask_step; lia.
    + destruct (Z.ltb_spec i w); [|lia]. rewrite Hval, Hm.
      assert (Hmod : 0 <= val a mod 2 ^ i < 2 ^ i)
        by (apply Z.mod_pos_bound, pow2_pos; lia).
      pose proof (mod_pow2_succ_if (val a) i ltac:(lia)) as Hs.
      destruct (Z.testbit (val a) i).
      * rewrite (lor_native_mask w _ i Hw) by lia.
        destruct (Z.ltb_spec (i + 1) w); [lia|].
        assert (i + 1 = w) as Ew by lia. rewrite Ew in Hs.
        assert (Hi1 : i = w - 1) by lia. rewrite Hi1 in *.
        unfold signed. destruct (Z.ltb_spec (val a mod 2 ^ w) (2 ^ (w - 1))); lia.
      * rewrite Z.lor_0_r. destruct (Z.ltb_spec (i + 1) w); [lia|].
        assert (i + 1 = w) as Ew by lia. rewrite Ew in Hs.
        assert (Hi1 : i = w - 1) by lia. rewrite Hi1 in *.
        unfold signed. destruct (Z.ltb_spec (val a mod 2 ^ w) (2 ^ (w - 1))); lia.
  - cbn [fst snd] in Hm, Hval. rewrite Hloop. cbn [bind].
    rewrite (sign_rep nbits a _ Hn Ha). cbn [bind].
    assert (Hp : 0 < 2 ^ (nbits - 1)) by (apply pow2_pos; lia).
    destruct (Z.lt_ge_cases nbits w) as [Hlt|Hge].
    + assert (Eu : upper = nbits) by (unfold upper; destruct (Z.ltb_spec nbits w); lia).
      clearbody upper. subst upper. destruct (Z.ltb_spec nbits w); [|lia].
      destruct (Z.leb_spec nbits w); [|lia].
      rewrite Z.mod_small in Hval by lia. subst value.
      unfold to_Z, signed.
      destruct (Z.ltb_spec (val a) (2 ^ (nbits - 1))) as [Hpos|Hneg]; cbn [negb andb].
      * reflexivity.
      * destruct (for_each_range (extend_inv w nbits (val a)) (sign_extend_step w)
                    nbits w (val a, mask)) as [[value' mask'] [Hloop' [_ Hval']]].
        -- lia.
        -- split; cbn [fst snd]; [exact Hm|].
           destruct (Z.ltb_spec nbits w); lia.
        -- intros i [v m] Hi [Hm' Hv']. cbn [fst snd] in Hm', Hv'.
           unfold sign_extend_step. eexists. split; [reflexivity|].
           split; cbn [fst snd].
           ++ rewrite Hm'. apply native_mask_step; lia.
           ++ destruct (Z.ltb_spec i w); [|lia]. rewrite Hv', Hm'.
              assert (2 ^ nbits <= 2 ^ i) by (apply Z.pow_le_mono_r; lia).
              rewrite (lor_native_mask w _ i Hw) by lia.
              destruct (Z.ltb_spec (i + 1) w).
              ** rewrite (Z.pow_add_r 2 i 1) by lia. lia.
              ** assert (Hi1 : i = w - 1) by lia. rewrite Hi1 in *. lia.
        -- cbn [fst snd] in Hval'. rewrite Hloop'. cbn [bind].
           destruct (Z.ltb_spec w w); [lia|]. now rewrite Hval'.
    + assert (Eu : upper = w) by (unfold upper; destruct (Z.ltb_spec nbits w); lia).
      clearbody upper. subst upper. destruct (Z.ltb_spec w w); [lia|].
      rewrite andb_false_r. subst value.
      destruct (Z.leb_spec nbits w); [|reflexivity].
      assert (nbits = w) by lia. subst w. rewrite Z.mod_small by lia. reflexivity.
Qed.

(** X16: [to_short], [to_int] and [to_long_long] never throw on a valid
    value; a value no wider than the result type is returned exactly
    (a negative one by sign extension), a wider one is cut to the low 16,
    32 or 64 bits, read as a signed number. *)
Theorem to_native_values nbits a :
  0 < nbits -> valid nbits a = true ->
  to_short nbits a
  = Ok (if nbits <=? 16 then to_Z nbits a else signed 16 (val a mod 2 ^ 16)) /\
  to_int nbits a
  = Ok (if nbits <=? 32 then to_Z nbits a else signed 32 (val a mod 2 ^ 32)) /\
  to_long_long nbits a
  = Ok (if nbits <=? 64 then to_Z nbits a else signed 64 (val a mod 2 ^ 64)).
Proof.
  intros Hn Hv. unfold to_short, to_int, to_long_long.
  split; [|split]; apply to_native_value; (assumption || lia).
Qed.

Lemma to_native_values_witness :
  0 < 12 /\ valid 12 [251; 15] = true /\
  to_short 12 [251; 15]
  = Ok (if 12 <=? 16 then to_Z 12 [251; 15]
        else signed 16 (val [251; 15] mod 2 ^ 16)) /\
  to_int 12 [251; 15]
  = Ok (if 12 <=? 32 then to_Z 12 [251; 15]
        else signed 32 (val [251; 15] mod 2 ^ 32)) /\
  to_long_long 12 [251; 15]
  = Ok (if 12 <=? 64 then to_Z 12 [251; 15]
        else signed 64 (val [251; 15] mod 2 ^ 64)).
Proof.
  split; [lia|]. split; [reflexivity|].
  apply (to_native_values 12 [251; 15]); [lia|reflexivity].
Defined.

(** X17: for a width of at most 64 bits, construction from a
    [long long] and [to_long_long] are inverse to each other: a native
    value that fits the type is read back unchanged, and a valid
    [integer<nbits>] is rebuilt from the native value it converts to. *)
Theorem native_roundtrip nbits a v :
  0 < nbits <= 64 -> valid nbits a = true ->
  - 2 ^ (nbits - 1) <= v < 2 ^ (nbits - 1) ->
  (exists b, of_int nbits v = Ok b /\ to_long_long nbits b = Ok v) /\
  (exists n, to_long_long nbits a = Ok n /\ of_int nbits n = Ok a).
Proof.
  intros Hn Hv Hfit.
  assert (H63 : 2 ^ (nbits - 1) <= 2 ^ 63) by (apply Z.pow_le_mono_r; lia).
  split.
  - destruct (of_int_int64 nbits v) as [b [Hb Rb]]; [lia|lia|].
    exists b. split; [exact Hb|]. unfold to_long_long.
    pose proof (rep_valid nbits b _ ltac:(lia) Rb) as Vb.
    rewrite to_native_value by (assumption || lia).
    destruct (Z.leb_spec nbits 64); [|lia]. f_equal.
    apply to_Z_eq_mod; [lia|exact Rb|exact Hfit].
  - exists (to_Z nbits a). unfold to_long_long.
    rewrite to_native_value by (assumption || lia).
    destruct (Z.leb_spec nbits 64); [|lia]. split; [reflexivity|].
    pose proof (valid_rep nbits a ltac:(lia) Hv) as Ha.
    pose proof (val_valid nbits a ltac:(lia) Hv) as Hx.
    pose proof (signed_range nbits (val a) ltac:(lia) Hx) as Hr.
    fold (to_Z nbits a) in Hr.
    destruct (of_int_int64 nbits (to_Z nbits a)) as [b [Hb Rb]]; [lia|lia|].
    rewrite Hb. f_equal. apply (rep_inj nbits _ _ (val a)); [|exact Ha].
    rewrite (to_Z_mod nbits a) in Rb by (assumption || lia). exact Rb.
Qed.

Lemma native_roundtrip_witness :
  0 < 12 <= 64 /\ valid 12 [251; 15] = true /\
  - 2 ^ (12 - 1) <= -7 < 2 ^ (12 - 1) /\
  (exists b, of_int 12 (-7) = Ok b /\ to_long_long 12 b = Ok (-7)) /\
  (exists n, to_long_long 12 [251; 15] = Ok n /\ of_int 12 n = Ok [251; 15]).
Proof.
  split; [lia|]. split; [reflexivity|]. split; [lia|].
  apply (native_roundtrip 12 [251; 15] (-7)); [lia|reflexivity|lia].
Defined.

(* ------------------------------------------------------------------ *)
(** ** The binary scale *)

Lemma gt_literal_one nbits v x :
  2 <= nbits -> rep nbits v x -> x < 2 ^ (nbits - 1) ->
  operator_gt_literal nbits v 1 = Ok (1 <? x).
Proof.
  intros Hn Hv Hx. unfold operator_gt_literal.
  assert (H2 : 2 ^ 1 <= 2 ^ (nbits - 1)) by (apply Z.pow_le_mono_r; lia).
  assert (H3 : 2 ^ (nbits - 1) < 2 ^ nbits) by (apply Z.pow_lt_mono_r; lia).
  change (2 ^ 1) with 2 in H2.
  destruct (of_int_int64 nbits 1) as [one [Hone Rone]]; [lia|lia|].
  rewrite Z.mod_small in Rone by lia.
  rewrite Hone. cbn [bind]. rewrite (lt_rep nbits one v 1 x) by (assumption || lia).
  rewrite !signed_small by (destruct Hv as [_ [_ ?]]; lia). reflexivity.
Qed.

Lemma log2_half x : 2 <= x -> Z.log2 x = 1 + Z.log2 (x / 2).
Proof.
  intros Hx. pose proof (Z.log2_shiftr x 1 ltac:(lia)) as H.
  rewrite Z.shiftr_div_pow2 in H by lia. change (2 ^ 1) with 2 in H.
  assert (1 <= Z.log2 x) by (apply (Z.log2_le_pow2 x 1); lia).
  lia.
Qed.

Lemma scale_loop_log2 nbits :
  2 <= nbits ->
  forall fuel v x sc,
    rep nbits v x -> x < 2 ^ (nbits - 1) -> x < 2 ^ Z.of_nat fuel -> (1 <= fuel)%nat ->
    scale_loop fuel nbits v sc = Ok (Some (sc + Z.log2 x)).
Proof.
  intros Hn. induction fuel as [|fuel IH]; intros v x sc Hv Hx Hf H1; [lia|].
  cbn [scale_loop]. rewrite (gt_literal_one nbits v x Hn Hv Hx). cbn [bind].
  assert (H0 : 0 <= x) by (destruct Hv as [_ [_ ?]]; lia).
  destruct (Z.ltb_spec 1 x) as [Hgt|Hle].
  - destruct (shr_assign_rep nbits v x 1 ltac:(lia) ltac:(lia) Hv) as [v' [Hv' Rv']].
    rewrite Hv'. cbn [bind]. change (2 ^ 1) with 2 in Rv'.
    assert (Hhalf : x / 2 <= x) by (Z.div_mod_to_equations; lia).
    rewrite (IH v' (x / 2) (sc + 1) Rv').
    + rewrite (log2_half x) by lia. do 2 f_equal. lia.
    + lia.
    + rewrite Nat2Z.inj_succ, Z.pow_succ_r in Hf by lia.
      Z.div_mod_to_equations; lia.
    + destruct fuel; [|lia]. cbn in Hf. lia.
  - assert (E : Z.log2 x = 0).
    { destruct (Z.eq_dec x 0) as [->|]; [reflexivity|].
      replace x with 1 by lia. reflexivity. }
    rewrite E, Z.add_0_r. reflexivity.
Qed.

Lemma scale_loop_one_bit_zero more z : scale_loop more 1 [0] z = Ok None.
Proof.
  revert z. induction more as [|more IH]; intros z; [reflexivity|].
  cbn [scale_loop].
  change (operator_gt_literal 1 [0] 1) with (@Ok bool true). cbn [bind].
  change (shr_assign 1 [0] 1) with (@Ok bytes [0]). cbn [bind]. apply IH.
Qed.

(** X18: given fuel for [nbits] rounds, [scale] terminates on every valid
    value of a type of at least two bits and returns the base-2 logarithm
    of the magnitude (0 for the values 0 and 1, [nbits - 1] for the most
    negative value).  On the one-bit type it returns 0 for the value -1
    and its loop never ends for the value 0. *)
Theorem scale_log2 fuel nbits i :
  0 < nbits -> valid nbits i = true -> nbits <= Z.of_nat fuel ->
  (2 <= nbits ->
   scale fuel nbits i = Ok (Some (Z.log2 (Z.abs (to_Z nbits i))))) /\
  (nbits = 1 ->
   forall more, scale more nbits i = if iszero i then Ok None else Ok (Some 0)).
Proof.
  intros Hn Hv Hfuel. split.
  - intros H2. pose proof (valid_rep nbits i Hn Hv) as Hi.
    pose proof (val_valid nbits i Hn Hv) as Hx.
    pose proof (pow2_double nbits Hn) as Hd.
    assert (Hp : 0 < 2 ^ (nbits - 1)) by (apply pow2_pos; lia).
    assert (Hpf : 2 ^ (nbits - 1) <= 2 ^ Z.of_nat fuel)
      by (apply Z.pow_le_mono_r; lia).
    unfold scale. rewrite (sign_rep nbits i _ Hn Hi). cbn [bind].
    unfold to_Z, signed.
    destruct (Z.ltb_spec (val i) (2 ^ (nbits - 1))) as [Hpos|Hneg]; cbn [negb].
    + rewrite (scale_loop_log2 nbits H2 fuel i (val i) 0 Hi) by lia.
      rewrite Z.abs_eq by lia. reflexivity.
    + destruct (twos_complement_rep nbits i _ Hn Hi) as [v [Hv' Rv]].
      rewrite Hv'. cbn [bind].
      assert (Em : (- val i) mod 2 ^ nbits = 2 ^ nbits - val i).
      { rewrite Z.mod_opp_l_nz; rewrite ?Z.mod_small; lia. }
      rewrite Em in Rv. rewrite (eq_rep nbits v i _ _ Rv Hi).
      destruct (Z.eqb_spec (2 ^ nbits - val i) (val i)) as [E|E].
      * replace (val i - 2 ^ nbits) with (- 2 ^ (nbits - 1)) by lia.
        rewrite Z.abs_opp, Z.abs_eq, Z.log2_pow2 by lia. reflexivity.
      * rewrite (scale_loop_log2 nbits H2 fuel v _ 0 Rv) by lia.
        rewrite Z.abs_neq by lia.
        replace (- (val i - 2 ^ nbits)) with (2 ^ nbits - val i) by lia.
        reflexivity.
  - intros -> more. clear Hfuel.
    assert (Hc : i = [0] \/ i = [1]).
    { pose proof (valid_masked 1 i Hv) as Hmask.
      destruct (valid_wf 1 i Hv) as [Hl Hbr]. change (nrBytes 1) with 1 in Hl.
      destruct i as [|x [|y t]]; cbn [List.length] in Hl; try lia.
      apply Forall_inv in Hbr. cbv beta in Hbr. destruct Hbr as [Hr0 Hr1].
      assert (Hlt : x < 2 ^ 1).
      { apply (proj2 (lt_pow2_bits x 1 Hr0 ltac:(lia))). intros j Hj.
        destruct (Z.lt_ge_cases j 8) as [Hj8|Hj8].
        - specialize (Hmask j Hj). unfold storage_bit in Hmask.
          rewrite Z.div_small, Z.mod_small in Hmask by lia.
          rewrite get_cons_0 in Hmask. exact Hmask.
        - apply (proj1 (lt_pow2_bits x 8 Hr0 ltac:(lia))); [|lia].
          change (2 ^ 8) with 256. lia. }
      change (2 ^ 1) with 2 in Hlt.
      assert (x = 0 \/ x = 1) as [-> | ->] by lia; [left|right]; reflexivity. }
    destruct Hc as [-> | ->].
    + cbn [iszero forallb Z.eqb andb]. unfold scale.
      change (sign 1 [0]) with (@Ok bool false). cbn [bind].
      apply scale_loop_one_bit_zero.
    + reflexivity.
Qed.

Lemma scale_log2_witness :
  0 < 8 /\ valid 8 [156] = true /\ 8 <= Z.of_nat 8 /\
  (2 <= 8 -> scale 8 8 [156] = Ok (Some (Z.log2 (Z.abs (to_Z 8 [156]))))) /\
  (8 = 1 -> forall more, scale more 8 [156] = if iszero [156] then Ok None else Ok (Some 0)).
Proof.
  split; [lia|]. split; [reflexivity|]. split; [vm_compute; discriminate|].
  apply (scale_log2 8 8 [156]); [lia|reflexivity|vm_compute; discriminate].
Defined.

(* ------------------------------------------------------------------ *)
(** ** The decimal helper: [unpad], [less], [add], [sub] *)

Lemma get_nth d (i : nat) : get d (Z.of_nat i) = nth i d 0.
Proof. unfold get. now rewrite Nat2Z.id. Qed.

Lemma removelast_firstn_all (m : nat) (d : list Z) :
  (0 < m <= List.length d)%nat -> removelast (firstn m d) = firstn (m - 1) d.
Proof.
  intros H. destruct m as [|m]; [lia|].
  replace (S m - 1)%nat with m by lia. apply removelast_firstn. lia.
Qed.

Lemma zeros_snoc l x : zeros (l ++ [x]) = (zeros l + if (x =? 0)%Z then 1 else 0)%nat.
Proof.
  unfold zeros. rewrite filter_app, length_app. cbn [filter].
  destruct (x =? 0); reflexivity.
Qed.

Lemma firstn_succ_nth (l : list Z) (h : nat) :
  (h < List.length l)%nat -> firstn (S h) l = firstn h l ++ [nth h l 0].
Proof.
  revert l. induction h as [|h IH]; intros [|x l] H; cbn [List.length] in H; try lia.
  - reflexivity.
  - cbn [firstn nth app]. f_equal. apply IH. lia.
Qed.

Lemma unpad_loop_firstn d :
  forall (hi m : nat),
    (hi < m <= List.length d)%nat ->
    impl.unpad_loop (down_range (Z.of_nat hi) 1) (firstn m d)
    = firstn (m - zeros (firstn hi (tl d))) d.
Proof.
  induction hi as [|hi IH]; intros m Hm.
  - rewrite down_range_nil by lia. cbn [impl.unpad_loop firstn].
    unfold zeros. cbn [filter List.length]. now rewrite Nat.sub_0_r.
  - rewrite down_range_cons by lia. cbn [impl.unpad_loop].
    replace (Z.of_nat (S hi) - 1) with (Z.of_nat hi) by lia.
    rewrite get_nth. rewrite nth_firstn.
    destruct (Nat.ltb_spec (S hi) m) as [_|]; [|lia].
    assert (Htl : nth (S hi) d 0 = nth hi (tl d) 0) by (destruct d; [destruct hi|]; reflexivity).
    assert (Hlen : (hi < List.length (tl d))%nat) by (destruct d; cbn [List.length tl] in *; lia).
    rewrite (firstn_succ_nth (tl d) hi Hlen), zeros_snoc, <- Htl.
    destruct (nth (S hi) d 0 =? 0).
    + rewrite removelast_firstn_all by lia. rewrite IH by lia. f_equal. lia.
    + rewrite IH by lia. f_equal. lia.
Qed.

Lemma zeros_le l : (zeros l <= List.length l)%nat.
Proof. unfold zeros. apply filter_length_le. Qed.

Lemma zeros_none l : Forall (fun y => y <> 0) l -> zeros l = 0%nat.
Proof.
  induction 1 as [|x t Hx _ IH]; [reflexivity|]. unfold zeros in *.
  cbn [filter]. destruct (Z.eqb_spec x 0); [contradiction|exact IH].
Qed.

Lemma zeros_repeat k : zeros (repeat 0 k) = k.
Proof.
  induction k as [|k IH]; [reflexivity|]. unfold zeros in *. cbn [repeat filter].
  cbn [Z.eqb List.length]. now rewrite IH.
Qed.

Lemma unpad_firstn_zeros d :
  impl.unpad_digits d = firstn (List.length d - zeros (tl d)) d /\
  (List.length d - zeros (tl d) <= List.length d)%nat.
Proof.
  split; [|lia].
  unfold impl.unpad_digits. destruct d as [|x t]; [reflexivity|].
  cbn [List.length tl].
  replace (Z.of_nat (S (List.length t)) - 1) with (Z.of_nat (List.length t)) by lia.
  rewrite <- (firstn_all (x :: t)) at 1.
  rewrite unpad_loop_firstn by (cbn [List.length]; lia).
  cbn [tl List.length]. now rewrite firstn_all.
Qed.

(** X19: [unpad] drops from the high end as many digits as there are
    zeros anywhere above the lowest digit.  It therefore strips leading
    zeros correctly exactly when no other digit above the lowest is zero,
    and it never drops the lowest digit. *)
Theorem unpad_drops_zero_count d :
  impl.unpad_digits d = firstn (List.length d - zeros (tl d)) d /\
  (forall x body k,
     d = x :: body ++ repeat 0 k -> Forall (fun y => y <> 0) body ->
     impl.unpad_digits d = x :: body) /\
  (forall x t, d = x :: t -> exists t', impl.unpad_digits d = x :: t').
Proof.
  assert (E : impl.unpad_digits d = firstn (List.length d - zeros (tl d)) d).
  { apply unpad_firstn_zeros. }
  split; [exact E|]. split.
  - intros x body k -> Hbody. rewrite E. cbn [tl List.length].
    unfold zeros. rewrite filter_app, !length_app. fold (zeros body) (zeros (repeat 0 k)).
    rewrite (zeros_none body Hbody), zeros_repeat, repeat_length.
    replace (S (List.length body + k) - (0 + k))%nat with (S (List.length body)) by lia.
    cbn [firstn]. f_equal. rewrite firstn_app, firstn_all.
    replace (List.length body - List.length body)%nat with 0%nat by lia.
    cbn [firstn]. apply app_nil_r.
  - intros x t ->. rewrite E. cbn [tl List.length].
    pose proof (zeros_le t).
    replace (S (List.length t) - zeros t)%nat with (S (List.length t - zeros t)) by lia.
    cbn [firstn]. eexists. reflexivity.
Qed.

Lemma less_loop_spec :
  forall l r, List.length l = List.length r -> digit_range l -> digit_range r ->
    impl.less_loop (rev l) (rev r) = (dval l <? dval r).
Proof.
  induction l as [|x l IH] using rev_ind; intros r Hlen Hl Hr.
  - destruct r; [reflexivity|discriminate].
  - destruct r as [|y r _] using rev_ind.
    { rewrite length_app in Hlen. cbn [List.length] in Hlen. lia. }
    rewrite !length_app in Hlen. cbn [List.length] in Hlen.
    assert (Hlen' : List.length l = List.length r) by lia.
    apply Forall_app in Hl as [Hl Hx]. apply Forall_app in Hr as [Hr Hy].
    apply Forall_inv in Hx. apply Forall_inv in Hy. cbv beta in Hx, Hy.
    rewrite !rev_app_distr. cbn [rev app impl.less_loop].
    rewrite !dval_app, Hlen'. cbn [dval]. rewrite !Z.mul_0_r, !Z.add_0_r.
    pose proof (dval_bounds l Hl) as Bl. pose proof (dval_bounds r Hr) as Br.
    rewrite Hlen' in Bl. set (p := 10 ^ Z.of_nat (List.length r)) in *.
    destruct (Z.ltb_spec x y).
    + symmetry. apply Z.ltb_lt. nia.
    + destruct (Z.ltb_spec y x).
      * symmetry. apply Z.ltb_ge. nia.
      * assert (x = y) by lia. subst y. rewrite (IH r Hlen' Hl Hr).
        destruct (Z.ltb_spec (dval l) (dval r)), (Z.ltb_spec (dval l + p * x) (dval r + p * x));
          try reflexivity; lia.
Qed.

Lemma canonical_digits d : canonical d -> digit_range d /\ d <> [].
Proof.
  intros [-> | [H [H' _]]]; [|now split]. split; [|discriminate].
  constructor; [lia|constructor].
Qed.

Lemma canonical_longer l r :
  canonical l -> canonical r -> (List.length l < List.length r)%nat ->
  dval l < dval r.
Proof.
  intros Hl Hr Hlen. destruct (canonical_digits l Hl) as [Dl Nl].
  pose proof (dval_bounds l Dl) as Bl.
  destruct Hr as [-> | [Dr [Nr Hr]]].
  - destruct l; [contradiction|cbn [List.length] in Hlen; lia].
  - assert (10 ^ Z.of_nat (List.length l) <= 10 ^ (Z.of_nat (List.length r) - 1))
      by (apply Z.pow_le_mono_r; lia).
    lia.
Qed.

(** X20: on digit sequences without leading zeros, [less] decides the
    order of the magnitudes; it does not look at the signs. *)
Theorem less_compares_magnitudes lhs rhs :
  canonical (impl.digits lhs) -> canonical (impl.digits rhs) ->
  impl.less lhs rhs = (dval (impl.digits lhs) <? dval (impl.digits rhs)).
Proof.
  intros Hl Hr. unfold impl.less.
  destruct (Nat.ltb_spec (List.length (impl.digits lhs)) (List.length (impl.digits rhs))).
  { symmetry. apply Z.ltb_lt. now apply canonical_longer. }
  destruct (Nat.ltb_spec (List.length (impl.digits rhs)) (List.length (impl.digits lhs))).
  { symmetry. apply Z.ltb_ge. apply Z.lt_le_incl. now apply canonical_longer. }
  apply less_loop_spec; [lia|apply (canonical_digits _ Hl)|apply (canonical_digits _ Hr)].
Qed.

Lemma canonical_21 : canonical [1; 2].
Proof.
  right. split; [|split]; [|discriminate|cbn; lia].
  repeat constructor; lia.
Qed.

Lemma canonical_9 : canonical [9].
Proof.
  right. split; [|split]; [|discriminate|cbn; lia].
  repeat constructor; lia.
Qed.

Lemma less_compares_magnitudes_witness :
  canonical (impl.digits (impl.mk_decimal [9] true)) /\
  canonical (impl.digits (impl.mk_decimal [1; 2] false)) /\
  impl.less (impl.mk_decimal [9] true) (impl.mk_decimal [1; 2] false)
  = (dval (impl.digits (impl.mk_decimal [9] true))
     <? dval (impl.digits (impl.mk_decimal [1; 2] false))).
Proof.
  split; [exact canonical_9|]. split; [exact canonical_21|].
  apply (less_compares_magnitudes (impl.mk_decimal [9] true)
           (impl.mk_decimal [1; 2] false) canonical_9 canonical_21).
Defined.

Lemma add_magnitudes_canonical lhs rhs :
  canonical (impl.digits lhs) -> canonical (impl.digits rhs) ->
  canonical (impl.digits (impl.add_magnitudes lhs rhs)) /\
  dval (impl.digits (impl.add_magnitudes lhs rhs))
  = dval (impl.digits lhs) + dval (impl.digits rhs) /\
  impl.sign (impl.add_magnitudes lhs rhs) = impl.sign lhs.
Proof.
  intros Hl Hr. destruct (canonical_digits _ Hl) as [Dl Nl].
  destruct (canonical_digits _ Hr) as [Dr Nr].
  destruct (add_magnitudes_spec lhs rhs Dl Dr) as [_ [Hv [Hs Hn]]].
  split; [|split; assumption].
  destruct Hl as [El | Hl].
  - destruct Hr as [Er | Hr].
    + left. destruct lhs as [ld ls], rhs as [rd rs]. cbn [impl.digits] in *.
      subst. reflexivity.
    + right. apply Hn. right. split; [assumption|]. rewrite El.
      destruct (impl.digits rhs); [contradiction|cbn [List.length]; lia].
  - right. apply Hn.
    destruct (Nat.le_gt_cases (List.length (impl.digits rhs))
                (List.length (impl.digits lhs))) as [H|H].
    + left. now split.
    + right. split; [|lia]. destruct Hr as [Er | Hr]; [|assumption].
      rewrite Er in H. cbn [List.length] in H.
      destruct (impl.digits lhs); [contradiction|cbn [List.length] in H; lia].
Qed.

(** X21: on operands without leading zeros, [add] of two decimals of the
    same sign and [sub] of two decimals of different signs compute the sum
    of the magnitudes, keep the sign of the left operand, and return a
    result without leading zeros. *)
Theorem decimal_sum lhs rhs :
  canonical (impl.digits lhs) -> canonical (impl.digits rhs) ->
  (impl.sign lhs = impl.sign rhs ->
   canonical (impl.digits (impl.add lhs rhs)) /\
   dval (impl.digits (impl.add lhs rhs))
   = dval (impl.digits lhs) + dval (impl.digits rhs) /\
   impl.sign (impl.add lhs rhs) = impl.sign lhs) /\
  (impl.sign lhs <> impl.sign rhs ->
   canonical (impl.digits (impl.sub lhs rhs)) /\
   dval (impl.digits (impl.sub lhs rhs))
   = dval (impl.digits lhs) + dval (impl.digits rhs) /\
   impl.sign (impl.sub lhs rhs) = impl.sign lhs).
Proof.
  intros Hl Hr. split; intros Hs.
  - rewrite (add_same_sign lhs rhs Hs). now apply add_magnitudes_canonical.
  - unfold impl.sub.
    replace (negb (Bool.eqb (impl.sign lhs) (impl.sign rhs))) with true
      by (destruct (impl.sign lhs), (impl.sign rhs); try reflexivity; congruence).
    apply (add_magnitudes_canonical lhs
             (impl.mk_decimal (impl.digits rhs) (negb (impl.sign rhs))) Hl Hr).
Qed.

Lemma decimal_sum_witness :
  canonical (impl.digits (impl.mk_decimal [9] true)) /\
  canonical (impl.digits (impl.mk_decimal [1; 2] true)) /\
  (impl.sign (impl.mk_decimal [9] true) = impl.sign (impl.mk_decimal [1; 2] true) ->
   canonical (impl.digits (impl.add (impl.mk_decimal [9] true) (impl.mk_decimal [1; 2] true))) /\
   dval (impl.digits (impl.add (impl.mk_decimal [9] true) (impl.mk_decimal [1; 2] true)))
   = dval (impl.digits (impl.mk_decimal [9] true))
     + dval (impl.digits (impl.mk_decimal [1; 2] true)) /\
   impl.sign (impl.add (impl.mk_decimal [9] true) (impl.mk_decimal [1; 2] true))
   = impl.sign (impl.mk_decimal [9] true)) /\
  (impl.sign (impl.mk_decimal [9] true) <> impl.sign (impl.mk_decimal [1; 2] true) ->
   canonical (impl.digits (impl.sub (impl.mk_decimal [9] true) (impl.mk_decimal [1; 2] true))) /\
   dval (impl.digits (impl.sub (impl.mk_decimal [9] true) (impl.mk_decimal [1; 2] true)))
   = dval (impl.digits (impl.mk_decimal [9] true))
     + dval (impl.digits (impl.mk_decimal [1; 2] true)) /\
   impl.sign (impl.sub (impl.mk_decimal [9] true) (impl.mk_decimal [1; 2] true))
   = impl.sign (impl.mk_decimal [9] true)).
Proof.
  split; [exact canonical_9|]. split; [exact canonical_21|].
  apply (decimal_sum (impl.mk_decimal [9] true) (impl.mk_decimal [1; 2] true)
           canonical_9 canonical_21).
Defined.

Lemma sub_digits_spec l :
  forall r b,
    digit_range l -> digit_range r -> List.length l = List.length r ->
    0 <= b <= 1 ->
    digit_range (impl.sub_digits l r b) /\
    List.length (impl.sub_digits l r b) = List.length l /\
    exists bout, 0 <= bout <= 1 /\
      dval (impl.sub_digits l r b)
      = dval l - b - dval r + bout * 10 ^ Z.of_nat (List.length l).
Proof.
  induction l as [|x l IH]; intros r b Hl Hr Hlen Hb.
  - destruct r; [|discriminate]. cbn [impl.sub_digits dval List.length].
    split; [constructor|]. split; [reflexivity|]. exists b.
    change (Z.of_nat 0) with 0. rewrite Z.pow_0_r. lia.
  - destruct r as [|y r]; [discriminate|]. injection Hlen as Hlen.
    inversion Hl as [|? ? Hx Hl']; subst. inversion Hr as [|? ? Hy Hr']; subst.
    cbv beta in Hx, Hy. cbn [impl.sub_digits].
    replace (Z.of_nat (List.length (x :: l))) with (1 + Z.of_nat (List.length l))
      by (cbn [List.length]; lia).
    rewrite Z.pow_add_r by lia. change (10 ^ 1) with 10.
    destruct (Z.ltb_spec (x - b) y).
    + destruct (IH r 1 Hl' Hr' Hlen ltac:(lia)) as [Hd [Hn [bout [Hbo Hv]]]].
      rewrite u8_small by lia.
      split; [constructor; [lia|assumption]|].
      split; [cbn [List.length]; now rewrite Hn|].
      exists bout. split; [assumption|]. rewrite !dval_cons, Hv. lia.
    + destruct (IH r 0 Hl' Hr' Hlen ltac:(lia)) as [Hd [Hn [bout [Hbo Hv]]]].
      rewrite u8_small by lia.
      split; [constructor; [lia|assumption]|].
      split; [cbn [List.length]; now rewrite Hn|].
      exists bout. split; [assumption|]. rewrite !dval_cons, Hv. lia.
Qed.

Lemma sub_digits_ordered l r :
  digit_range l -> digit_range r -> List.length l = List.length r ->
  dval r <= dval l ->
  digit_range (impl.sub_digits l r 0) /\
  dval (impl.sub_digits l r 0) = dval l - dval r.
Proof.
  intros Hl Hr Hlen Hle.
  destruct (sub_digits_spec l r 0 Hl Hr Hlen ltac:(lia)) as [Hd [Hn [bout [Hb Hv]]]].
  split; [assumption|].
  pose proof (dval_bounds _ Hd) as Bd. rewrite Hn in Bd.
  pose proof (dval_bounds _ Hl) as Bl. pose proof (dval_bounds _ Hr) as Br.
  assert (bout = 0) by nia. subst bout. lia.
Qed.

Lemma dval_firstn d k :
  digit_range d -> (k <= List.length d)%nat ->
  dval (firstn k d) = dval d mod 10 ^ Z.of_nat k.
Proof.
  intros Hd Hk. rewrite <- (firstn_skipn k d) at 2.
  assert (Hf : digit_range (firstn k d)).
  { apply Forall_forall. intros x Hx. apply (proj1 (Forall_forall _ _) Hd).
    rewrite <- (firstn_skipn k d). apply in_or_app. now left. }
  pose proof (dval_bounds _ Hf) as B. rewrite length_firstn in B.
  replace (Nat.min k (List.length d)) with k in B by lia.
  rewrite dval_app, length_firstn.
  replace (Nat.min k (List.length d)) with k by lia.
  rewrite (Z.mul_comm (10 ^ Z.of_nat k)), Z.mod_add by (apply Z.pow_nonzero; lia).
  symmetry. apply Z.mod_small. assumption.
Qed.

(** X22: on operands without leading zeros and of the same sign, [sub]
    subtracts the smaller magnitude from the larger with the right sign
    (a negative operand can give the result [-0]); the digits it returns
    are [unpad] applied to the digits of the true difference, hence its
    low-order digits. *)
Theorem decimal_difference lhs rhs :
  canonical (impl.digits lhs) -> canonical (impl.digits rhs) ->
  impl.sign lhs = impl.sign rhs ->
  let res := impl.sub lhs rhs in
  let diff := Z.abs (dval (impl.digits lhs) - dval (impl.digits rhs)) in
  impl.sign res
  = xorb (impl.sign lhs) (dval (impl.digits lhs) <? dval (impl.digits rhs)) /\
  (exists dd, digit_range dd /\ dval dd = diff /\
              impl.digits res = impl.unpad_digits dd) /\
  digit_range (impl.digits res) /\
  dval (impl.digits res) = diff mod 10 ^ Z.of_nat (List.length (impl.digits res)).
Proof.
  intros Hl Hr Hs res diff.
  destruct (canonical_digits _ Hl) as [Dl Nl].
  destruct (canonical_digits _ Hr) as [Dr Nr].
  assert (Hres : res = impl.sub_magnitudes lhs rhs).
  { unfold res, impl.sub. rewrite Hs. now destruct (impl.sign rhs). }
  assert (Hmain :
    impl.sign res
    = xorb (impl.sign lhs) (dval (impl.digits lhs) <? dval (impl.digits rhs)) /\
    exists dd, digit_range dd /\ dval dd = diff /\
               impl.digits res = impl.unpad_digits dd).
  { rewrite Hres. unfold impl.sub_magnitudes, diff.
    destruct (Nat.ltb_spec (List.length (impl.digits lhs))
                (List.length (impl.digits rhs))) as [Hlt|Hge].
    - pose proof (canonical_longer _ _ Hl Hr Hlt) as Hv.
      cbn [impl.sign impl.digits].
      destruct (sub_digits_ordered (impl.digits rhs)
                  (impl.pad (impl.digits lhs)
                     (List.length (impl.digits rhs) - List.length (impl.digits lhs))))
        as [Hd Hval].
      + assumption.
      + now apply digit_range_pad.
      + rewrite pad_length. lia.
      + rewrite dval_pad. lia.
      + split.
        * destruct (Z.ltb_spec (dval (impl.digits lhs)) (dval (impl.digits rhs)));
            [|lia]. now destruct (impl.sign lhs).
        * eexists. split; [exact Hd|]. split; [|reflexivity].
          rewrite Hval, dval_pad. lia.
    - destruct (Nat.ltb_spec (List.length (impl.digits rhs))
                  (List.length (impl.digits lhs))) as [Hlt|Hge'].
      + pose proof (canonical_longer _ _ Hr Hl Hlt) as Hv.
        cbn [impl.sign impl.digits].
        destruct (sub_digits_ordered (impl.digits lhs)
                    (impl.pad (impl.digits rhs)
                       (List.length (impl.digits lhs) - List.length (impl.digits rhs))))
          as [Hd Hval].
        * assumption.
        * now apply digit_range_pad.
        * rewrite pad_length. lia.
        * rewrite dval_pad. lia.
        * split.
          -- destruct (Z.ltb_spec (dval (impl.digits lhs)) (dval (impl.digits rhs)));
               [lia|]. now destruct (impl.sign lhs).
          -- eexists. split; [exact Hd|]. split; [|reflexivity].
             rewrite Hval, dval_pad. lia.
      + assert (Hlen : List.length (impl.digits lhs) = List.length (impl.digits rhs))
          by lia.
        assert (Hless : impl.less lhs rhs
                        = (dval (impl.digits lhs) <? dval (impl.digits rhs))).
        { unfold impl.less. rewrite Hlen, Nat.ltb_irrefl.
          apply less_loop_spec; assumption. }
        rewrite Hless.
        destruct (Z.ltb_spec (dval (impl.digits lhs)) (dval (impl.digits rhs))).
        * cbn [impl.sign impl.digits].
          destruct (sub_digits_ordered (impl.digits rhs) (impl.digits lhs))
            as [Hd Hval]; try assumption; try lia.
          split; [now destruct (impl.sign lhs)|].
          eexists. split; [exact Hd|]. split; [|reflexivity]. lia.
        * cbn [impl.sign impl.digits].
          destruct (sub_digits_ordered (impl.digits lhs) (impl.digits rhs))
            as [Hd Hval]; try assumption; try lia.
          split; [now destruct (impl.sign lhs)|].
          eexists. split; [exact Hd|]. split; [|reflexivity]. lia. }
  destruct Hmain as [Hsign [dd [Hd [Hval Hdig]]]].
  split; [exact Hsign|]. split; [exists dd; now repeat split|].
  rewrite Hdig. destruct (unpad_firstn_zeros dd) as [E Hk]. rewrite E.
  split.
  - apply Forall_forall. intros x Hx. apply (proj1 (Forall_forall _ _) Hd).
    rewrite <- (firstn_skipn (List.length dd - zeros (tl dd)) dd).
    apply in_or_app. now left.
  - rewrite length_firstn.
    replace (Nat.min (List.length dd - zeros (tl dd)) (List.length dd))
      with (List.length dd - zeros (tl dd))%nat by lia.
    rewrite <- Hval. apply dval_firstn; [assumption|lia].
Qed.

Lemma decimal_difference_witness :
  canonical (impl.digits (impl.mk_decimal [9] true)) /\
  canonical (impl.digits (impl.mk_decimal [1; 2] true)) /\
  impl.sign (impl.mk_decimal [9] true) = impl.sign (impl.mk_decimal [1; 2] true) /\
  let res := impl.sub (impl.mk_decimal [9] true) (impl.mk_decimal [1; 2] true) in
  let diff := Z.abs (dval (impl.digits (impl.mk_decimal [9] true))
                     - dval (impl.digits (impl.mk_decimal [1; 2] true))) in
  impl.sign res
  = xorb (impl.sign (impl.mk_decimal [9] true))
      (dval (impl.digits (impl.mk_decimal [9] true))
       <? dval (impl.digits (impl.mk_decimal [1; 2] true))) /\
  (exists dd, digit_range dd /\ dval dd = diff /\
              impl.digits res = impl.unpad_digits dd) /\
  digit_range (impl.digits res) /\
  dval (impl.digits res) = diff mod 10 ^ Z.of_nat (List.length (impl.digits res)).
Proof.
  split; [exact canonical_9|]. split; [exact canonical_21|]. split; [reflexivity|].
  apply (decimal_difference (impl.mk_decimal [9] true) (impl.mk_decimal [1; 2] true)
           canonical_9 canonical_21 eq_refl).
Defined.

(* ------------------------------------------------------------------ *)
(** ** Text output *)

(** X23: the decimal rendering of a valid value never throws; it is a
    minus sign for a negative value followed by the decimal digits of the
    magnitude, most significant first and without leading zeros (the
    single digit 0 for zero, which never carries a sign). *)
Theorem render_decimal_digits nbits a :
  0 < nbits -> valid nbits a = true ->
  exists d,
    convert_to_decimal_string nbits a
    = Ok (string_of_list_ascii
            ((if to_Z nbits a <? 0 then ["-"%char] else [])
             ++ map digit_char (rev d))) /\
    canonical d /\ dval d = Z.abs (to_Z nbits a).
Proof.
  intros Hn Hv. pose proof (valid_rep nbits a Hn Hv) as Ha.
  destruct (render_spec nbits a _ Hn Ha) as [d [Hs [Hd [Hval Hc]]]].
  exists d. split; [exact Hs|]. split; [exact Hc|exact Hval].
Qed.

Lemma render_decimal_digits_witness :
  0 < 8 /\ valid 8 [156] = true /\
  exists d,
    convert_to_decimal_string 8 [156]
    = Ok (string_of_list_ascii
            ((if to_Z 8 [156] <? 0 then ["-"%char] else [])
             ++ map digit_char (rev d))) /\
    canonical d /\ dval d = Z.abs (to_Z 8 [156]).
Proof.
  split; [lia|]. split; [reflexivity|].
  apply (render_decimal_digits 8 [156]); [lia|reflexivity].
Defined.

Lemma binary_value_snoc s c :
  binary_value (s ++ [c]) = 2 * binary_value s + (if Ascii.eqb c "1" then 1 else 0).
Proof. unfold binary_value. rewrite fold_left_app. reflexivity. Qed.

Lemma div_pow2_pred x i :
  0 <= i -> x / 2 ^ i = 2 * (x / 2 ^ (i + 1)) + (if Z.testbit x i then 1 else 0).
Proof.
  intros Hi. rewrite Z.pow_add_r by lia. change (2 ^ 1) with 2.
  rewrite <- Z.div_div by (try apply pow2_pos; lia).
  pose proof (Z.testbit_spec' x i Hi) as Ht.
  pose proof (Z.div_mod (x / 2 ^ i) 2 ltac:(lia)) as H.
  destruct (Z.testbit x i); cbn [Z.b2z] in Ht; lia.
Qed.

(** X24: [to_binary] never throws on a valid value and writes exactly
    [nbits] characters, each 0 or 1, most significant bit first: read as a
    binary number they give the unsigned value of the bit pattern. *)
Theorem to_binary_digits nbits a :
  0 < nbits -> valid nbits a = true ->
  exists s,
    to_binary nbits a = Ok (string_of_list_ascii s) /\
    Z.of_nat (List.length s) = nbits /\
    forallb binary_digit s = true /\
    binary_value s = val a.
Proof.
  intros Hn Hv. pose proof (valid_rep nbits a Hn Hv) as Ha.
  pose proof (val_valid nbits a Hn Hv) as Hx.
  unfold to_binary.
  destruct (for_each_down_range
              (fun i (ss : list ascii) =>
                 Z.of_nat (List.length ss) = nbits - i /\
                 forallb binary_digit ss = true /\
                 binary_value ss = val a / 2 ^ i)
              (fun ss i =>
                 bit <- at_ nbits a i ;;
                 Ok (ss ++ [if bit then "1"%char else "0"%char]))
              (nbits - 1) 0 []) as [s [Hloop [Hlen [Hdig Hval]]]].
  - lia.
  - replace (nbits - 1 + 1) with nbits by lia. cbn [List.length forallb].
    split; [lia|]. split; [reflexivity|].
    rewrite Z.div_small by lia. reflexivity.
  - intros i ss Hi [Hlen [Hdig Hval]].
    rewrite (at_rep nbits a _ i Ha) by lia. cbn [bind].
    eexists. split; [reflexivity|].
    split; [rewrite length_app; cbn [List.length]; lia|].
    split.
    + rewrite forallb_app, Hdig. cbn [forallb].
      destruct (Z.testbit (val a) i); reflexivity.
    + rewrite binary_value_snoc, Hval, (div_pow2_pred (val a) i) by lia.
      destruct (Z.testbit (val a) i); reflexivity.
  - rewrite Hloop. cbn [bind]. exists s. split; [reflexivity|].
    split; [lia|]. split; [exact Hdig|].
    rewrite Hval, Z.pow_0_r. apply Z.div_1_r.
Qed.

Lemma to_binary_digits_witness :
  0 < 12 /\ valid 12 [251; 15] = true /\
  exists s,
    to_binary 12 [251; 15] = Ok (string_of_list_ascii s) /\
    Z.of_nat (List.length s) = 12 /\
    forallb binary_digit s = true /\
    binary_value s = val [251; 15].
Proof.
  split; [lia|]. split; [reflexivity|].
  apply (to_binary_digits 12 [251; 15]); [lia|reflexivity].
Defined.

(* ------------------------------------------------------------------ *)
(** ** Text input *)

Lemma class_digit c :
  in_class "0" "9" c = true ->
  exists d, 0 <= d <= 9 /\ c = digit_char d /\ code c - 48 = d.
Proof.
  intros H. exists (code c - 48).
  destruct c as [[] [] [] [] [] [] [] []]; try discriminate H;
    (split; [cbv; split; discriminate|split; reflexivity]).
Qed.

Lemma decimal_value_snoc s c :
  decimal_value (s ++ [c]) = 10 * decimal_value s + (code c - 48).
Proof. unfold decimal_value. rewrite fold_left_app. reflexivity. Qed.

Lemma decimal_chars cs :
  forallb (in_class "0" "9") cs = true ->
  exists ds, digit_range ds /\ cs = map digit_char ds /\
             decimal_value cs = dval (rev ds).
Proof.
  induction cs as [|c cs IH] using rev_ind; intros H.
  - exists []. split; [constructor|]. split; reflexivity.
  - rewrite forallb_app in H. apply andb_prop in H as [Hcs Hc].
    cbn [forallb] in Hc. rewrite andb_true_r in Hc.
    destruct (IH Hcs) as [ds [Hd [E Hv]]].
    destruct (class_digit c Hc) as [d [Hd' [Ec Ecode]]].
    exists (ds ++ [d]). split; [apply Forall_app; split; [assumption|]|].
    { constructor; [lia|constructor]. }
    split; [rewrite map_app, E, Ec; reflexivity|].
    rewrite decimal_value_snoc, Hv, Ecode, rev_app_distr. cbn [rev app].
    rewrite dval_cons. lia.
Qed.

Lemma decimal_not_hex cs :
  forallb (in_class "0" "9") cs = true -> hex_regex cs = false.
Proof.
  intros H. destruct cs as [|c0 [|c1 [|c2 l]]]; try reflexivity.
  cbn [forallb] in H. apply andb_prop in H as [_ H]. apply andb_prop in H as [H1 _].
  destruct (class_digit c1 H1) as [d [Hd [-> _]]].
  unfold hex_regex. rewrite (digit_char_hex_marker d Hd).
  now rewrite andb_false_r.
Qed.

Lemma parse_decimal_rep nbits txt value0 :
  0 < nbits ->
  decimal_regex (list_ascii_of_string txt) = true ->
  octal_regex (list_ascii_of_string txt) = false ->
  exists v,
    parse nbits txt value0 = Ok (true, v) /\
    rep nbits v (decimal_value (list_ascii_of_string txt) mod 2 ^ nbits).
Proof.
  intros Hn Hdec Hoct. unfold parse. rewrite Hoct.
  assert (Hall : forallb (in_class "0" "9") (list_ascii_of_string txt) = true).
  { unfold decimal_regex in Hdec.
    destruct (list_ascii_of_string txt); [discriminate|exact Hdec]. }
  rewrite (decimal_not_hex _ Hall), Hdec.
  destruct (decimal_chars _ Hall) as [ds [Hd [E Hv]]].
  assert (H63 : 1 < 2 ^ 63) by (vm_compute; reflexivity).
  destruct (of_int_rep nbits 1 Hn ltac:(lia)) as [one [-> Hone]]. cbn [bind].
  rewrite E, <- map_rev.
  destruct (decimal_loop_rep nbits Hn (rev ds) (clear nbits) one 0 _
              (digit_range_rev ds Hd) (rep_clear nbits Hn) Hone)
    as [v [scale [-> Hrep]]].
  cbn [bind]. exists v. split; [reflexivity|].
  rewrite Z.add_0_l, Z.mul_mod_idemp_l in Hrep by (apply Z.pow_nonzero; lia).
  rewrite Z.mul_1_l in Hrep. rewrite <- E, Hv. exact Hrep.
Qed.

(** X25: every non-empty string of decimal digits that is not of the
    octal form [0[1-7][0-7]*] is parsed successfully, whatever its length
    and whatever the object held before: the value is the decimal number
    modulo [2 ^ nbits] (too large a number wraps, it is not rejected),
    leading zeros are accepted, and [assign] stores the same value. *)
Theorem parse_decimal_wraps nbits txt value0 :
  0 < nbits ->
  decimal_regex (list_ascii_of_string txt) = true ->
  octal_regex (list_ascii_of_string txt) = false ->
  exists v,
    parse nbits txt value0 = Ok (true, v) /\
    valid nbits v = true /\
    val v = decimal_value (list_ascii_of_string txt) mod 2 ^ nbits /\
    assign nbits txt value0 = Ok v.
Proof.
  intros Hn Hdec Hoct.
  destruct (parse_decimal_rep nbits txt value0 Hn Hdec Hoct) as [v [Hp Hrep]].
  exists v. split; [exact Hp|]. split; [apply (rep_valid nbits _ _ Hn Hrep)|].
  split; [apply Hrep|]. unfold assign. rewrite Hp. cbn [bind].
  now rewrite (mask_ms_byte_id nbits v _ Hn Hrep).
Qed.

Lemma parse_decimal_wraps_witness :
  0 < 8 /\
  decimal_regex (list_ascii_of_string "0900") = true /\
  octal_regex (list_ascii_of_string "0900") = false /\
  exists v,
    parse 8 "0900" [7] = Ok (true, v) /\
    valid 8 v = true /\
    val v = decimal_value (list_ascii_of_string "0900") mod 2 ^ 8 /\
    assign 8 "0900" [7] = Ok v.
Proof.
  split; [lia|]. split; [reflexivity|]. split; [reflexivity|].
  apply (parse_decimal_wraps 8 "0900" [7]); [lia|reflexivity|reflexivity].
Defined.

Lemma hex_digit_nibble c :
  hex_digit c = true ->
  is_quote c = false /\ hex_marker c = false /\
  charLookup_at c = Ok (nibble c) /\ 0 <= nibble c < 16.
Proof.
  destruct c as [[] [] [] [] [] [] [] []]; intros H; try discriminate H;
    (split; [reflexivity|split; [reflexivity|split; [reflexivity|]]]);
    cbv; (split; [discriminate|reflexivity]).
Qed.

Lemma hex_class_cases c :
  hex_class c = true -> is_quote c = true \/ hex_digit c = true.
Proof.
  unfold hex_class. fold (hex_digit c) (is_quote c).
  destruct (hex_digit c); [now right|]. cbn [orb]. now left.
Qed.

Lemma hex_value_low_first s : hex_value s = hex_low_first (rev s).
Proof.
  unfold hex_value, hex_low_first. symmetry.
  apply (fold_left_rev_right
           (fun c acc => if is_quote c then acc else 16 * acc + nibble c)).
Qed.

Lemma pow16 k : 0 <= k -> 16 ^ (2 * k) = 2 ^ (8 * k).
Proof.
  intros. change 16 with (2 ^ 4). rewrite <- Z.pow_mul_r by lia. f_equal. lia.
Qed.

Lemma hex_loop_value nbits l :
  0 < nbits -> forallb hex_class l = true ->
  forall st,
    hex_inv nbits st ->
    hex_count st + hex_length l <= 2 * nrBytes nbits ->
    exists st',
      for_each l (hex_step nbits) st = Ok st' /\
      hex_inv nbits st' /\
      hex_count st' = hex_count st + hex_length l /\
      hex_acc st' = hex_acc st + 16 ^ hex_count st * hex_low_first l /\
      hs_bSuccess st' = hs_bSuccess st.
Proof.
  intros Hn. induction l as [|c l IH]; intros Hl st Hinv Hcount.
  - exists st. split; [reflexivity|]. split; [assumption|].
    unfold hex_length, hex_low_first. cbn [filter List.length fold_right].
    split; [lia|]. split; [lia|reflexivity].
  - cbn [forallb] in Hl. apply andb_prop in Hl as [Hc Hl].
    cbn [for_each].
    destruct (hex_class_cases c Hc) as [Hq|Hd].
    + (* a digit separator *)
      assert (Hstep : hex_step nbits st c = Ok st).
      { destruct st. unfold hex_step. unfold is_quote in Hq. now rewrite Hq. }
      rewrite Hstep. cbn [bind].
      assert (Hlen : hex_length (c :: l) = hex_length l).
      { unfold hex_length. cbn [filter]. now rewrite Hq. }
      assert (Hval : hex_low_first (c :: l) = hex_low_first l).
      { unfold hex_low_first. cbn [fold_right]. now rewrite Hq. }
      rewrite Hlen, Hval in *. now apply IH.
    + destruct (hex_digit_nibble c Hd) as [Hq [Hm [Hlook Hnib]]].
      assert (Hlen : hex_length (c :: l) = 1 + hex_length l).
      { unfold hex_length. cbn [filter]. rewrite Hq. cbn [negb List.length]. lia. }
      assert (Hval : hex_low_first (c :: l) = 16 * hex_low_first l + nibble c).
      { unfold hex_low_first. cbn [fold_right]. now rewrite Hq. }
      assert (Hlen0 : 0 <= hex_length l) by (unfold hex_length; lia).
      rewrite Hlen, Hval in *.
      destruct st as [byte idx odd value ok].
      destruct Hinv as [Hwf [Hidx [Hzero Hbyte]]].
      unfold hex_count, hex_acc in *. cbn [hs_byteIndex hs_odd hs_value hs_byte hs_bSuccess] in *.
      unfold hex_step. unfold is_quote in Hq. unfold hex_marker in Hm.
      rewrite Hq, Hm, Hlook. cbn [bind].
      destruct odd; cbn [Z.b2z negb] in *.
      * specialize (Hbyte eq_refl).
        assert (Hin : 0 <= idx < nrBytes nbits) by lia.
        assert (Hl' : 0 <= idx < Z.of_nat (List.length value))
          by (destruct Hwf as [Hwl _]; rewrite Hwl; lia).
        unfold setbyte. rewrite (in_bounds idx (nrBytes nbits) Hin). cbn [bind].
        rewrite Z.shiftl_mul_pow2 by lia. change (2 ^ 4) with 16.
        rewrite u8_small by lia.
        destruct (IH Hl (mk_hex_state (byte + nibble c * 16) (idx + 1) false
                           (put value idx (byte + nibble c * 16)) ok))
          as [st' [Hloop [Hinv' [Hc' [Ha' Hs']]]]].
        -- split; [apply wf_put; [assumption|lia]|]. cbn [hs_byteIndex hs_value hs_odd hs_byte].
           split; [lia|]. split; [|discriminate].
           intros j Hj. rewrite get_put by lia.
           destruct (Z.eqb_spec j idx); [lia|]. apply Hzero. lia.
        -- unfold hex_count. cbn [hs_byteIndex hs_odd Z.b2z]. lia.
        -- exists st'. split; [exact Hloop|]. split; [exact Hinv'|].
           unfold hex_count, hex_acc in *. cbn [hs_byteIndex hs_odd hs_value hs_byte hs_bSuccess Z.b2z] in *.
           split; [lia|]. split; [|exact Hs'].
           rewrite Ha', val_put by lia.
           rewrite (Hzero idx) by lia.
           replace (2 * (idx + 1) + 0) with (2 * idx + 1 + 1) by lia.
           rewrite (Z.pow_add_r 16 (2 * idx + 1) 1), (Z.pow_add_r 16 (2 * idx) 1) by lia.
           rewrite pow16 by lia. change (16 ^ 1) with 16. ring.
      * destruct (IH Hl (mk_hex_state (nibble c) idx true value ok))
          as [st' [Hloop [Hinv' [Hc' [Ha' Hs']]]]].
        -- split; [assumption|]. cbn [hs_byteIndex hs_value hs_odd hs_byte].
           split; [lia|]. split; [assumption|]. intros _. lia.
        -- unfold hex_count. cbn [hs_byteIndex hs_odd Z.b2z]. lia.
        -- exists st'. split; [exact Hloop|]. split; [exact Hinv'|].
           unfold hex_count, hex_acc in *. cbn [hs_byteIndex hs_odd hs_value hs_byte hs_bSuccess Z.b2z] in *.
           split; [lia|]. split; [|exact Hs'].
           rewrite Ha'. rewrite !Z.add_0_r.
           rewrite (Z.pow_add_r 16 (2 * idx) 1) by lia.
           rewrite pow16 by lia. change (16 ^ 1) with 16.
           set (p := 2 ^ (8 * idx)). set (lo := hex_low_first l).
           set (vv := val (hs_value st')). lia.
Qed.

Lemma parse_hex_wf nbits m ds value0 :
  0 < nbits -> hex_marker m = true -> forallb hex_class ds = true -> ds <> [] ->
  hex_length ds <= 2 * nrBytes nbits ->
  exists v,
    parse nbits (string_of_list_ascii ("0"%char :: m :: ds)) value0 = Ok (true, v) /\
    wf nbits v /\ val v = hex_value ds.
Proof.
  intros Hn Hm Hds Hne Hlen. unfold parse.
  rewrite list_ascii_of_string_of_list_ascii.
  assert (Hmark : m = "x"%char \/ m = "X"%char).
  { unfold hex_marker in Hm. apply orb_prop in Hm as [H|H];
      apply Ascii.eqb_eq in H; [now left|now right]. }
  assert (Hoct : octal_regex ("0"%char :: m :: ds) = false)
    by (destruct Hmark as [-> | ->]; reflexivity).
  assert (Hhex : hex_regex ("0"%char :: m :: ds) = true).
  { destruct ds as [|c ds]; [contradiction|].
    unfold hex_regex. unfold hex_marker in Hm. rewrite Hm. exact Hds. }
  rewrite Hoct, Hhex. cbn [rev]. rewrite <- app_assoc. cbn [app].
  rewrite for_each_app.
  assert (Hrev : forallb hex_class (rev ds) = true).
  { apply forallb_forall. intros x Hx. apply in_rev in Hx.
    rewrite forallb_forall in Hds. now apply Hds. }
  assert (Hlen' : hex_length (rev ds) = hex_length ds).
  { unfold hex_length. f_equal. rewrite <- !length_rev with (l := filter _ ds).
    clear. induction ds as [|c ds IH]; [reflexivity|].
    cbn [rev filter]. rewrite filter_app, length_app. cbn [filter].
    destruct (negb (is_quote c)); cbn [List.length rev]; rewrite ?length_app;
      cbn [List.length]; rewrite ?length_rev in *; lia. }
  destruct (hex_loop_value nbits (rev ds) Hn Hrev
              (mk_hex_state 0 0 false (clear nbits) false))
    as [[byte idx odd value ok] [Hloop [Hinv [Hc [Ha Hs]]]]].
  - split; [now apply wf_clear|]. cbn [hs_byteIndex hs_value hs_odd].
    split; [lia|]. split; [|discriminate].
    intros j Hj. unfold clear, get. apply nth_repeat.
  - unfold hex_count. cbn [hs_byteIndex hs_odd Z.b2z]. lia.
  - rewrite Hloop. cbn [bind].
    unfold hex_count, hex_acc in Hc, Ha.
    cbn [hs_byteIndex hs_odd hs_value hs_byte hs_bSuccess Z.b2z] in *.
    destruct (rep_clear nbits Hn) as [_ [Hv0 _]]. rewrite Hv0 in Ha.
    rewrite Hlen' in Hc. rewrite Z.pow_0_r, Z.mul_1_l, Z.add_0_l in Ha.
    rewrite <- hex_value_low_first in Ha.
    destruct Hinv as [Hwf [Hidx [Hzero Hbyte]]].
    cbn [hs_byteIndex hs_odd hs_value hs_byte] in *.
    cbn [for_each]. unfold hex_step.
    assert (Eq1 : Ascii.eqb m "'" = false) by (destruct Hmark as [-> | ->]; reflexivity).
    unfold hex_marker in Hm. rewrite Eq1, Hm.
    destruct odd; cbn [Z.b2z] in *.
    + specialize (Hbyte eq_refl).
      assert (Hin : 0 <= idx < nrBytes nbits) by lia.
      unfold setbyte. rewrite (in_bounds idx (nrBytes nbits) Hin). cbn [bind].
      change (Ascii.eqb "0" "'") with false.
      change (Ascii.eqb "0" "x" || Ascii.eqb "0" "X") with false. cbv iota.
      change (charLookup_at "0") with (@Ok Z 0). cbn [bind].
      rewrite (in_bounds idx (nrBytes nbits) Hin). cbn [bind hs_bSuccess hs_value].
      change (Z.shiftl 0 4) with 0. rewrite Z.add_0_r, u8_small by lia.
      eexists. split; [reflexivity|].
      assert (Hl : 0 <= idx < Z.of_nat (List.length value))
        by (destruct Hwf as [Hwl _]; rewrite Hwl; lia).
      split; [apply wf_put; [apply wf_put; [assumption|lia]|lia]|].
      rewrite val_put by (rewrite put_length; lia).
      rewrite get_put, Z.eqb_refl by lia.
      rewrite val_put by lia. rewrite (Hzero idx) by lia. lia.
    + cbn [bind].
      change (Ascii.eqb "0" "'") with false.
      change (Ascii.eqb "0" "x" || Ascii.eqb "0" "X") with false. cbv iota.
      change (charLookup_at "0") with (@Ok Z 0). cbn [bind hs_bSuccess hs_value].
      eexists. split; [reflexivity|]. split; [assumption|lia].
Qed.

(** X26: a hexadecimal literal [0x...] or [0X...] with at most two digits
    per storage byte is parsed successfully; digit separators are
    skipped and the stored bytes are exactly the hexadecimal number.  The
    number is not reduced to [nbits] bits by [parse]; [assign] reduces it
    modulo [2 ^ nbits] and yields a valid value. *)
Theorem parse_hex_value nbits m ds value0 :
  0 < nbits -> hex_marker m = true -> forallb hex_class ds = true -> ds <> [] ->
  hex_length ds <= 2 * nrBytes nbits ->
  exists v r,
    parse nbits (string_of_list_ascii ("0"%char :: m :: ds)) value0 = Ok (true, v) /\
    Z.of_nat (List.length v) = nrBytes nbits /\ val v = hex_value ds /\
    assign nbits (string_of_list_ascii ("0"%char :: m :: ds)) value0 = Ok r /\
    valid nbits r = true /\ val r = hex_value ds mod 2 ^ nbits.
Proof.
  intros Hn Hm Hds Hne Hlen.
  destruct (parse_hex_wf nbits m ds value0 Hn Hm Hds Hne Hlen) as [v [Hp [Hwf Hv]]].
  exists v, (mask_ms_byte nbits v). split; [exact Hp|].
  split; [apply Hwf|]. split; [exact Hv|].
  unfold assign. rewrite Hp. cbn [bind]. split; [reflexivity|].
  pose proof (mask_ms_byte_rep nbits v Hn Hwf) as Hr.
  split; [apply (rep_valid nbits _ _ Hn Hr)|]. rewrite <- Hv. apply Hr.
Qed.

Lemma parse_hex_value_witness :
  0 < 12 /\ hex_marker "x" = true /\
  forallb hex_class (list_ascii_of_string "f'A5") = true /\
  list_ascii_of_string "f'A5" <> [] /\
  hex_length (list_ascii_of_string "f'A5") <= 2 * nrBytes 12 /\
  exists v r,
    parse 12 (string_of_list_ascii ("0"%char :: "x"%char :: list_ascii_of_string "f'A5")) [1; 1]
    = Ok (true, v) /\
    Z.of_nat (List.length v) = nrBytes 12 /\
    val v = hex_value (list_ascii_of_string "f'A5") /\
    assign 12 (string_of_list_ascii ("0"%char :: "x"%char :: list_ascii_of_string "f'A5")) [1; 1]
    = Ok r /\
    valid 12 r = true /\ val r = hex_value (list_ascii_of_string "f'A5") mod 2 ^ 12.
Proof.
  split; [lia|]. split; [reflexivity|]. split; [reflexivity|].
  split; [discriminate|]. split; [vm_compute; discriminate|].
  apply (parse_hex_value 12 "x" (list_ascii_of_string "f'A5") [1; 1]);
    [lia|reflexivity|reflexivity|discriminate|vm_compute; discriminate].
Defined.

Lemma hex_step_wf nbits st c st' :
  hex_step nbits st c = Ok st' -> wf nbits (hs_value st) -> wf nbits (hs_value st').
Proof.
  destruct st as [byte idx odd value ok]. unfold hex_step. cbn [hs_value].
  destruct (Ascii.eqb c "'"); [intros H; injection H as <-; trivial|].
  destruct (Ascii.eqb c "x" || Ascii.eqb c "X").
  - destruct odd.
    + unfold setbyte. destruct ((0 <=? idx) && (idx <? nrBytes nbits)); [|discriminate].
      cbn [bind]. intros H Hwf. injection H as <-. cbn [hs_value].
      apply wf_put; [assumption|apply u8_range].
    + cbn [bind]. intros H. injection H as <-. trivial.
  - destruct odd.
    + destruct (charLookup_at c) as [n|]; [|discriminate]. cbn [bind].
      unfold setbyte. destruct ((0 <=? idx) && (idx <? nrBytes nbits)); [|discriminate].
      cbn [bind]. intros H Hwf. injection H as <-. cbn [hs_value].
      apply wf_put; [assumption|apply u8_range].
    + destruct (charLookup_at c) as [n|]; [|discriminate]. cbn [bind].
      intros H. injection H as <-. trivial.
Qed.

Lemma hex_loop_wf nbits l :
  forall st st',
    for_each l (hex_step nbits) st = Ok st' ->
    wf nbits (hs_value st) -> wf nbits (hs_value st').
Proof.
  induction l as [|c l IH]; intros st st' H Hwf.
  - cbn [for_each] in H. now injection H as <-.
  - cbn [for_each] in H. destruct (hex_step nbits st c) as [st1|] eqn:E; [|discriminate].
    cbn [bind] in H. apply (IH st1 st' H). now apply (hex_step_wf nbits st c).
Qed.

Lemma parse_wf nbits txt value0 ok r :
  0 < nbits -> parse nbits txt value0 = Ok (ok, r) -> wf nbits r.
Proof.
  intros Hn H.
  destruct (octal_regex (list_ascii_of_string txt)) eqn:Hoct.
  { unfold parse in H. rewrite Hoct in H. injection H as _ <-. now apply wf_clear. }
  destruct (hex_regex (list_ascii_of_string txt)) eqn:Hhex.
  { unfold parse in H. rewrite Hoct, Hhex in H.
    destruct (for_each _ (hex_step nbits) _) as [st|] eqn:Hloop; [|discriminate].
    cbn [bind] in H. injection H as _ <-.
    apply (hex_loop_wf nbits _ _ _ Hloop). cbn [hs_value]. now apply wf_clear. }
  destruct (decimal_regex (list_ascii_of_string txt)) eqn:Hdec.
  { destruct (parse_decimal_rep nbits txt value0 Hn Hdec Hoct) as [v [Hp Hrep]].
    rewrite Hp in H. injection H as _ <-. apply Hrep. }
  unfold parse in H. rewrite Hoct, Hhex, Hdec in H. injection H as _ <-.
  now apply wf_clear.
Qed.

(** X27: whatever the text, when [assign] returns, the value it leaves is
    a valid [integer<nbits>] (no bit is set above [nbits]), and it does not
    depend on what the object held before. *)
Theorem assign_always_valid nbits txt value0 r :
  0 < nbits -> assign nbits txt value0 = Ok r ->
  valid nbits r = true /\ forall other, assign nbits txt other = Ok r.
Proof.
  intros Hn H. split; [|intros other; exact H].
  unfold assign in H. destruct (parse nbits txt value0) as [[ok v]|] eqn:Hp; [|discriminate].
  cbn [bind] in H. injection H as <-.
  pose proof (parse_wf nbits txt value0 ok v Hn Hp) as Hwf.
  apply (rep_valid nbits _ _ Hn (mask_ms_byte_rep nbits v Hn Hwf)).
Qed.

Lemma assign_always_valid_witness :
  0 < 4 /\ assign 4 "0xFF" [0] = Ok [15] /\
  valid 4 [15] = true /\ forall other, assign 4 "0xFF" other = Ok [15].
Proof.
  split; [lia|]. split; [reflexivity|].
  apply (assign_always_valid 4 "0xFF" [0] [15]); [lia|reflexivity].
Defined.

(* ------------------------------------------------------------------ *)
(** ** Division by zero without the arithmetic exception *)

Lemma pow2_diff_bit top i :
  0 <= i <= top -> Z.testbit (2 ^ (top + 1) - 2 ^ (i + 1)) i = false.
Proof.
  intros H.
  replace (2 ^ (top + 1) - 2 ^ (i + 1)) with ((2 ^ (top - i) - 1) * 2 ^ (i + 1)).
  - apply Z.mul_pow2_bits_low. lia.
  - rewrite Z.mul_sub_distr_r, <- Z.pow_add_r by lia.
    replace (top - i + (i + 1)) with (top + 1) by lia. lia.
Qed.

Lemma zero_div_step nbits A top i st :
  0 < nbits -> 0 <= A < 2 ^ nbits -> 0 <= i <= top -> top < nbits ->
  zero_div_inv nbits A top (i + 1) st ->
  exists st', idiv_step nbits st i = Ok st' /\ zero_div_inv nbits A top i st'.
Proof.
  intros Hn HA Hi Htop. destruct st as [[acc sub] q]. intros [Hacc [Hsub Hq]].
  assert (Hn1 : 2 ^ (nbits + 1 - 1) = 2 ^ nbits) by (f_equal; lia).
  unfold idiv_step.
  rewrite (le_rep (nbits + 1) sub acc 0 A) by (assumption || lia).
  rewrite !signed_small by (rewrite ?Hn1; lia). cbn [bind].
  destruct (Z.leb_spec 0 A); [|lia].
  destruct (sub_assign_rep (nbits + 1) acc sub A 0 ltac:(lia) Hacc Hsub)
    as [acc' [-> Hacc']]. cbn [bind].
  rewrite Z.sub_0_r, Z.mod_small in Hacc' by (destruct Hacc as [_ [_ ?]]; lia).
  destruct (set_rep nbits q _ i Hn Hq ltac:(lia)) as [q' [-> Hq']]. cbn [bind].
  destruct (shr_assign_rep (nbits + 1) sub 0 1 ltac:(lia) ltac:(lia) Hsub)
    as [sub' [-> Hsub']]. cbn [bind].
  eexists. split; [reflexivity|]. split; [exact Hacc'|]. split; [exact Hsub'|].
  rewrite setbit_clear_add in Hq' by (try apply pow2_diff_bit; lia).
  replace (2 ^ (top + 1) - 2 ^ i) with (2 ^ (top + 1) - 2 ^ (i + 1) + 2 ^ i);
    [exact Hq'|].
  rewrite (Z.pow_add_r 2 i 1) by lia. change (2 ^ 1) with 2. lia.
Qed.

(** X28: without [INTEGER_THROW_ARITHMETIC_EXCEPTION], a division by zero
    is not stopped.  For every dividend but the most negative one, [idiv]
    returns the dividend as remainder and, as quotient, the number with
    all bits up to one above the highest bit of the magnitude set (1 for
    the dividend 0), negated for a negative dividend; [/] and [%] return
    these.  For the most negative dividend the quotient bit to set lies
    outside the type and [idiv] throws [bit_index_out_of_bounds]. *)
Theorem zero_divisor_unchecked nbits a :
  0 < nbits -> valid nbits a = true ->
  let A := Z.abs (to_Z nbits a) in
  let top := if A =? 0 then 0 else Z.log2 A + 1 in
  (to_Z nbits a = - 2 ^ (nbits - 1) ->
   idiv false nbits a (clear nbits) = Throw bit_index_out_of_bounds) /\
  (to_Z nbits a <> - 2 ^ (nbits - 1) ->
   exists q,
     idiv false nbits a (clear nbits) = Ok (mk_idiv_t q a) /\
     valid nbits q = true /\
     val q = ((if to_Z nbits a <? 0 then -1 else 1) * (2 ^ (top + 1) - 1))
               mod 2 ^ nbits /\
     div false nbits a (clear nbits) = Ok q /\
     modulo false nbits a (clear nbits) = Ok a).
Proof.
  intros Hn Hv A top.
  pose proof (valid_rep nbits a Hn Hv) as Ha.
  pose proof (val_valid nbits a Hn Hv) as Hxa.
  pose proof (pow2_double nbits Hn) as Hp.
  assert (Hp1 : 2 ^ (nbits + 1) = 2 * 2 ^ nbits).
  { rewrite Z.pow_add_r by lia. change (2 ^ 1) with 2. lia. }
  assert (Hn1 : 2 ^ (nbits + 1 - 1) = 2 ^ nbits) by (f_equal; lia).
  assert (Hpp : 0 < 2 ^ (nbits - 1)) by (apply pow2_pos; lia).
  pose proof (signed_range nbits (val a) Hn Hxa) as Hsa.
  pose proof (signed_mod nbits (val a) Hn Hxa) as Hma.
  fold (to_Z nbits a) in Hsa, Hma. set (sa := to_Z nbits a) in *.
  assert (HA : 0 <= A <= 2 ^ (nbits - 1)) by (unfold A; lia).
  pose proof (rep_clear nbits Hn) as Hz.
  (* the common prefix of the computation *)
  assert (Hpre : exists a' sub0,
    rep (nbits + 1) a' A /\ rep (nbits + 1) sub0 0 /\
    idiv false nbits a (clear nbits)
    = ('(accumulator, _, q) <-
         for_each (down_range top 0) (idiv_step nbits)
           (a', sub0, setzero nbits) ;;
       q <- (if sa <? 0 then
               one <- of_int nbits 1 ;;
               Ok (add_assign nbits (flip nbits q) one)
             else Ok q) ;;
       r <- (if sa <? 0 then
               n <- neg (nbits + 1) accumulator ;;
               of_integer nbits (nbits + 1) n
             else of_integer nbits (nbits + 1) accumulator) ;;
       Ok (mk_idiv_t q r))).
  { destruct (abs_operand nbits a _ Hn Ha) as [abs_a [a' [Habs [Hcopy Ha']]]].
    fold (to_Z nbits a) in Ha'. fold sa in Ha'. fold A in Ha'.
    destruct (bitcopy_rep (nbits + 1) nbits (clear nbits) 0 ltac:(lia) Hn Hz)
      as [b' [Hcopyb Hb']].
    rewrite Z.mod_0_l in Hb' by (apply Z.pow_nonzero; lia).
    assert (Htop : 0 <= top).
    { unfold top. destruct (Z.eqb_spec A 0); [lia|].
      pose proof (Z.log2_nonneg A). lia. }
    destruct (shl_assign_rep (nbits + 1) b' 0 top ltac:(lia) Htop Hb')
      as [sub0 [Hshl Hsub0]].
    rewrite Z.mul_0_l, Z.mod_0_l in Hsub0 by (apply Z.pow_nonzero; lia).
    exists a', sub0. split; [exact Ha'|]. split; [exact Hsub0|].
    unfold idiv, check_divisor. rewrite !of_int_0. cbn [bind].
    rewrite eq_refl_bytes. cbn [bind].
    rewrite (sign_rep nbits a _ Hn Ha), (sign_rep nbits (clear nbits) 0 Hn Hz).
    cbn [bind]. rewrite Habs. cbn [bind]. rewrite Hcopy. cbn [bind].
    destruct (Z.ltb_spec 0 (2 ^ (nbits - 1))); [|lia]. cbn [negb bind].
    rewrite Hcopyb. cbn [bind].
    rewrite (lt_rep (nbits + 1) a' b' A 0 ltac:(lia) Ha' Hb').
    rewrite !signed_small by (rewrite ?Hn1; lia).
    destruct (Z.ltb_spec A 0); [lia|]. cbn [bind].
    rewrite (findMsb_val (nbits + 1) b' 0 ltac:(lia) Hb').
    rewrite (findMsb_val (nbits + 1) a' A ltac:(lia) Ha').
    change (0 =? 0) with true. cbv iota.
    replace ((if A =? 0 then -1 else Z.log2 A) - -1) with top
      by (unfold top; destruct (A =? 0); lia).
    rewrite Hshl. cbn [bind quot].
    rewrite signed_neg_iff by assumption. fold (to_Z nbits a). fold sa.
    rewrite xorb_false_r.
    rewrite (lt_rep nbits a (clear nbits) _ 0 Hn Ha Hz).
    fold (to_Z nbits a). fold sa.
    replace (signed nbits 0) with 0
      by (unfold signed; destruct (Z.ltb_spec 0 (2 ^ (nbits - 1))); lia).
    reflexivity. }
  destruct Hpre as [a' [sub0 [Ha' [Hsub0 Hidiv]]]].
  split.
  - (* the most negative dividend *)
    intros Hmin. rewrite Hidiv.
    assert (EA : A = 2 ^ (nbits - 1)) by (unfold A; lia).
    assert (Etop : top = nbits).
    { unfold top. rewrite EA. destruct (Z.eqb_spec (2 ^ (nbits - 1)) 0); [lia|].
      rewrite Z.log2_pow2 by lia. lia. }
    rewrite Etop, down_range_cons by lia. cbn [for_each].
    unfold idiv_step at 1.
    rewrite (le_rep (nbits + 1) sub0 a' 0 A) by (assumption || lia).
    rewrite !signed_small by (rewrite ?Hn1; lia). cbn [bind].
    destruct (Z.leb_spec 0 A); [|lia].
    destruct (sub_assign_rep (nbits + 1) a' sub0 A 0 ltac:(lia) Ha' Hsub0)
      as [acc' [-> _]]. cbn [bind].
    unfold set. rewrite (out_of_bounds nbits nbits) by lia. reflexivity.
  - intros Hnmin.
    assert (HA' : 0 <= A < 2 ^ (nbits - 1)) by (unfold A; lia).
    assert (Htop : 0 <= top < nbits).
    { unfold top. destruct (Z.eqb_spec A 0); [lia|].
      pose proof (Z.log2_nonneg A).
      assert (Z.log2 A < nbits - 1) by (apply Z.log2_lt_pow2; lia). lia. }
    destruct (for_each_down_range (zero_div_inv nbits A top) (idiv_step nbits)
                top 0 (a', sub0, setzero nbits))
      as [[[acc sub] q] [Hloop [Hacc [_ Hq]]]].
    + lia.
    + split; [exact Ha'|]. split; [exact Hsub0|].
      rewrite Z.sub_diag. exact Hz.
    + intros i st Hi Hst. apply (zero_div_step nbits A top i st); (assumption || lia).
    + rewrite Z.pow_0_r in Hq.
      assert (HQ : 0 < 2 ^ (top + 1) - 1 < 2 ^ nbits).
      { assert (2 ^ (top + 1) <= 2 ^ nbits) by (apply Z.pow_le_mono_r; lia).
        assert (2 ^ 1 <= 2 ^ (top + 1)) by (apply Z.pow_le_mono_r; lia).
        change (2 ^ 1) with 2 in *. lia. }
      assert (Hquo : exists q',
                 (if sa <? 0
                  then one <- of_int nbits 1 ;; Ok (add_assign nbits (flip nbits q) one)
                  else Ok q) = Ok q' /\
                 rep nbits q' (((if sa <? 0 then -1 else 1) * (2 ^ (top + 1) - 1))
                                 mod 2 ^ nbits)).
      { destruct (Z.ltb_spec sa 0).
        - destruct (neg_rep nbits q _ Hn Hq) as [q' [Hneg Hq']].
          exists q'. split; [exact Hneg|].
          now replace (-1 * (2 ^ (top + 1) - 1)) with (- (2 ^ (top + 1) - 1)) by lia.
        - exists q. split; [reflexivity|].
          rewrite Z.mul_1_l, Z.mod_small by lia. exact Hq. }
      destruct Hquo as [q' [Hq1 Hq']].
      assert (Hrem :
        (if sa <? 0 then
           n <- neg (nbits + 1) acc ;; of_integer nbits (nbits + 1) n
         else of_integer nbits (nbits + 1) acc) = Ok a).
      { destruct (Z.ltb_spec sa 0).
        - destruct (neg_rep (nbits + 1) acc A ltac:(lia) Hacc) as [nacc [-> Hnacc]].
          cbn [bind].
          destruct (of_integer_narrow nbits nacc _ Hn Hnacc) as [r [-> Hr]].
          f_equal. apply (rep_inj nbits r a (val a)); [|exact Ha].
          rewrite mod_mod_pow2 in Hr by lia.
          replace (- A) with sa in Hr by (unfold A; lia).
          now rewrite Hma in Hr.
        - destruct (of_integer_narrow nbits acc _ Hn Hacc) as [r [-> Hr]].
          f_equal. apply (rep_inj nbits r a (val a)); [|exact Ha].
          replace A with sa in Hr by (unfold A; lia).
          now rewrite Hma in Hr. }
      assert (Hres : idiv false nbits a (clear nbits) = Ok (mk_idiv_t q' a)).
      { rewrite Hidiv, Hloop. cbn [bind]. rewrite Hq1. cbn [bind].
        rewrite Hrem. reflexivity. }
      exists q'. split; [exact Hres|].
      split; [apply (rep_valid nbits _ _ Hn Hq')|].
      split; [apply Hq'|].
      unfold div, modulo. rewrite Hres. split; reflexivity.
Qed.

Lemma zero_divisor_unchecked_witness :
  0 < 8 /\ valid 8 [100] = true /\
  let A := Z.abs (to_Z 8 [100]) in
  let top := if A =? 0 then 0 else Z.log2 A + 1 in
  (to_Z 8 [100] = - 2 ^ (8 - 1) ->
   idiv false 8 [100] (clear 8) = Throw bit_index_out_of_bounds) /\
  (to_Z 8 [100] <> - 2 ^ (8 - 1) ->
   exists q,
     idiv false 8 [100] (clear 8) = Ok (mk_idiv_t q [100]) /\
     valid 8 q = true /\
     val q = ((if to_Z 8 [100] <? 0 then -1 else 1) * (2 ^ (top + 1) - 1))
               mod 2 ^ 8 /\
     div false 8 [100] (clear 8) = Ok q /\
     modulo false 8 [100] (clear 8) = Ok [100]).
Proof.
  split; [lia|]. split; [reflexivity|].
  apply (zero_divisor_unchecked 8 [100]); [lia|reflexivity].
Defined.

(* ------------------------------------------------------------------ *)
(** ** Laws of addition and subtraction *)

(** X29: on valid values [operator+] is commutative and associative with
    the zero value as neutral element, [a - b] is [a + (-b)], and
    subtraction undoes addition, overflow included. *)
Theorem addition_laws nbits a b c :
  0 < nbits -> valid nbits a = true -> valid nbits b = true ->
  valid nbits c = true ->
  add nbits a b = add nbits b a /\
  add nbits (add nbits a b) c = add nbits a (add nbits b c) /\
  add nbits a (setzero nbits) = a /\
  exists d nb,
    sub nbits a b = Ok d /\ neg nbits b = Ok nb /\ d = add nbits a nb /\
    add nbits d b = a /\ sub nbits (add nbits a b) b = Ok a.
Proof.
  intros Hn Hva Hvb Hvc.
  pose proof (valid_rep nbits a Hn Hva) as Ha.
  pose proof (valid_rep nbits b Hn Hvb) as Hb.
  pose proof (valid_rep nbits c Hn Hvc) as Hc.
  pose proof (val_valid nbits a Hn Hva) as Hxa.
  assert (HN : 2 ^ nbits <> 0) by (apply Z.pow_nonzero; lia).
  pose proof (add_rep nbits a b _ _ Hn Ha Hb) as Hab.
  pose proof (add_rep nbits b a _ _ Hn Hb Ha) as Hba.
  pose proof (add_rep nbits b c _ _ Hn Hb Hc) as Hbc.
  split.
  { apply (rep_inj nbits _ _ _ Hab). now rewrite Z.add_comm. }
  split.
  { pose proof (add_rep nbits _ c _ _ Hn Hab Hc) as H1.
    pose proof (add_rep nbits a _ _ _ Hn Ha Hbc) as H2.
    apply (rep_inj nbits _ _ _ H1).
    rewrite Z.add_mod_idemp_l by assumption.
    rewrite Z.add_mod_idemp_r in H2 by assumption.
    now rewrite Z.add_assoc in H2. }
  split.
  { pose proof (add_rep nbits a _ _ _ Hn Ha (rep_clear nbits Hn)) as H0.
    rewrite Z.add_0_r, Z.mod_small in H0 by lia.
    apply (rep_inj nbits _ _ _ H0 Ha). }
  destruct (sub_assign_rep nbits a b _ _ Hn Ha Hb) as [d [Hd Rd]].
  destruct (neg_rep nbits b _ Hn Hb) as [nb [Hnb Rnb]].
  exists d, nb. split; [exact Hd|]. split; [exact Hnb|].
  split.
  { pose proof (add_rep nbits a nb _ _ Hn Ha Rnb) as H1.
    apply (rep_inj nbits _ _ _ Rd).
    rewrite Z.add_mod_idemp_r in H1 by assumption. exact H1. }
  split.
  { pose proof (add_rep nbits d b _ _ Hn Rd Hb) as H1.
    rewrite Z.add_mod_idemp_l in H1 by assumption.
    replace (val a - val b + val b) with (val a) in H1 by lia.
    rewrite Z.mod_small in H1 by lia.
    apply (rep_inj nbits _ _ _ H1 Ha). }
  destruct (sub_assign_rep nbits _ b _ _ Hn Hab Hb) as [e [He Re]].
  unfold sub. rewrite He. f_equal.
  rewrite Zminus_mod_idemp_l in Re.
  replace (val a + val b - val b) with (val a) in Re by lia.
  rewrite Z.mod_small in Re by lia.
  apply (rep_inj nbits _ _ _ Re Ha).
Qed.

Lemma addition_laws_witness :
  0 < 8 /\ valid 8 [200] = true /\ valid 8 [100] = true /\ valid 8 [7] = true /\
  add 8 [200] [100] = add 8 [100] [200] /\
  add 8 (add 8 [200] [100]) [7] = add 8 [200] (add 8 [100] [7]) /\
  add 8 [200] (setzero 8) = [200] /\
  exists d nb,
    sub 8 [200] [100] = Ok d /\ neg 8 [100] = Ok nb /\ d = add 8 [200] nb /\
    add 8 d [100] = [200] /\ sub 8 (add 8 [200] [100]) [100] = Ok [200].
Proof.
  split; [lia|]. split; [reflexivity|]. split; [reflexivity|].
  split; [reflexivity|].
  apply (addition_laws 8 [200] [100] [7]); [lia|reflexivity..].
Defined.

(* ------------------------------------------------------------------ *)
(** ** The outcome of [parse] *)

Lemma hex_loop_throws nbits l :
  forallb (fun c => hex_class c || hex_marker c) l = true ->
  forall st e,
    for_each l (hex_step nbits) st = Throw e ->
    e = integer_byte_index_out_of_bounds.
Proof.
  induction l as [|c l IH]; intros Hl st e H; [discriminate|].
  cbn [forallb] in Hl. apply andb_prop in Hl as [Hc Hl].
  cbn [for_each] in H.
  destruct (hex_step nbits st c) as [st1|e1] eqn:Hstep.
  - cbn [bind] in H. now apply (IH Hl st1).
  - cbn [bind] in H. injection H as <-.
    destruct st as [byte idx odd value ok]. unfold hex_step in Hstep.
    destruct (Ascii.eqb c "'") eqn:Hq; [discriminate|].
    unfold hex_marker in Hc.
    destruct (Ascii.eqb c "x" || Ascii.eqb c "X") eqn:Hm.
    + destruct odd; [|discriminate]. unfold setbyte in Hstep.
      destruct ((0 <=? idx) && (idx <? nrBytes nbits)); [discriminate|].
      cbn [bind] in Hstep. now injection Hstep as <-.
    + rewrite orb_false_r in Hc.
      assert (Hd : hex_digit c = true).
      { destruct (hex_class_cases c Hc) as [Hq'|Hd]; [|exact Hd].
        unfold is_quote in Hq'. congruence. }
      destruct (hex_digit_facts c Hd) as [_ [_ [_ [n Hn]]]].
      rewrite Hn in Hstep. cbn [bind] in Hstep.
      destruct odd; [|discriminate]. unfold setbyte in Hstep.
      destruct ((0 <=? idx) && (idx <? nrBytes nbits)); [discriminate|].
      cbn [bind] in Hstep. now injection Hstep as <-.
Qed.

Lemma hex_regex_chars cs :
  hex_regex cs = true ->
  forallb (fun c => hex_class c || hex_marker c) (rev cs) = true.
Proof.
  intros H. destruct cs as [|c0 [|c1 [|c2 rest]]]; try discriminate.
  unfold hex_regex in H. apply andb_prop in H as [H Hrest].
  apply andb_prop in H as [H0 H1]. apply Ascii.eqb_eq in H0. subst c0.
  apply forallb_forall. intros x Hx. apply in_rev in Hx.
  destruct Hx as [<-|[<-|Hx]].
  - reflexivity.
  - unfold hex_marker. rewrite H1. apply orb_true_r.
  - rewrite forallb_forall in Hrest. rewrite (Hrest x Hx). reflexivity.
Qed.

(** X30: [parse] succeeds exactly on the texts of hexadecimal or decimal
    form that are not of octal form; it never accepts a sign, a blank or
    the empty text.  The only exception it throws is
    [integer_byte_index_out_of_bounds], and only on a hexadecimal
    literal. *)
Theorem parse_outcome nbits txt value0 :
  0 < nbits ->
  (forall ok r,
     parse nbits txt value0 = Ok (ok, r) ->
     ok = negb (octal_regex (list_ascii_of_string txt))
          && (hex_regex (list_ascii_of_string txt)
              || decimal_regex (list_ascii_of_string txt))) /\
  (forall e,
     parse nbits txt value0 = Throw e ->
     e = integer_byte_index_out_of_bounds /\
     hex_regex (list_ascii_of_string txt) = true).
Proof.
  intros Hn.
  destruct (octal_regex (list_ascii_of_string txt)) eqn:Hoct.
  { unfold parse. rewrite Hoct. split; [|discriminate].
    intros ok r H. now injection H as <- _. }
  destruct (hex_regex (list_ascii_of_string txt)) eqn:Hhex.
  { unfold parse. rewrite Hoct, Hhex. split.
    - intros ok r H.
      destruct (for_each _ (hex_step nbits) _) as [st|] eqn:Hloop; [|discriminate].
      cbn [bind] in H. injection H as <- _.
      apply hex_loop_success in Hloop; [exact Hloop|].
      right. now apply hex_regex_marker.
    - intros e H.
      destruct (for_each _ (hex_step nbits) _) as [st|e'] eqn:Hloop; [discriminate|].
      cbn [bind] in H. injection H as <-. split; [|reflexivity].
      apply (hex_loop_throws nbits _ (hex_regex_chars _ Hhex) _ _ Hloop). }
  destruct (decimal_regex (list_ascii_of_string txt)) eqn:Hdec.
  { destruct (parse_decimal_rep nbits txt value0 Hn Hdec Hoct) as [v [Hp _]].
    rewrite Hp. split; [|discriminate]. intros ok r H. now injection H as <- _. }
  unfold parse. rewrite Hoct, Hhex, Hdec. split; [|discriminate].
  intros ok r H. now injection H as <- _.
Qed.

Lemma parse_outcome_witness :
  0 < 8 /\
  (forall ok r,
     parse 8 "+5" [0] = Ok (ok, r) ->
     ok = negb (octal_regex (list_ascii_of_string "+5"))
          && (hex_regex (list_ascii_of_string "+5")
              || decimal_regex (list_ascii_of_string "+5"))) /\
  (forall e,
     parse 8 "+5" [0] = Throw e ->
     e = integer_byte_index_out_of_bounds /\
     hex_regex (list_ascii_of_string "+5") = true).
Proof.
  split; [lia|]. apply (parse_outcome 8 "+5" [0]). lia.
Defined.
